(** * Address resolution and candidate selection of the geocoding service

    A shallow embedding of [GeocodingService] (geocoding.service.ts):
    [parseAddress], [stripRoadType], [fuzzyMatch], [levenshteinDistance],
    [checkKnownMismatches], [validateAddressMatch], [findBestResult] and the
    response handler of [geocode], followed by the properties of the
    selection pipeline.

    Conventions of the embedding.
    - A JavaScript string is a [string] whose characters are code units
      below 256, read as Latin-1.
    - An optional property of a provider record is an [option string]; a
      JavaScript truthiness test of such a property is [truthy].
    - A function that may [throw] returns [Exc]: [Ret v] for a normal
      return, [Throw m] for an [Error] whose [message] is [m]. *)

From Stdlib Require Import String Ascii List ZArith Lia Bool QArith.
From Stdlib Require Import DecimalString.
Import ListNotations.
Local Open Scope string_scope.
Local Open Scope Z_scope.

(** ** Exceptions *)

Inductive Exc (A : Type) : Type :=
| Ret (value : A)
| Throw (message : string).

Arguments Ret {A} value.
Arguments Throw {A} message.

Definition bindExc {A B : Type} (m : Exc A) (k : A -> Exc B) : Exc B :=
  match m with
  | Ret a => k a
  | Throw e => Throw e
  end.

Notation "'try!' x '<-' m ';' k" := (bindExc m (fun x => k))
  (at level 10, x name, m at level 100, k at level 200).

(** ** JavaScript string primitives *)

Module JS.

(** [!s] on a string. *)
Definition isEmpty (s : string) : bool :=
  match s with EmptyString => true | String _ _ => false end.

Definition code (c : ascii) : nat := nat_of_ascii c.

(** White space of [trim] and of the regular expression class [\s]. *)
Definition isSpace (c : ascii) : bool :=
  let n := code c in
  ((9 <=? n) && (n <=? 13) || (n =? 32) || (n =? 160))%nat.

Definition isDigit (c : ascii) : bool :=
  let n := code c in ((48 <=? n) && (n <=? 57))%nat.

(** The class [\w]: letters, digits and the underscore. *)
Definition isWordChar (c : ascii) : bool :=
  let n := code c in
  (((65 <=? n) && (n <=? 90)) || ((97 <=? n) && (n <=? 122))
   || ((48 <=? n) && (n <=? 57)) || (n =? 95))%nat.

Definition lowerChar (c : ascii) : ascii :=
  let n := code c in
  if (((65 <=? n) && (n <=? 90))
      || ((192 <=? n) && (n <=? 222) && negb (n =? 215)))%nat
  then ascii_of_nat (n + 32) else c.

Fixpoint toLowerCase (s : string) : string :=
  match s with
  | EmptyString => EmptyString
  | String c s' => String (lowerChar c) (toLowerCase s')
  end.

Fixpoint trimStart (s : string) : string :=
  match s with
  | EmptyString => EmptyString
  | String c s' => if isSpace c then trimStart s' else s
  end.

Fixpoint trimEnd (s : string) : string :=
  match s with
  | EmptyString => EmptyString
  | String c s' =>
      let r := trimEnd s' in
      if isSpace c && isEmpty r then EmptyString else String c r
  end.

Definition trim (s : string) : string := trimEnd (trimStart s).

Fixpoint startsWith (s p : string) : bool :=
  match p, s with
  | EmptyString, _ => true
  | String _ _, EmptyString => false
  | String a p', String b s' => Ascii.eqb a b && startsWith s' p'
  end.

Fixpoint includes (s sub : string) : bool :=
  startsWith s sub ||
  match s with
  | EmptyString => false
  | String _ s' => includes s' sub
  end.

(** [s.substring(n)]. *)
Fixpoint substringFrom (n : nat) (s : string) : string :=
  match n, s with
  | O, _ => s
  | S _, EmptyString => EmptyString
  | S n', String _ s' => substringFrom n' s'
  end.

(** [s.split(sep)] for a one-character separator: never the empty list. *)
Fixpoint splitChar_aux (sep : ascii) (cur : string) (s : string) : list string :=
  match s with
  | EmptyString => [cur]
  | String c s' =>
      if Ascii.eqb c sep then cur :: splitChar_aux sep EmptyString s'
      else splitChar_aux sep (cur ++ String c EmptyString) s'
  end.

Definition splitChar (sep : ascii) (s : string) : list string :=
  splitChar_aux sep EmptyString s.

(** [s.split(/\s+/)]: the pieces between maximal runs of white space; a
    leading or trailing run leaves an empty piece, and the empty string
    gives one empty piece. *)
Fixpoint splitWs_aux (inRun : bool) (cur : string) (s : string) : list string :=
  match s with
  | EmptyString => [cur]
  | String c s' =>
      if isSpace c then
        if inRun then splitWs_aux true cur s'
        else cur :: splitWs_aux true EmptyString s'
      else splitWs_aux false (cur ++ String c EmptyString) s'
  end.

Definition splitWs (s : string) : list string :=
  splitWs_aux false EmptyString s.

(** [xs.join(sep)]. *)
Definition join (sep : string) (xs : list string) : string :=
  String.concat sep xs.

(** [xs.includes(x)] on an array of strings. *)
Definition arrayIncludes (xs : list string) (x : string) : bool :=
  existsb (String.eqb x) xs.

(** [xs.splice(i, 1)]: the array without its element at index [i]. *)
Fixpoint removeAt {A : Type} (i : nat) (xs : list A) : list A :=
  match i, xs with
  | _, [] => []
  | O, _ :: t => t
  | S i', x :: t => x :: removeAt i' t
  end.

(** [xs[i]] read as a string where the source guards the index. *)
Definition at_ (xs : list string) (i : nat) : string :=
  nth i xs EmptyString.

(** Five digits at the head of [s], not followed by a word character. *)
Definition fiveDigitsThenBoundary (s : string) : option string :=
  match s with
  | String a (String b (String c (String d (String e rest))) ) =>
      if isDigit a && isDigit b && isDigit c && isDigit d && isDigit e
         && match rest with
            | EmptyString => true
            | String f _ => negb (isWordChar f)
            end
      then Some (String a (String b (String c (String d (String e EmptyString)))))
      else None
  | _ => None
  end.

(** [s.match(/\b\d{5}\b/)]: the leftmost run of exactly five digits that
    stands between word boundaries. [prevWord] tells whether the character
    before the current position is a word character. *)
Fixpoint matchPostcode_aux (prevWord : bool) (s : string) : option string :=
  match s with
  | EmptyString => None
  | String c s' =>
      match (if prevWord then None else fiveDigitsThenBoundary s) with
      | Some m => Some m
      | None => matchPostcode_aux (isWordChar c) s'
      end
  end.

Definition matchPostcode (s : string) : option string :=
  matchPostcode_aux false s.

(** Decimal text of an integer, as a template literal prints it. *)
Definition showZ (z : Z) : string :=
  NilZero.string_of_int (Z.to_int z).

(** The double-quote character of a message. *)
Definition dq : string := String (ascii_of_nat 34) EmptyString.

End JS.

(** ** Data model *)

(** JavaScript truthiness of an optional string property. *)
Definition truthy (o : option string) : bool :=
  match o with
  | Some s => negb (JS.isEmpty s)
  | None => false
  end.

(** [o || ''] for an optional string. *)
Definition orEmpty (o : option string) : string :=
  match o with
  | Some s => s
  | None => EmptyString
  end.

(** [a || b] on strings. *)
Definition orStr (a b : string) : string :=
  if JS.isEmpty a then b else a.

(** The object built by [parseAddress]; a property that a template leaves
    out is [None]. *)
Module AddressParts.
Record t : Type := mk {
  country : option string;
  street : string;
  city : string;
  province : option string;
  county : option string;
  postcode : string
}.
End AddressParts.

(** The [components] bag of a provider result. *)
Module Components.
Record t : Type := mk {
  road : option string;
  square : option string;
  city : option string;
  town : option string;
  village : option string;
  hamlet : option string;
  county : option string;
  state : option string;
  state_district : option string;
  postcode : option string;
  country_code : option string
}.
End Components.

Record Geometry : Type := { lat : Q; lng : Q }.

(** One entry of [OpenCageResponse.results]. The scoring loop reads
    [result.components] unguarded, so the bag is taken to be present, as
    [OpenCageResult] declares it; [confidence] is the provider's integer
    score, and the coordinates are only copied. *)
Record Candidate : Type := {
  components : Components.t;
  confidence : Z;
  formatted : string;
  geometry : Geometry
}.

Record LocationResult : Type := {
  latitude : Q;
  longitude : Q;
  address : string;
  locConfidence : Z
}.

(** ** Road types and fuzzy matching *)

Definition roadTypes : list string :=
  ["via"; "viale"; "piazza"; "corso"; "largo"; "vicolo"; "strada"; "piazzale"].

Fixpoint stripRoadType_loop (types : list string) (normalized : string) : string :=
  match types with
  | [] => normalized
  | type :: rest =>
      if JS.startsWith normalized (type ++ " ")
      then JS.trim (JS.substringFrom (String.length type + 1) normalized)
      else stripRoadType_loop rest normalized
  end.

Definition stripRoadType (road : string) : string :=
  if JS.isEmpty road then EmptyString
  else stripRoadType_loop roadTypes (JS.toLowerCase (JS.trim road)).

Definition iota0 (n : nat) : list nat := seq 0 (S n).

(** One row [matrix[j]] of the distance table, without its first cell:
    [diag] is [matrix[j-1][i-1]], [above] holds [matrix[j-1][i..]] and
    [left] is [matrix[j][i-1]]. *)
Fixpoint levRow (c2 : ascii) (str1 : string) (diag : nat) (above : list nat)
    (left : nat) : list nat :=
  match str1, above with
  | String c1 s', a :: above' =>
      let indicator := if Ascii.eqb c1 c2 then 0%nat else 1%nat in
      let v := Nat.min (Nat.min (left + 1) (a + 1)) (diag + indicator) in
      v :: levRow c2 s' a above' v
  | _, _ => []
  end.

Fixpoint levRows (str1 str2 : string) (j : nat) (prev : list nat) : list nat :=
  match str2 with
  | EmptyString => prev
  | String c2 s2' =>
      let row := j :: levRow c2 str1 (hd 0%nat prev) (tl prev) j in
      levRows str1 s2' (S j) row
  end.

Definition levenshteinDistance (str1 str2 : string) : nat :=
  last (levRows str1 str2 1 (iota0 (String.length str1))) 0%nat.

Definition fuzzyMatch (str1 str2 : string) : bool :=
  if JS.isEmpty str1 || JS.isEmpty str2 then false
  else
    let s1 := JS.trim (JS.toLowerCase str1) in
    let s2 := JS.trim (JS.toLowerCase str2) in
    if String.eqb s1 s2 then true
    else
      let s1Words := JS.splitWs s1 in
      let s2Words := JS.splitWs s2 in
      if (length s1Words =? length s2Words)%nat
         && (JS.includes s1 s2 || JS.includes s2 s1)
      then true
      else if (JS.startsWith s2 (s1 ++ " ") || JS.startsWith s1 (s2 ++ " "))
              && ((1 <? length s1Words)%nat || (1 <? length s2Words)%nat)
      then true
      else if (length s1Words =? length s2Words)%nat
              && (levenshteinDistance s1 s2 <=? 2)%nat
      then true
      else false.

(** The closure [cityMatchStrict] of [findBestResult]. *)
Definition cityMatchStrict (geoName inputName : string) : bool :=
  if JS.isEmpty geoName || JS.isEmpty inputName then false
  else
    let geoWords := JS.splitWs (JS.trim (JS.toLowerCase geoName)) in
    let inputWords := JS.splitWs (JS.trim (JS.toLowerCase inputName)) in
    if (length inputWords <? length geoWords)%nat then
      if String.eqb (JS.join " " (firstn (length inputWords) geoWords))
                    (JS.join " " inputWords)
      then false
      else false
    else fuzzyMatch geoName inputName.

(** ** parseAddress *)

(** The block that drops a repeated or adjacent road type from the street
    segment. *)
Definition normalizeStreet (parts : list string) : list string :=
  match parts with
  | [] => parts
  | street :: rest =>
      let streetWords := JS.splitWs street in
      let w0 := JS.toLowerCase (JS.at_ streetWords 0) in
      let w1 := JS.toLowerCase (JS.at_ streetWords 1) in
      if (2 <? length streetWords)%nat
         && JS.arrayIncludes roadTypes w0 && JS.arrayIncludes roadTypes w1
      then JS.join " " (JS.removeAt 1 streetWords) :: rest
      else if (2 <? length streetWords)%nat
              && JS.arrayIncludes roadTypes w0 && String.eqb w0 w1
      then JS.join " " (JS.removeAt 0 streetWords) :: rest
      else parts
  end.

(** The loop that takes the first five-digit token of any segment. *)
Fixpoint extractPostcode (parts : list string) : string :=
  match parts with
  | [] => EmptyString
  | part :: rest =>
      match JS.matchPostcode part with
      | Some m => m
      | None => extractPostcode rest
      end
  end.

(** [postcodeRegex.test(s)]. *)
Definition testPostcode (s : string) : bool :=
  match JS.matchPostcode s with Some _ => true | None => false end.

Definition parseAddress (address : string) : AddressParts.t :=
  let parts := normalizeStreet (map JS.trim (JS.splitChar "," address)) in
  let postcode := extractPostcode parts in
  let p := JS.at_ parts in
  let n := length parts in
  if (n =? 4)%nat then
    let lastIsPostcode := testPostcode (p 3%nat) in
    AddressParts.mk None (p 0%nat) (p 1%nat) (Some (p 2%nat)) (Some (p 2%nat))
      (orStr postcode (if lastIsPostcode then p 3%nat else EmptyString))
  else if (n =? 3)%nat then
    let lastIsPostcode := testPostcode (p 2%nat) in
    AddressParts.mk None (p 0%nat) (p 1%nat)
      (Some (if lastIsPostcode then EmptyString else p 2%nat))
      (Some (if lastIsPostcode then EmptyString else p 2%nat))
      (orStr postcode (if lastIsPostcode then p 2%nat else EmptyString))
  else if (n =? 5)%nat then
    let lastIsPostcode := testPostcode (p 4%nat) in
    AddressParts.mk (Some (p 0%nat)) (p 1%nat) (p 2%nat) None (Some (p 3%nat))
      (orStr postcode (if lastIsPostcode then p 4%nat else EmptyString))
  else if (n =? 4)%nat then
    let lastIsPostcode := testPostcode (p 3%nat) in
    AddressParts.mk None (p 0%nat) (p 1%nat) None (Some (p 2%nat))
      (orStr postcode (if lastIsPostcode then p 3%nat else EmptyString))
  else if (n =? 3)%nat then
    let lastIsPostcode := testPostcode (p 2%nat) in
    AddressParts.mk None (p 0%nat) (p 1%nat) None None
      (orStr postcode (if lastIsPostcode then p 2%nat else EmptyString))
  else
    AddressParts.mk None (p 0%nat) (p 1%nat) (Some (p 2%nat)) (Some (p 2%nat))
      (orStr postcode EmptyString).

(** ** checkKnownMismatches *)

Definition mismatches : list (string * list string) :=
  [ ("firenze", ["milano"; "milan"]);
    ("rome", ["milano"; "milan"]);
    ("roma", ["milano"; "milan"]);
    ("napoli", ["milano"; "milan"]);
    ("naples", ["milano"; "milan"]);
    ("torino", ["roma"; "rome"]);
    ("turin", ["roma"; "rome"]);
    ("palermo", ["milano"; "milan"; "roma"; "rome"]);
    ("catania", ["milano"; "milan"; "roma"; "rome"]) ].

Definition majorProvinces : list (string * list string) :=
  [ ("milano", ["milan"; "mi"]);
    ("roma", ["rome"; "rm"]);
    ("napoli", ["naples"; "na"]);
    ("torino", ["turin"; "to"]);
    ("firenze", ["florence"; "fi"]);
    ("bologna", ["bo"]);
    ("venezia", ["venice"; "ve"]) ].

(** [mismatches] is an object literal, so a key that it does not own is
    still looked up on [Object.prototype]. Of the inherited properties only
    these two are spelled in lower case; both are truthy and neither has an
    [includes] method. *)
Definition inheritedKeys : list string := ["constructor"; "__proto__"].

Definition notAFunction : string :=
  "mismatches[cityLower].includes is not a function".

Fixpoint lookupOwn (key : string) (table : list (string * list string))
    : option (list string) :=
  match table with
  | [] => None
  | (k, v) :: rest => if String.eqb k key then Some v else lookupOwn key rest
  end.

Fixpoint majorProvinces_loop (entries : list (string * list string))
    (inputProvinceLower geocodedProvinceLower : string) : bool :=
  match entries with
  | [] => false
  | (province, aliases) :: rest =>
      if JS.includes inputProvinceLower province then
        let isInSameProvince :=
          existsb (fun alias =>
                     JS.includes geocodedProvinceLower (JS.toLowerCase alias))
                  aliases
          || JS.includes geocodedProvinceLower province in
        if negb isInSameProvince then true
        else majorProvinces_loop rest inputProvinceLower geocodedProvinceLower
      else majorProvinces_loop rest inputProvinceLower geocodedProvinceLower
  end.

Definition checkKnownMismatches
    (geocodedCity inputProvince geocodedProvince : string) : Exc bool :=
  let cityLower := JS.toLowerCase geocodedCity in
  let provinceLower := JS.toLowerCase inputProvince in
  match lookupOwn cityLower mismatches with
  | Some forbidden => Ret (JS.arrayIncludes forbidden provinceLower)
  | None =>
      if JS.arrayIncludes inheritedKeys cityLower then Throw notAFunction
      else
        Ret (majorProvinces_loop majorProvinces
               (JS.toLowerCase inputProvince) (JS.toLowerCase geocodedProvince))
  end.

(** ** Messages *)

Definition quoted (s : string) : string := JS.dq ++ s ++ JS.dq.

Definition verifySuffix : string := " Please verify the entered address.".

Definition msgLowConfidence (c : Z) : string :=
  "Low confidence (" ++ JS.showZ c ++ "/10)".

Definition msgMismatch (field found expected : string) : string :=
  field ++ " mismatch: found " ++ quoted found ++ " instead of " ++ quoted expected.

Definition msgInvalidCombination (city province : string) : string :=
  "Invalid geographical combination: " ++ quoted city
  ++ " is not in the province of " ++ quoted province.

Definition msgPostcodeThrown (found expected : string) : string :=
  "VALIDATION_ERROR: " ++ msgMismatch "Postcode" found expected ++ "." ++ verifySuffix.

Definition msgNoPostcodeResult (postcode : string) : string :=
  "VALIDATION_ERROR: No result found with postcode " ++ postcode
  ++ " and a valid road or square." ++ verifySuffix.

Definition msgNoStreetCity (street city suggestion postcodeSuggestion : string)
    : string :=
  "VALIDATION_ERROR: No result found with street name " ++ quoted street
  ++ " and city " ++ quoted city ++ "." ++ suggestion ++ postcodeSuggestion
  ++ verifySuffix.

Definition msgNoStreet (street : string) : string :=
  "VALIDATION_ERROR: No result found with street name " ++ quoted street
  ++ ". Please verify the entered address and insert the postcode if not present.".

Definition msgFirstDiagnostic (errorDetail : string) : string :=
  "VALIDATION_ERROR: " ++ errorDetail ++ "." ++ verifySuffix.

Definition msgInvalidOrNotFound : string :=
  "VALIDATION_ERROR: Invalid or not found address. Please try again.".

Definition msgNoResults : string :=
  "NO_RESULTS: No results found for this address.".

(** ** Candidate selection *)

(** [a || b || ... || ''] over optional properties. *)
Fixpoint firstTruthy (os : list (option string)) : string :=
  match os with
  | [] => EmptyString
  | o :: rest => if truthy o then orEmpty o else firstTruthy rest
  end.

Definition nonEmpty (s : string) : bool := negb (JS.isEmpty s).

(** [o && o === s]. *)
Definition isTruthyAndEq (o : option string) (s : string) : bool :=
  truthy o && String.eqb (orEmpty o) s.

(** The filter predicate: a road or a square property. *)
Definition hasRoadOrSquare (r : Candidate) : bool :=
  truthy (Components.road (components r))
  || truthy (Components.square (components r)).

Definition postcodeAndRoadMatch (addressParts : AddressParts.t) (r : Candidate)
    : bool :=
  isTruthyAndEq (Components.postcode (components r))
                (AddressParts.postcode addressParts)
  && truthy (Components.road (components r))
  && fuzzyMatch (orEmpty (Components.road (components r)))
                (AddressParts.street addressParts).

Definition postcodeMatch (addressParts : AddressParts.t) (r : Candidate) : bool :=
  isTruthyAndEq (Components.postcode (components r))
                (AddressParts.postcode addressParts).

Definition roadMatches (inputStreetStripped : string) (r : Candidate) : bool :=
  truthy (Components.road (components r))
  && fuzzyMatch (stripRoadType (orEmpty (Components.road (components r))))
                inputStreetStripped.

Definition strictOn (o : option string) (inputCity : string) : bool :=
  truthy o && cityMatchStrict (orEmpty o) inputCity.

Definition roadAndCityMatches (inputStreetStripped inputCity : string)
    (r : Candidate) : bool :=
  roadMatches inputStreetStripped r
  && (strictOn (Components.city (components r)) inputCity
      || strictOn (Components.town (components r)) inputCity
      || strictOn (Components.village (components r)) inputCity
      || strictOn (Components.hamlet (components r)) inputCity).

Definition citySuggestion (addressParts : AddressParts.t)
    (roadMatchList : list Candidate) : string :=
  match roadMatchList with
  | [] => EmptyString
  | first :: _ =>
      let c := components first in
      let suggestedCity :=
        firstTruthy [Components.city c; Components.town c;
                     Components.village c; Components.hamlet c] in
      if nonEmpty suggestedCity
         && negb (String.eqb (JS.toLowerCase suggestedCity)
                    (JS.toLowerCase (AddressParts.city addressParts)))
      then " Did you mean " ++ quoted (AddressParts.street addressParts ++ ", "
                                       ++ suggestedCity) ++ "?"
      else EmptyString
  end.

(** The branches taken inside [if (results && results.length > 0)]. [None]
    is the fall-through to the scoring loop. *)
Definition selectionBranches (results : list Candidate)
    (addressParts : AddressParts.t) : option (Exc (option Candidate)) :=
  let filteredResults := filter hasRoadOrSquare results in
  if nonEmpty (AddressParts.postcode addressParts) then
    match (if nonEmpty (AddressParts.street addressParts)
           then find (postcodeAndRoadMatch addressParts) filteredResults
           else None) with
    | Some exactPostcodeAndRoad => Some (Ret (Some exactPostcodeAndRoad))
    | None =>
        match find (postcodeMatch addressParts) filteredResults with
        | Some exactPostcode => Some (Ret (Some exactPostcode))
        | None =>
            Some (Throw (msgNoPostcodeResult (AddressParts.postcode addressParts)))
        end
    end
  else if nonEmpty (AddressParts.street addressParts) then
    let inputStreetStripped := stripRoadType (AddressParts.street addressParts) in
    if nonEmpty (AddressParts.city addressParts) then
      match find (roadAndCityMatches inputStreetStripped
                    (AddressParts.city addressParts)) filteredResults with
      | Some roadAndCityMatch => Some (Ret (Some roadAndCityMatch))
      | None =>
          let suggestion :=
            citySuggestion addressParts
              (filter (roadMatches inputStreetStripped) filteredResults) in
          let postcodeSuggestion :=
            if JS.isEmpty (AddressParts.postcode addressParts)
            then " Try adding a postcode to improve accuracy."
            else EmptyString in
          Some (Throw (msgNoStreetCity (AddressParts.street addressParts)
                         (AddressParts.city addressParts)
                         suggestion postcodeSuggestion))
      end
    else
      match find (roadMatches inputStreetStripped) filteredResults with
      | Some roadMatch => Some (Ret (Some roadMatch))
      | None => Some (Throw (msgNoStreet (AddressParts.street addressParts)))
      end
  else
    match filteredResults with
    | first :: _ => Some (Ret (Some first))
    | [] => None
    end.

(** An entry of the local array [validResults]. *)
Record Scored : Type := { result : Candidate; score : Z }.

(** The two local arrays that the scoring loop grows by [push]. *)
Record LoopState : Type := {
  validationErrors : list string;
  validResults : list Scored
}.

Definition pushError (st : LoopState) (m : string) : LoopState :=
  {| validationErrors := (validationErrors st ++ [m])%list;
     validResults := validResults st |}.

Definition pushValid (st : LoopState) (v : Scored) : LoopState :=
  {| validationErrors := validationErrors st;
     validResults := (validResults st ++ [v])%list |}.

Definition setErrors (st : LoopState) (errs : list string) : LoopState :=
  {| validationErrors := errs; validResults := validResults st |}.

(** [validResults.sort((a, b) => b.score - a.score)]: the stable sort by
    descending score. *)
Fixpoint insertByScore (x : Scored) (sorted : list Scored) : list Scored :=
  match sorted with
  | [] => [x]
  | y :: rest =>
      if (score y - score x <=? 0)%Z then x :: y :: rest
      else y :: insertByScore x rest
  end.

Fixpoint sortByScore (xs : list Scored) : list Scored :=
  match xs with
  | [] => []
  | x :: rest => insertByScore x (sortByScore rest)
  end.

(** Outcome of one field comparison on the non-Italian path. *)
Inductive FieldCheck : Type :=
| Skipped
| Matched
| Mismatched (diagnostic : string).

Definition checkField (bothPresent matches : bool) (diagnostic : string)
    : FieldCheck :=
  if bothPresent then (if matches then Matched else Mismatched diagnostic)
  else Skipped.

Definition bonus (c : FieldCheck) : Z :=
  match c with Matched => 1 | _ => 0 end.

(** The non-Italian arm of the loop body: the diagnostic of the first
    failed field, or the match score. *)
Definition scoreForeign (addressParts : AddressParts.t) (c : Components.t)
    : string + Z :=
  let geocodedCity :=
    firstTruthy [Components.city c; Components.town c; Components.village c] in
  let geocodedPostcode := orEmpty (Components.postcode c) in
  let geocodedCounty := orEmpty (Components.county c) in
  let inputPostcode := AddressParts.postcode addressParts in
  let inputCounty := orEmpty (AddressParts.county addressParts) in
  let inputCity := AddressParts.city addressParts in
  match checkField (nonEmpty geocodedCity && nonEmpty inputCity)
          (fuzzyMatch geocodedCity inputCity)
          (msgMismatch "City" geocodedCity inputCity) with
  | Mismatched d => inl d
  | cityCheck =>
      match checkField (nonEmpty inputPostcode && nonEmpty geocodedPostcode)
              (String.eqb (JS.toLowerCase geocodedPostcode)
                          (JS.toLowerCase inputPostcode))
              (msgMismatch "Postcode" geocodedPostcode inputPostcode) with
      | Mismatched d => inl d
      | postcodeCheck =>
          match checkField (nonEmpty inputCounty && nonEmpty geocodedCounty)
                  (fuzzyMatch geocodedCounty inputCounty)
                  (msgMismatch "County" geocodedCounty inputCounty) with
          | Mismatched d => inl d
          | countyCheck =>
              inr (bonus cityCheck + bonus postcodeCheck + bonus countyCheck)
          end
      end
  end.

Section KnownMismatchLookup.

(** The lookup that [validateAddressMatch] and the scoring loop consult.
    The service uses [checkKnownMismatches]; the definitions below take it
    as a variable so that its influence can be stated. *)
Variable known : string -> string -> string -> Exc bool.

Definition validateAddressMatchWith (c : Components.t)
    (addressParts : AddressParts.t) : Exc bool :=
  if negb (isTruthyAndEq (Components.country_code c) "it") then Ret false
  else
    let geocodedCity :=
      firstTruthy [Components.city c; Components.town c; Components.village c] in
    let geocodedProvince := orEmpty (Components.county c) in
    let geocodedRegion :=
      firstTruthy [Components.state c; Components.state_district c] in
    let geocodedPostcode := orEmpty (Components.postcode c) in
    let cityMatch := fuzzyMatch geocodedCity (AddressParts.city addressParts) in
    if negb cityMatch then Ret false
    else
      let inputProvince := orEmpty (AddressParts.province addressParts) in
      let provinceMismatch :=
        truthy (AddressParts.province addressParts)
        && negb (fuzzyMatch geocodedProvince inputProvince
                 || fuzzyMatch geocodedRegion inputProvince) in
      if provinceMismatch then
        try! knownMismatches <- known geocodedCity inputProvince geocodedProvince;
        if (knownMismatches : bool) then Ret false else Ret false
      else if nonEmpty (AddressParts.postcode addressParts)
              && nonEmpty geocodedPostcode
              && negb (String.eqb geocodedPostcode
                         (AddressParts.postcode addressParts))
      then Throw (msgPostcodeThrown geocodedPostcode
                    (AddressParts.postcode addressParts))
      else Ret true.

(** The body of the [try] block of the Italian arm, run on the diagnostics
    collected so far: the diagnostics as the block leaves them, and how it
    ends ([Ret (Some s)]: valid with match score [s]; [Ret None]: not
    valid; [Throw m]: left by an exception). *)
Definition italianTry (addressParts : AddressParts.t) (c : Components.t)
    (errs : list string) : list string * Exc (option Z) :=
  let geocodedCity :=
    firstTruthy [Components.city c; Components.town c; Components.village c] in
  let geocodedProvince := orEmpty (Components.county c) in
  let inputCity := AddressParts.city addressParts in
  let inputProvince := orEmpty (AddressParts.province addressParts) in
  match validateAddressMatchWith c addressParts with
  | Throw m => (errs, Throw m)
  | Ret true =>
      let s1 := if fuzzyMatch geocodedCity inputCity then 1 else 0 in
      let s2 := if truthy (AddressParts.province addressParts)
                   && fuzzyMatch geocodedProvince inputProvince
                then 1 else 0 in
      let s3 := if nonEmpty (AddressParts.postcode addressParts)
                   && isTruthyAndEq (Components.postcode c)
                        (AddressParts.postcode addressParts)
                then 1 else 0 in
      (errs, Ret (Some (s1 + s2 + s3)))
  | Ret false =>
      let errs1 :=
        if nonEmpty geocodedCity && nonEmpty inputCity
           && negb (fuzzyMatch geocodedCity inputCity)
        then (errs ++ [msgMismatch "City" geocodedCity inputCity])%list
        else errs in
      if truthy (AddressParts.province addressParts)
         && nonEmpty geocodedProvince
         && negb (fuzzyMatch geocodedProvince inputProvince)
      then
        match known geocodedCity inputProvince geocodedProvince with
        | Ret true =>
            ((errs1 ++ [msgInvalidCombination inputCity inputProvince])%list,
             Ret None)
        | Ret false =>
            ((errs1 ++ [msgMismatch "Province" geocodedProvince inputProvince])%list,
             Ret None)
        | Throw m => (errs1, Throw m)
        end
      else (errs1, Ret None)
  end.

(** One iteration of [for (const result of results)]. *)
Definition scoreStep (addressParts : AddressParts.t) (st : LoopState)
    (r : Candidate) : LoopState :=
  if (confidence r <? 9)%Z then pushError st (msgLowConfidence (confidence r))
  else
    let countryCode := Components.country_code (components r) in
    if truthy countryCode
       && negb (String.eqb (JS.toLowerCase (orEmpty countryCode)) "it")
    then
      match scoreForeign addressParts (components r) with
      | inl diagnostic => pushError st diagnostic
      | inr matchScore =>
          pushValid st {| result := r; score := matchScore + confidence r |}
      end
    else
      match italianTry addressParts (components r) (validationErrors st) with
      | (errs, Ret (Some matchScore)) =>
          pushValid (setErrors st errs)
            {| result := r; score := matchScore + confidence r |}
      | (errs, Ret None) => setErrors st errs
      | (errs, Throw m) => pushError (setErrors st errs) m
      end.

Definition scoringLoop (addressParts : AddressParts.t)
    (results : list Candidate) : LoopState :=
  fold_left (scoreStep addressParts) results
    {| validationErrors := []; validResults := [] |}.

(** What follows the loop: the best scored candidate, else the first
    diagnostic, else the first candidate of confidence 8 or more, else
    [null]. *)
Definition concludeScoring (st : LoopState) (results : list Candidate)
    : Exc (option Candidate) :=
  match sortByScore (validResults st) with
  | best :: _ => Ret (Some (result best))
  | [] =>
      match validationErrors st with
      | errorDetail :: _ => Throw (msgFirstDiagnostic errorDetail)
      | [] =>
          match filter (fun r => (8 <=? confidence r)%Z) results with
          | first :: _ => Ret (Some first)
          | [] => Ret None
          end
      end
  end.

Definition scoringFallbackWith (results : list Candidate)
    (addressParts : AddressParts.t) : Exc (option Candidate) :=
  concludeScoring (scoringLoop addressParts results) results.

Definition findBestResultWith (results : list Candidate)
    (originalAddress : string) : Exc (option Candidate) :=
  let addressParts := parseAddress originalAddress in
  match (match results with
         | [] => None
         | _ :: _ => selectionBranches results addressParts
         end) with
  | Some outcome => outcome
  | None => scoringFallbackWith results addressParts
  end.

End KnownMismatchLookup.

Definition validateAddressMatch : Components.t -> AddressParts.t -> Exc bool :=
  validateAddressMatchWith checkKnownMismatches.

Definition scoringFallback
    : list Candidate -> AddressParts.t -> Exc (option Candidate) :=
  scoringFallbackWith checkKnownMismatches.

Definition findBestResult : list Candidate -> string -> Exc (option Candidate) :=
  findBestResultWith checkKnownMismatches.

(** ** The response handler of geocode *)

Definition toLocation (r : Candidate) : LocationResult :=
  {| latitude := lat (geometry r);
     longitude := lng (geometry r);
     address := formatted r;
     locConfidence := confidence r |}.

(** The [try]/[catch] block of the [map] callback of [geocode], applied to
    what [findBestResult] did. *)
Definition handleOutcome (outcome : Exc (option Candidate)) : Exc LocationResult :=
  match outcome with
  | Ret (Some validResult) => Ret (toLocation validResult)
  | Ret None => Throw msgInvalidOrNotFound
  | Throw m =>
      if JS.startsWith m "VALIDATION_ERROR:" then Throw m
      else Throw msgInvalidOrNotFound
  end.

(** The [map] callback of [geocode] applied to [data.results]; the
    [catchError] that follows re-throws every error raised here. *)
Definition geocodeHandler (results : list Candidate) (address : string)
    : Exc LocationResult :=
  match results with
  | _ :: _ => handleOutcome (findBestResult results address)
  | [] => Throw msgNoResults
  end.

(** ** Vocabulary of the properties *)

(** The number of words that [fuzzyMatch] and [cityMatchStrict] count in a
    name. *)
Definition wordCount (s : string) : nat :=
  length (JS.splitWs (JS.trim (JS.toLowerCase s))).

(** The string that [fuzzyMatch] compares. *)
Definition normalized (s : string) : string := JS.trim (JS.toLowerCase s).

(** A string of exactly five decimal digits. *)
Definition isFiveDigits (s : string) : bool :=
  match s with
  | String a (String b (String c (String d (String e EmptyString)))) =>
      JS.isDigit a && JS.isDigit b && JS.isDigit c && JS.isDigit d && JS.isDigit e
  | _ => false
  end.

(** Whether a string holds a white-space character. *)
Fixpoint hasSpace (s : string) : bool :=
  match s with
  | EmptyString => false
  | String c s' => JS.isSpace c || hasSpace s'
  end.

(** The place-name properties that the strict city match reads. *)
Definition placeNames (r : Candidate) : list (option string) :=
  [Components.city (components r); Components.town (components r);
   Components.village (components r); Components.hamlet (components r)].

(** Two lookups that throw on the same arguments, with the same message,
    and otherwise differ at most in the boolean they return. *)
Definition sameThrows (k1 k2 : string -> string -> string -> Exc bool) : Prop :=
  forall a b c,
    match k1 a b c, k2 a b c with
    | Ret _, Ret _ => True
    | Throw m1, Throw m2 => m1 = m2
    | _, _ => False
    end.

(** Two diagnostics that are equal, or are the two wordings of a province
    mismatch. *)
Definition sameUpToWording (d1 d2 : string) : Prop :=
  d1 = d2 \/
  exists city province geocodedProvince,
    (d1 = msgInvalidCombination city province
     /\ d2 = msgMismatch "Province" geocodedProvince province)
    \/ (d2 = msgInvalidCombination city province
        /\ d1 = msgMismatch "Province" geocodedProvince province).

(** Two outcomes with the same verdict: the same returned value, or two
    failures whose messages quote diagnostics equal up to wording. *)
Definition sameVerdict (o1 o2 : Exc (option Candidate)) : Prop :=
  match o1, o2 with
  | Ret a, Ret b => a = b
  | Throw m1, Throw m2 =>
      m1 = m2 \/
      exists d1 d2, sameUpToWording d1 d2
                    /\ m1 = msgFirstDiagnostic d1 /\ m2 = msgFirstDiagnostic d2
  | _, _ => False
  end.

(** Two states of the scoring loop with the same valid results and with
    diagnostics equal up to wording. *)
Definition relatedStates (st1 st2 : LoopState) : Prop :=
  Forall2 sameUpToWording (validationErrors st1) (validationErrors st2)
  /\ validResults st1 = validResults st2.

(** ** Sample provider results *)

Module Sample.

Definition noComponents : Components.t :=
  Components.mk None None None None None None None None None None None.

Definition candidate (c : Components.t) (conf : Z) : Candidate :=
  {| components := c; confidence := conf; formatted := EmptyString;
     geometry := {| lat := 0%Q; lng := 0%Q |} |}.

(** [{road: "Via Roma", city: "Milano", postcode: "20100"}], confidence 9. *)
Definition viaRomaMilano : Candidate :=
  candidate
    (Components.mk (Some "Via Roma") None (Some "Milano") None None None None
       None None (Some "20100") None) 9.

(** [{road: "Via Roma", city: "Firenze", postcode: "50100"}], confidence 8. *)
Definition viaRomaFirenze : Candidate :=
  candidate
    (Components.mk (Some "Via Roma") None (Some "Firenze") None None None None
       None None (Some "50100") None) 8.

(** [{road: "Via Roma", city: "Sesto Fiorentino", town: "Firenze"}],
    confidence 9. *)
Definition viaRomaSesto : Candidate :=
  candidate
    (Components.mk (Some "Via Roma") None (Some "Sesto Fiorentino")
       (Some "Firenze") None None None None None None None) 9.

(** [{city: "Roma", country_code: "it"}]: no road, no square. *)
Definition romaNoRoad (conf : Z) : Candidate :=
  candidate
    (Components.mk None None (Some "Roma") None None None None None None None
       (Some "it")) conf.

(** [{city: "Paris", country_code: "fr"}]: no road, no square. *)
Definition parisNoRoad (conf : Z) : Candidate :=
  candidate
    (Components.mk None None (Some "Paris") None None None None None None None
       (Some "fr")) conf.

(** [{city: "Firenze", county: county, postcode: postcode,
    country_code: "it"}]: no road, no square. *)
Definition firenzeNoRoad (county postcode : option string) (conf : Z)
    : Candidate :=
  candidate
    (Components.mk None None (Some "Firenze") None None None county None None
       postcode (Some "it")) conf.

(** [checkKnownMismatches] with every returned boolean negated. *)
Definition negatedLookup (a b c : string) : Exc bool :=
  match checkKnownMismatches a b c with
  | Ret answer => Ret (negb answer)
  | Throw m => Throw m
  end.

End Sample.

(** * Further definitions *)

(** ** The edit distance that levenshteinDistance tabulates *)

Definition indicator (x y : ascii) : nat :=
  if Ascii.eqb x y then 0%nat else 1%nat.

(** The unit-cost edit distance by its recurrence: [editDistance a b] with
    [a] and [b] the characters of two prefixes, last character first. *)
Fixpoint editDistance (a b : list ascii) {struct a} : nat :=
  match a with
  | [] => length b
  | x :: a' =>
      (fix against (b0 : list ascii) : nat :=
         match b0 with
         | [] => length a
         | y :: b' =>
             Nat.min (Nat.min (editDistance a' b0 + 1) (against b' + 1))
                     (editDistance a' b' + indicator x y)
         end) b
  end.

(** The characters of a string, last character first. *)
Definition reversedChars (s : string) : list ascii :=
  rev (list_ascii_of_string s).

(** The cells [matrix[j][i+1..]] as the recurrence gives them: [p] holds
    the characters of [str1] before column [i+1], last first, [q] the
    remaining ones and [rb] the first [j] characters of [str2], last
    first. *)
Fixpoint prefixDistances (p : list ascii) (q : string) (rb : list ascii)
    : list nat :=
  match q with
  | EmptyString => []
  | String c q' => editDistance (c :: p) rb :: prefixDistances (c :: p) q' rb
  end.
(** ** Vocabulary of the further properties *)

(** The candidate [r] with another confidence. *)
Definition withConfidence (g : Candidate -> Z) (r : Candidate) : Candidate :=
  {| components := components r; confidence := g r;
     formatted := formatted r; geometry := geometry r |}.

(** The city that [validateAddressMatch] and the scoring loop read off a
    components bag: [city || town || village || '']. *)
Definition geocodedCityOf (c : Components.t) : string :=
  firstTruthy [Components.city c; Components.town c; Components.village c].

(** The test that sends a candidate to the non-Italian arm of the loop. *)
Definition isForeign (c : Components.t) : bool :=
  truthy (Components.country_code c)
  && negb (String.eqb (JS.toLowerCase (orEmpty (Components.country_code c))) "it").

Module MoreSamples.

(** [{country_code: "fr"}]: no city, no road. *)
Definition franceOnly (conf : Z) : Candidate :=
  Sample.candidate
    (Components.mk None None None None None None None None None None
       (Some "fr")) conf.

(** [{city: "Roma", country_code: "IT"}]: the country code in capitals. *)
Definition romaUpperCode (conf : Z) : Candidate :=
  Sample.candidate
    (Components.mk None None (Some "Roma") None None None None None None None
       (Some "IT")) conf.

End MoreSamples.
(** Whether the character [c] occurs in [s]. *)
Fixpoint hasChar (c : ascii) (s : string) : bool :=
  match s with
  | EmptyString => false
  | String x s' => Ascii.eqb x c || hasChar c s'
  end.

(** The street segment as the first block of [parseAddress] leaves it. *)
Definition normalizedStreet (street : string) : string :=
  match normalizeStreet [street] with
  | s :: _ => s
  | [] => street
  end.
(** Whether a string holds white space only. *)
Fixpoint allSpace (s : string) : bool :=
  match s with
  | EmptyString => true
  | String c s' => JS.isSpace c && allSpace s'
  end.
(** ** The query and the error handler of geocode *)

(** The first block of [geocode]: the address sent to the provider, with
    the second of two leading road-type words of the street removed. *)
Definition addressForQuery (address : string) : string :=
  match JS.splitChar "," address with
  | [] => address
  | first :: rest =>
      let street := JS.trim first in
      let streetWords := JS.splitWs street in
      let w0 := JS.toLowerCase (JS.at_ streetWords 0) in
      let w1 := JS.toLowerCase (JS.at_ streetWords 1) in
      if (2 <? length streetWords)%nat
         && JS.arrayIncludes roadTypes w0 && JS.arrayIncludes roadTypes w1
      then JS.join ", " (JS.join " " (JS.removeAt 1 streetWords) :: rest)
      else if (2 <? length streetWords)%nat
              && JS.arrayIncludes roadTypes w0 && String.eqb w0 w1
      then JS.join ", " (JS.join " " (JS.removeAt 0 streetWords) :: rest)
      else address
  end.


(** The parameters that [geocode] puts in the request URL, before their
    URI encoding. *)
Module GeocodeQuery.
Record t : Type := mk {
  q : string;
  countrycode : option string;
  language : option string;
  limit : nat
}.
End GeocodeQuery.


(** What [catchError] and the form's error callback read of an error: its
    [message] and its HTTP [status], each possibly undefined. *)
Module ErrorValue.
Record t : Type := mk {
  message : option string;
  status : option Z
}.
End ErrorValue.

(** [new Error(m)]. *)
Definition newError (m : string) : ErrorValue.t :=
  ErrorValue.mk (Some m) None.

(** [error.message?.startsWith(tag)], read as a condition. *)
Definition messageStartsWith (e : ErrorValue.t) (tag : string) : bool :=
  match ErrorValue.message e with
  | Some m => JS.startsWith m tag
  | None => false
  end.

Definition statusIs (e : ErrorValue.t) (n : Z) : bool :=
  match ErrorValue.status e with
  | Some s => (s =? n)%Z
  | None => false
  end.

(** The [catchError] callback of [geocode]: the error it throws. *)
Definition catchErrorHandler (error : ErrorValue.t) : ErrorValue.t :=
  if messageStartsWith error "VALIDATION_ERROR"
     || messageStartsWith error "NO_RESULTS"
  then error
  else if statusIs error 402 then
    newError "API_ERROR: Daily API limit reached. Please try again tomorrow."
  else if statusIs error 403 then
    newError "API_ERROR: Invalid API key."
  else if match ErrorValue.status error with
          | Some s => (500 <=? s)%Z
          | None => false
          end then
    newError "API_ERROR: Service temporarily unavailable. Please try again later."
  else if statusIs error 0 then
    newError "NETWORK_ERROR: Internet connection not available."
  else
    newError "API_ERROR: Error in the geocoding service. Please try again later.".

(** The [error] callback of the address form's [onSubmit]: the text it
    shows. *)
Definition formErrorText (error : ErrorValue.t) : string :=
  let generic := "Error occurred while searching for the location." in
  match ErrorValue.message error with
  | Some m =>
      if JS.isEmpty m then generic
      else if JS.startsWith m "VALIDATION_ERROR:" then
        JS.trim (JS.substringFrom (String.length "VALIDATION_ERROR:") m)
      else if JS.startsWith m "NO_RESULTS:" then
        JS.trim (JS.substringFrom (String.length "NO_RESULTS:") m)
      else if JS.startsWith m "API_ERROR:" then
        JS.trim (JS.substringFrom (String.length "API_ERROR:") m)
      else if JS.startsWith m "NETWORK_ERROR:" then
        JS.trim (JS.substringFrom (String.length "NETWORK_ERROR:") m)
      else generic
  | None => generic
  end.

(** The error that reaches the form when the response handler of
    [geocode] threw [m]. *)
Definition errorShownFor (m : string) : string :=
  formErrorText (catchErrorHandler (newError m)).
(** Whether the last character of a string is not white space. *)
Fixpoint endsNonSpace (s : string) : bool :=
  match s with
  | EmptyString => false
  | String c s' =>
      match s' with
      | EmptyString => negb (JS.isSpace c)
      | String _ _ => endsNonSpace s'
      end
  end.

(** A string that [trim] leaves as it is. *)
Definition isTrimmed (s : string) : Prop := JS.trim s = s.

(** ** The address form that calls geocode *)

Module AddressForm.
Record t : Type := mk {
  italianCountryCode : string;
  roadType : string;
  roadName : string;
  city : string;
  county : string;
  postalCode : string
}.
End AddressForm.











Definition roadTypePrefix (f : AddressForm.t) : string :=
  if nonEmpty (AddressForm.roadType f)
  then AddressForm.roadType f ++ " " else EmptyString.

Definition countyToUse (f : AddressForm.t) : string :=
  if nonEmpty (AddressForm.county f) && nonEmpty (AddressForm.city f)
     && String.eqb (JS.toLowerCase (JS.trim (AddressForm.county f)))
                   (JS.toLowerCase (JS.trim (AddressForm.city f)))
  then EmptyString else AddressForm.county f.

(** The address string that [onSubmit] passes to [geocode]. *)
Definition formAddress (f : AddressForm.t) : string :=
  if String.eqb (AddressForm.italianCountryCode f) "it" then
    if nonEmpty (countyToUse f) && nonEmpty (AddressForm.postalCode f) then
      roadTypePrefix f ++ AddressForm.roadName f ++ ", " ++ AddressForm.city f
      ++ ", " ++ countyToUse f ++ ", " ++ AddressForm.postalCode f
    else if nonEmpty (countyToUse f) then
      roadTypePrefix f ++ AddressForm.roadName f ++ ", " ++ AddressForm.city f
      ++ ", " ++ countyToUse f
    else if nonEmpty (AddressForm.postalCode f) then
      roadTypePrefix f ++ AddressForm.roadName f ++ ", " ++ AddressForm.city f
      ++ ", " ++ AddressForm.postalCode f
    else
      roadTypePrefix f ++ AddressForm.roadName f ++ ", " ++ AddressForm.city f
  else if nonEmpty (AddressForm.county f) then
    AddressForm.roadName f ++ ", " ++ AddressForm.city f ++ ", "
    ++ AddressForm.county f ++ ", " ++ AddressForm.postalCode f
  else
    AddressForm.roadName f ++ ", " ++ AddressForm.city f ++ ", "
    ++ AddressForm.postalCode f.


Module FormSamples.

Definition viaRomaFirenze : AddressForm.t :=
  AddressForm.mk "it" "Via" "Roma" "Firenze" "FI" "50100".


End FormSamples.

(** ** The candidates as objects of a store *)

(** [findBestResult] receives a reference to the array [results], whose
    elements are references to the provider's result objects, and it
    returns one of these references. The arrays that it builds
    ([filteredResults], [roadMatches], [validationErrors], [validResults],
    [highConfidenceResults]) hold references to the same objects, and
    [push] and [sort] update an array in place. The definitions of this
    section run the function on a store in which all these objects live, so
    that what a call writes, and where, can be stated.

    The statements of [findBestResult] that write are the calls of
    [validationErrors.push], the call of [validResults.push] and the call
    of [validResults.sort]; [filter] and the object literal
    [{ result, score }] create objects. [parseAddress], [stripRoadType],
    [fuzzyMatch], [validateAddressMatch] and [checkKnownMismatches] receive
    strings and the property values of one candidate and assign to none of
    them (the [splice] and the indexed assignment of [parseAddress] act on
    the array that [split] made from the address), so they are applied to
    the record read from the store. *)

Definition Loc : Type := nat.

(** The objects of the store: a provider result with its [components],
    [confidence], [formatted] and [geometry]; an array of references; an
    array of strings; an entry [{ result, score }] of [validResults]. *)
Inductive Cell : Type :=
| CandidateCell (record : Candidate)
| RefArray (items : list Loc)
| StringArray (items : list string)
| ScoredCell (resultRef : Loc) (scoreValue : Z).

Definition Heap : Type := list Cell.

(** How a computation on the store ends: with a value, with a thrown
    [Error] and its message, or on a reference that does not hold the kind
    of object that the statement reads. *)
Inductive Res (A : Type) : Type :=
| Done (value : A)
| Raised (message : string)
| Stuck.

Arguments Done {A} value.
Arguments Raised {A} message.
Arguments Stuck {A}.

Definition Run (A : Type) : Type := Heap -> Heap * Res A.

Definition ret {A : Type} (a : A) : Run A := fun h => (h, Done a).

Definition bindRun {A B : Type} (m : Run A) (k : A -> Run B) : Run B :=
  fun h =>
    match m h with
    | (h', Done a) => k a h'
    | (h', Raised e) => (h', Raised e)
    | (h', Stuck) => (h', Stuck)
    end.

Notation "x <- m ;; k" := (bindRun m (fun x => k))
  (at level 61, m at next level, right associativity).

Definition raise {A : Type} (message : string) : Run A :=
  fun h => (h, Raised message).

Definition stuck {A : Type} : Run A := fun h => (h, Stuck).

(** [try { body } catch (e) { handler(e.message) }]: the handler runs on
    the store as the body left it. *)
Definition tryCatch {A : Type} (body : Run A) (handler : string -> Run A)
    : Run A :=
  fun h =>
    match body h with
    | (h', Raised e) => handler e h'
    | other => other
    end.

(** A call of a function that reads strings and property values only. *)
Definition liftExc {A : Type} (e : Exc A) : Run A :=
  match e with
  | Ret a => ret a
  | Throw m => raise m
  end.

(** *** Reading and writing the store *)

Fixpoint update (l : Loc) (c : Cell) (h : Heap) : Heap :=
  match h, l with
  | [], _ => []
  | _ :: rest, O => c :: rest
  | x :: rest, S l' => x :: update l' c rest
  end.

(** A new object: it is placed after all the objects of the store. *)
Definition alloc (c : Cell) : Run Loc :=
  fun h => ((h ++ [c])%list, Done (length h)).

Definition load (l : Loc) : Run Cell :=
  fun h =>
    match nth_error h l with
    | Some c => (h, Done c)
    | None => (h, Stuck)
    end.

(** An assignment to the object at [l], whatever object that is. *)
Definition store (l : Loc) (c : Cell) : Run unit :=
  fun h =>
    if (l <? length h)%nat then (update l c h, Done tt) else (h, Stuck).

Definition readCandidate (l : Loc) : Run Candidate :=
  c <- load l ;;
  match c with CandidateCell r => ret r | _ => stuck end.

Definition readRefs (l : Loc) : Run (list Loc) :=
  c <- load l ;;
  match c with RefArray items => ret items | _ => stuck end.

Definition readStrings (l : Loc) : Run (list string) :=
  c <- load l ;;
  match c with StringArray items => ret items | _ => stuck end.

Definition readScored (l : Loc) : Run (Loc * Z) :=
  c <- load l ;;
  match c with ScoredCell r s => ret (r, s) | _ => stuck end.

(** [array.push(x)] on an array of references and on an array of
    strings. *)
Definition pushRef (array : Loc) (x : Loc) : Run unit :=
  items <- readRefs array ;;
  store array (RefArray (items ++ [x])).

Definition pushString (array : Loc) (s : string) : Run unit :=
  items <- readStrings array ;;
  store array (StringArray (items ++ [s])).

(** The callbacks of [filter] and [find] read a property of the element. *)
Definition testCandidate (p : Candidate -> bool) (l : Loc) : Run bool :=
  r <- readCandidate l ;;
  ret (p r).

Fixpoint filterM (p : Loc -> Run bool) (ls : list Loc) : Run (list Loc) :=
  match ls with
  | [] => ret []
  | l :: rest =>
      keep <- p l ;;
      kept <- filterM p rest ;;
      ret (if (keep : bool) then l :: kept else kept)
  end.

Fixpoint findM (p : Loc -> Run bool) (ls : list Loc) : Run (option Loc) :=
  match ls with
  | [] => ret None
  | l :: rest =>
      found <- p l ;;
      if (found : bool) then ret (Some l) else findM p rest
  end.

(** [array.filter(p)]: a new array with the references that pass. *)
Definition filterRefs (p : Candidate -> bool) (array : Loc) : Run Loc :=
  items <- readRefs array ;;
  kept <- filterM (testCandidate p) items ;;
  alloc (RefArray kept).

(** [array.find(p)]: the first reference that passes. *)
Definition findRef (p : Candidate -> bool) (array : Loc) : Run (option Loc) :=
  items <- readRefs array ;;
  findM (testCandidate p) items.

Fixpoint forEach (body : Loc -> Run unit) (ls : list Loc) : Run unit :=
  match ls with
  | [] => ret tt
  | l :: rest => _ <- body l ;; forEach body rest
  end.

(** The stable sort by descending score of entries that carry their
    score. *)
Fixpoint insertDescending {A : Type} (x : A * Z) (sorted : list (A * Z))
    : list (A * Z) :=
  match sorted with
  | [] => [x]
  | y :: rest =>
      if (snd y - snd x <=? 0)%Z then x :: y :: rest
      else y :: insertDescending x rest
  end.

Fixpoint sortDescending {A : Type} (xs : list (A * Z)) : list (A * Z) :=
  match xs with
  | [] => []
  | x :: rest => insertDescending x (sortDescending rest)
  end.

Fixpoint readScores (ls : list Loc) : Run (list (Loc * Z)) :=
  match ls with
  | [] => ret []
  | l :: rest =>
      entry <- readScored l ;;
      entries <- readScores rest ;;
      ret ((l, snd entry) :: entries)
  end.

(** [array.sort((a, b) => b.score - a.score)]: the array is reordered in
    place. *)
Definition sortByScoreInPlace (array : Loc) : Run unit :=
  items <- readRefs array ;;
  keyed <- readScores items ;;
  store array (RefArray (map fst (sortDescending keyed))).

(** *** findBestResult on the store *)

Section OnStore.

Variable known : string -> string -> string -> Exc bool.

(** The statements inside [if (results && results.length > 0)]:
    [Some l] is [return] of the reference [l], [None] the fall-through to
    the scoring loop. *)
Definition selectionBranchesM (results : Loc) (addressParts : AddressParts.t)
    : Run (option Loc) :=
  filteredResults <- filterRefs hasRoadOrSquare results ;;
  if nonEmpty (AddressParts.postcode addressParts) then
    exactPostcodeAndRoad <-
      (if nonEmpty (AddressParts.street addressParts)
       then findRef (postcodeAndRoadMatch addressParts) filteredResults
       else ret None) ;;
    match exactPostcodeAndRoad with
    | Some l => ret (Some l)
    | None =>
        exactPostcode <- findRef (postcodeMatch addressParts) filteredResults ;;
        match exactPostcode with
        | Some l => ret (Some l)
        | None =>
            raise (msgNoPostcodeResult (AddressParts.postcode addressParts))
        end
    end
  else if nonEmpty (AddressParts.street addressParts) then
    let inputStreetStripped := stripRoadType (AddressParts.street addressParts) in
    if nonEmpty (AddressParts.city addressParts) then
      roadAndCityMatch <-
        findRef (roadAndCityMatches inputStreetStripped
                   (AddressParts.city addressParts)) filteredResults ;;
      match roadAndCityMatch with
      | Some l => ret (Some l)
      | None =>
          roadMatchList <-
            filterRefs (roadMatches inputStreetStripped) filteredResults ;;
          matched <- readRefs roadMatchList ;;
          suggestion <-
            match matched with
            | [] => ret EmptyString
            | first :: _ =>
                r <- readCandidate first ;;
                ret (citySuggestion addressParts [r])
            end ;;
          let postcodeSuggestion :=
            if JS.isEmpty (AddressParts.postcode addressParts)
            then " Try adding a postcode to improve accuracy."
            else EmptyString in
          raise (msgNoStreetCity (AddressParts.street addressParts)
                   (AddressParts.city addressParts)
                   suggestion postcodeSuggestion)
      end
    else
      roadMatch <- findRef (roadMatches inputStreetStripped) filteredResults ;;
      match roadMatch with
      | Some l => ret (Some l)
      | None => raise (msgNoStreet (AddressParts.street addressParts))
      end
  else
    filtered <- readRefs filteredResults ;;
    match filtered with
    | first :: _ => ret (Some first)
    | [] => ret None
    end.

(** [validResults.push({ result, score: matchScore + result.confidence })] *)
Definition pushScored (validResults result : Loc) (matchScore : Z) : Run unit :=
  r <- readCandidate result ;;
  entry <- alloc (ScoredCell result (matchScore + confidence r)) ;;
  pushRef validResults entry.

(** The body of the [try] block of the Italian arm: [Some s] when it sets
    [isValid] with match score [s]. *)
Definition italianBlock (addressParts : AddressParts.t) (validationErrors : Loc)
    (c : Components.t) : Run (option Z) :=
  let geocodedCity :=
    firstTruthy [Components.city c; Components.town c; Components.village c] in
  let geocodedProvince := orEmpty (Components.county c) in
  let inputCity := AddressParts.city addressParts in
  let inputProvince := orEmpty (AddressParts.province addressParts) in
  valid <- liftExc (validateAddressMatchWith known c addressParts) ;;
  if (valid : bool) then
    let s1 := if fuzzyMatch geocodedCity inputCity then 1 else 0 in
    let s2 := if truthy (AddressParts.province addressParts)
                 && fuzzyMatch geocodedProvince inputProvince
              then 1 else 0 in
    let s3 := if nonEmpty (AddressParts.postcode addressParts)
                 && isTruthyAndEq (Components.postcode c)
                      (AddressParts.postcode addressParts)
              then 1 else 0 in
    ret (Some (s1 + s2 + s3))
  else
    _ <- (if nonEmpty geocodedCity && nonEmpty inputCity
             && negb (fuzzyMatch geocodedCity inputCity)
          then pushString validationErrors
                 (msgMismatch "City" geocodedCity inputCity)
          else ret tt) ;;
    if truthy (AddressParts.province addressParts)
       && nonEmpty geocodedProvince
       && negb (fuzzyMatch geocodedProvince inputProvince)
    then
      knownMismatch <- liftExc (known geocodedCity inputProvince geocodedProvince) ;;
      _ <- (if (knownMismatch : bool)
            then pushString validationErrors
                   (msgInvalidCombination inputCity inputProvince)
            else pushString validationErrors
                   (msgMismatch "Province" geocodedProvince inputProvince)) ;;
      ret None
    else ret None.

(** One iteration of [for (const result of results)]. *)
Definition scoreBody (addressParts : AddressParts.t)
    (validationErrors validResults result : Loc) : Run unit :=
  r <- readCandidate result ;;
  if (confidence r <? 9)%Z
  then pushString validationErrors (msgLowConfidence (confidence r))
  else if isForeign (components r) then
    match scoreForeign addressParts (components r) with
    | inl diagnostic => pushString validationErrors diagnostic
    | inr matchScore => pushScored validResults result matchScore
    end
  else
    isValid <-
      tryCatch (italianBlock addressParts validationErrors (components r))
        (fun message => _ <- pushString validationErrors message ;; ret None) ;;
    match isValid with
    | Some matchScore => pushScored validResults result matchScore
    | None => ret tt
    end.

(** The statements after the [if]: the two new arrays, the loop, the sort
    and the three ways out. *)
Definition scoringFallbackM (results : Loc) (addressParts : AddressParts.t)
    : Run (option Loc) :=
  validationErrors <- alloc (StringArray []) ;;
  validResults <- alloc (RefArray []) ;;
  items <- readRefs results ;;
  _ <- forEach (scoreBody addressParts validationErrors validResults) items ;;
  scored <- readRefs validResults ;;
  match scored with
  | _ :: _ =>
      _ <- sortByScoreInPlace validResults ;;
      sorted <- readRefs validResults ;;
      match sorted with
      | best :: _ => entry <- readScored best ;; ret (Some (fst entry))
      | [] => stuck
      end
  | [] =>
      errors <- readStrings validationErrors ;;
      match errors with
      | errorDetail :: _ => raise (msgFirstDiagnostic errorDetail)
      | [] =>
          highConfidenceResults <-
            filterRefs (fun r => (8 <=? confidence r)%Z) results ;;
          high <- readRefs highConfidenceResults ;;
          match high with
          | first :: _ => ret (Some first)
          | [] => ret None
          end
      end
  end.

Definition findBestResultM (results : Loc) (originalAddress : string)
    : Run (option Loc) :=
  let addressParts := parseAddress originalAddress in
  items <- readRefs results ;;
  early <-
    match items with
    | [] => ret None
    | _ :: _ => selectionBranchesM results addressParts
    end ;;
  match early with
  | Some l => ret (Some l)
  | None => scoringFallbackM results addressParts
  end.

End OnStore.

(** *** What a call computes from the references and their records *)

Section OverReferences.

(** [T] stands for the references and [cand t] for the record that the
    reference [t] holds. *)
Variable T : Type.
Variable cand : T -> Candidate.
Variable known : string -> string -> string -> Exc bool.

Definition onRecord (p : Candidate -> bool) (t : T) : bool := p (cand t).

Definition selectionBranchesOn (results : list T)
    (addressParts : AddressParts.t) : option (Exc (option T)) :=
  let filteredResults := filter (onRecord hasRoadOrSquare) results in
  if nonEmpty (AddressParts.postcode addressParts) then
    match (if nonEmpty (AddressParts.street addressParts)
           then find (onRecord (postcodeAndRoadMatch addressParts))
                  filteredResults
           else None) with
    | Some exactPostcodeAndRoad => Some (Ret (Some exactPostcodeAndRoad))
    | None =>
        match find (onRecord (postcodeMatch addressParts)) filteredResults with
        | Some exactPostcode => Some (Ret (Some exactPostcode))
        | None =>
            Some (Throw (msgNoPostcodeResult (AddressParts.postcode addressParts)))
        end
    end
  else if nonEmpty (AddressParts.street addressParts) then
    let inputStreetStripped := stripRoadType (AddressParts.street addressParts) in
    if nonEmpty (AddressParts.city addressParts) then
      match find (onRecord (roadAndCityMatches inputStreetStripped
                              (AddressParts.city addressParts)))
              filteredResults with
      | Some roadAndCityMatch => Some (Ret (Some roadAndCityMatch))
      | None =>
          let suggestion :=
            match filter (onRecord (roadMatches inputStreetStripped))
                    filteredResults with
            | [] => EmptyString
            | first :: _ => citySuggestion addressParts [cand first]
            end in
          let postcodeSuggestion :=
            if JS.isEmpty (AddressParts.postcode addressParts)
            then " Try adding a postcode to improve accuracy."
            else EmptyString in
          Some (Throw (msgNoStreetCity (AddressParts.street addressParts)
                         (AddressParts.city addressParts)
                         suggestion postcodeSuggestion))
      end
    else
      match find (onRecord (roadMatches inputStreetStripped)) filteredResults with
      | Some roadMatch => Some (Ret (Some roadMatch))
      | None => Some (Throw (msgNoStreet (AddressParts.street addressParts)))
      end
  else
    match filteredResults with
    | first :: _ => Some (Ret (Some first))
    | [] => None
    end.

(** The diagnostics and the scored references after one more iteration. *)
Definition scoreStepOn (addressParts : AddressParts.t)
    (st : list string * list (T * Z)) (t : T) : list string * list (T * Z) :=
  let r := cand t in
  if (confidence r <? 9)%Z
  then ((fst st ++ [msgLowConfidence (confidence r)])%list, snd st)
  else if isForeign (components r) then
    match scoreForeign addressParts (components r) with
    | inl diagnostic => ((fst st ++ [diagnostic])%list, snd st)
    | inr matchScore =>
        (fst st, (snd st ++ [(t, matchScore + confidence r)])%list)
    end
  else
    match italianTry known addressParts (components r) (fst st) with
    | (errs, Ret (Some matchScore)) =>
        (errs, (snd st ++ [(t, matchScore + confidence r)])%list)
    | (errs, Ret None) => (errs, snd st)
    | (errs, Throw m) => ((errs ++ [m])%list, snd st)
    end.

Definition concludeOn (st : list string * list (T * Z)) (results : list T)
    : Exc (option T) :=
  match sortDescending (snd st) with
  | best :: _ => Ret (Some (fst best))
  | [] =>
      match fst st with
      | errorDetail :: _ => Throw (msgFirstDiagnostic errorDetail)
      | [] =>
          match filter (onRecord (fun r => (8 <=? confidence r)%Z)) results with
          | first :: _ => Ret (Some first)
          | [] => Ret None
          end
      end
  end.

Definition findBestResultOn (results : list T) (originalAddress : string)
    : Exc (option T) :=
  let addressParts := parseAddress originalAddress in
  match (match results with
         | [] => None
         | _ :: _ => selectionBranchesOn results addressParts
         end) with
  | Some outcome => outcome
  | None =>
      concludeOn (fold_left (scoreStepOn addressParts) results ([], [])) results
  end.

End OverReferences.

(** The array at [array] holds the references [map fst refs], and each
    reference holds the record paired with it. *)
Definition holdsArray (h : Heap) (array : Loc) (refs : list (Loc * Candidate))
    : Prop :=
  nth_error h array = Some (RefArray (map fst refs))
  /\ Forall (fun p => nth_error h (fst p) = Some (CandidateCell (snd p))) refs.

(** The outcome of a call as the caller sees it. *)
Definition outcomeOf (o : Exc (option (Loc * Candidate))) : Res (option Loc) :=
  match o with
  | Ret x => Done (option_map fst x)
  | Throw m => Raised m
  end.

(** A store with the two sample candidates and the array of their
    references. *)
Definition sampleHeap : Heap :=
  [CandidateCell Sample.viaRomaMilano; CandidateCell Sample.viaRomaFirenze;
   RefArray [0%nat; 1%nat]].

Arguments onRecord {T} cand p t.
Arguments selectionBranchesOn {T} cand results addressParts.
Arguments scoreStepOn {T} cand known addressParts st t.
Arguments concludeOn {T} cand st results.
Arguments findBestResultOn {T} cand known results originalAddress.

(** The object that an entry of the scored references stands for. *)
Definition scoredCellOf (e : (Loc * Candidate) * Z) : Cell :=
  ScoredCell (fst (fst e)) (snd e).

(** The store while the scoring loop runs: the objects [before] the loop,
    then [validationErrors], [validResults] and the entries pushed so
    far. *)
Definition loopHeap (before : Heap) (errs : list string)
    (entries : list ((Loc * Candidate) * Z)) : Heap :=
  (before
   ++ StringArray errs
      :: RefArray (seq (length before + 2) (length entries))
      :: map scoredCellOf entries)%list.

(** The entries with the references of their objects, the first one
    at [base]. *)
Fixpoint tagged {A : Type} (base : nat) (entries : list (A * Z))
    : list ((Loc * A) * Z) :=
  match entries with
  | [] => []
  | e :: rest => ((base, fst e), snd e) :: tagged (S base) rest
  end.

Definition onFirst {A B : Type} (f : A -> B) (x : A * Z) : B * Z :=
  (f (fst x), snd x).

Definition endOfTry (o : Exc (option Z)) : Res (option Z) :=
  match o with
  | Ret x => Done x
  | Throw m => Raised m
  end.

(** From the references to their records. *)
Definition toScored {T : Type} (cand : T -> Candidate) (e : T * Z) : Scored :=
  {| result := cand (fst e); score := snd e |}.

Definition toLoopState {T : Type} (cand : T -> Candidate)
    (st : list string * list (T * Z)) : LoopState :=
  {| validationErrors := fst st; validResults := map (toScored cand) (snd st) |}.

Definition toRecord {T : Type} (cand : T -> Candidate) (o : Exc (option T))
    : Exc (option Candidate) :=
  match o with
  | Ret x => Ret (option_map cand x)
  | Throw m => Throw m
  end.

Definition sampleRefs : list (Loc * Candidate) :=
  [(0%nat, Sample.viaRomaMilano); (1%nat, Sample.viaRomaFirenze)].

(** A store with two candidates without a road, both Italian and in Roma,
    of confidence 9 and 10, and the array of their references. *)
Definition romaHeap : Heap :=
  [CandidateCell (Sample.romaNoRoad 9); CandidateCell (Sample.romaNoRoad 10);
   RefArray [0%nat; 1%nat]].

(** * Properties *)

(** ** Evaluations named by the specification *)

Example fuzzyMatch_case_insensitive : fuzzyMatch "Via Roma" "via roma" = true.
Proof. reflexivity. Qed.

Example levenshtein_same : levenshteinDistance "roma" "roma" = 0%nat.
Proof. reflexivity. Qed.

Example levenshtein_one : levenshteinDistance "roma" "ropa" = 1%nat.
Proof. reflexivity. Qed.

Example levenshtein_three : levenshteinDistance "kitten" "sitting" = 3%nat.
Proof. reflexivity. Qed.

Example stripRoadType_via : stripRoadType "Via Roma" = "roma".
Proof. reflexivity. Qed.

Example stripRoadType_plain : stripRoadType "Roma" = "roma".
Proof. reflexivity. Qed.

Example splitWs_keeps_empty_ends :
  JS.splitWs " a  b " = [EmptyString; "a"; "b"; EmptyString].
Proof. reflexivity. Qed.

Example matchPostcode_needs_boundaries :
  JS.matchPostcode "cap 50100x 201000 20100" = Some "20100".
Proof. reflexivity. Qed.

(** ** Strings *)

Lemma isEmpty_false_iff (s : string) : JS.isEmpty s = false <-> s <> EmptyString.
Proof.
  destruct s; simpl; split; intro H; congruence.
Qed.

Lemma splitWs_aux_nonempty (s : string) :
  forall inRun cur, (1 <= length (JS.splitWs_aux inRun cur s))%nat.
Proof.
  induction s as [|c s IH]; intros inRun cur; simpl.
  - lia.
  - destruct (JS.isSpace c).
    + destruct inRun; simpl; [apply IH | lia].
    + apply IH.
Qed.

Lemma splitWs_aux_two_pieces (s : string) :
  forall cur, hasSpace s = true ->
              (2 <= length (JS.splitWs_aux false cur s))%nat.
Proof.
  induction s as [|c s IH]; intros cur H; simpl in *.
  - discriminate.
  - destruct (JS.isSpace c); simpl in *.
    + pose proof (splitWs_aux_nonempty s true EmptyString). lia.
    + now apply IH.
Qed.

Lemma startsWith_space_hasSpace (p : string) :
  forall s, JS.startsWith s (p ++ " ") = true -> hasSpace s = true.
Proof.
  induction p as [|a p IH]; intros [|b s] H;
    cbn [append JS.startsWith] in H; try discriminate.
  - apply andb_true_iff in H as [H _].
    apply Ascii.eqb_eq in H. subst b. reflexivity.
  - apply andb_true_iff in H as [_ H].
    cbn [hasSpace]. rewrite (IH _ H). apply orb_true_r.
Qed.

(** C2, as the code has it: [fuzzyMatch] accepts a pair whenever the first
    string, lower-cased and trimmed and followed by a space, is a prefix of
    the second, whatever the two word counts; so
    [fuzzyMatch "Monterotondo" "Monterotondo Marittimo"] is [true]. *)
Theorem fuzzyMatch_accepts_word_boundary_prefix (str1 str2 : string) :
  str1 <> EmptyString -> str2 <> EmptyString ->
  JS.startsWith (normalized str2) (normalized str1 ++ " ") = true ->
  fuzzyMatch str1 str2 = true.
Proof.
  intros H1 H2 Hpre.
  unfold fuzzyMatch.
  apply isEmpty_false_iff in H1, H2. rewrite H1, H2. simpl.
  fold (normalized str1) (normalized str2).
  destruct (String.eqb (normalized str1) (normalized str2)); [reflexivity|].
  match goal with |- (if ?c then _ else _) = _ => destruct c end; [reflexivity|].
  rewrite Hpre. simpl.
  assert (Hlen : (1 <? length (JS.splitWs (normalized str2)))%nat = true).
  { apply Nat.ltb_lt.
    pose proof (splitWs_aux_two_pieces (normalized str2) EmptyString
                  (startsWith_space_hasSpace _ _ Hpre)).
    unfold JS.splitWs. lia. }
  rewrite Hlen, orb_true_r. reflexivity.
Qed.

Lemma fuzzyMatch_monterotondo_witness :
  "Monterotondo" <> EmptyString /\ "Monterotondo Marittimo" <> EmptyString /\
  fuzzyMatch "Monterotondo" "Monterotondo Marittimo" = true.
Proof.
  split; [discriminate|]. split; [discriminate|].
  apply fuzzyMatch_accepts_word_boundary_prefix;
    [discriminate | discriminate | reflexivity].
Defined.
(** C2 fails as stated: the single-word input is accepted against the
    two-word candidate of which it is a word-boundary prefix. *)
Lemma fuzzyMatch_monterotondo_is_true :
  fuzzyMatch "Monterotondo" "Monterotondo Marittimo" = true
  /\ fuzzyMatch "Monterotondo" "Monterotondo Marittimo" <> false.
Proof. split; [reflexivity | discriminate]. Qed.

(** ** Lists *)

Lemma find_filter_some {A : Type} (f g : A -> bool) (l : list A) (x : A) :
  find f (filter g l) = Some x -> In x l /\ g x = true /\ f x = true.
Proof.
  intro H. apply find_some in H as [Hin Hf].
  apply filter_In in Hin as [Hin Hg]. auto.
Qed.

Lemma filter_head {A : Type} (g : A -> bool) (l : list A) (x : A) (t : list A) :
  filter g l = x :: t -> In x l /\ g x = true.
Proof.
  intro H. apply filter_In. rewrite H. now left.
Qed.

Lemma find_exists_some {A : Type} (f : A -> bool) (l : list A) (x : A) :
  In x l -> f x = true -> exists y, find f l = Some y.
Proof.
  intros Hin Hf. destruct (find f l) as [y|] eqn:E.
  - now exists y.
  - rewrite (find_none f l E x Hin) in Hf. discriminate.
Qed.

(** ** The sort of the scored candidates *)

Lemma insertByScore_In (x y : Scored) (l : list Scored) :
  In y (insertByScore x l) <-> y = x \/ In y l.
Proof.
  induction l as [|z l IH]; simpl.
  - intuition.
  - destruct (score z - score x <=? 0); simpl; [intuition|].
    rewrite IH. intuition.
Qed.

Lemma sortByScore_In (y : Scored) (l : list Scored) :
  In y (sortByScore l) <-> In y l.
Proof.
  induction l as [|x l IH]; simpl; [tauto|].
  rewrite insertByScore_In, IH. intuition.
Qed.

Lemma sortByScore_nil (l : list Scored) : sortByScore l = [] -> l = [].
Proof.
  destruct l as [|x l]; [reflexivity|]. intro H.
  assert (Hin : In x (sortByScore (x :: l))) by (apply sortByScore_In; now left).
  rewrite H in Hin. destruct Hin.
Qed.

(** ** The scoring loop *)

Section ScoringLoop.

Variable known : string -> string -> string -> Exc bool.
Variable addressParts : AddressParts.t.

Lemma scoreStep_low_confidence (st : LoopState) (r : Candidate) :
  confidence r < 9 ->
  scoreStep known addressParts st r = pushError st (msgLowConfidence (confidence r)).
Proof.
  intro H. unfold scoreStep. apply Z.ltb_lt in H. now rewrite H.
Qed.

Lemma italianTry_errors_grow (c : Components.t) (errs : list string) :
  exists suffix,
    fst (italianTry known addressParts c errs) = (errs ++ suffix)%list.
Proof.
  unfold italianTry.
  destruct (validateAddressMatchWith known c addressParts) as [[|]|m]; simpl.
  - exists []. now rewrite app_nil_r.
  - repeat match goal with
           | |- context [if ?b then _ else _] => destruct b
           | |- context [match known ?a ?b ?c with _ => _ end] =>
               destruct (known a b c) as [[|]|]
           end; simpl;
      rewrite <- ?app_assoc; eexists; try reflexivity;
      symmetry; apply app_nil_r.
  - exists []. now rewrite app_nil_r.
Qed.

(** A step leaves the collected diagnostics in place and adds at most the
    candidate it looked at to the valid ones. *)
Lemma scoreStep_shape (st : LoopState) (r : Candidate) :
  (exists suffix,
      validationErrors (scoreStep known addressParts st r)
      = (validationErrors st ++ suffix)%list)
  /\ (validResults (scoreStep known addressParts st r) = validResults st
      \/ exists s, validResults (scoreStep known addressParts st r)
                   = (validResults st ++ [{| result := r; score := s |}])%list).
Proof.
  unfold scoreStep.
  destruct (confidence r <? 9).
  { split; [eexists; reflexivity | now left]. }
  destruct (truthy _ && _).
  { destruct (scoreForeign addressParts (components r)); simpl.
    - split; [eexists; reflexivity | now left].
    - split; [exists []; now rewrite app_nil_r | right; eexists; reflexivity]. }
  destruct (italianTry_errors_grow (components r) (validationErrors st))
    as [suffix Hs].
  destruct (italianTry known addressParts (components r) (validationErrors st))
    as [errs [[ms|]|m]]; simpl in *; subst errs.
  - split; [now exists suffix | right; eexists; reflexivity].
  - split; [now exists suffix | now left].
  - split; [|now left].
    exists (suffix ++ [m])%list. now rewrite app_assoc.
Qed.

Lemma fold_scoreStep_errors_grow (rs : list Candidate) :
  forall st, exists suffix,
    validationErrors (fold_left (scoreStep known addressParts) rs st)
    = (validationErrors st ++ suffix)%list.
Proof.
  induction rs as [|r rs IH]; intro st; simpl.
  - exists []. now rewrite app_nil_r.
  - destruct (IH (scoreStep known addressParts st r)) as [s2 H2].
    destruct (scoreStep_shape st r) as [[s1 H1] _].
    exists (s1 ++ s2)%list. now rewrite H2, H1, app_assoc.
Qed.

Lemma fold_scoreStep_valid_from (rs : list Candidate) :
  forall st v,
    In v (validResults (fold_left (scoreStep known addressParts) rs st)) ->
    In v (validResults st) \/ In (result v) rs.
Proof.
  induction rs as [|r rs IH]; intros st v H; simpl in *.
  - now left.
  - apply IH in H as [H|H]; [|now right; right].
    destruct (scoreStep_shape st r) as [_ [E|[s E]]]; rewrite E in H.
    + now left.
    + apply in_app_or in H as [H|[H|[]]]; [now left|].
      subst v. right. now left.
Qed.

(** Every candidate below confidence 9 leaves a diagnostic. *)
Lemma fold_scoreStep_low_leaves_diagnostic (rs : list Candidate) :
  forall st r,
    In r rs -> confidence r < 9 ->
    validationErrors (fold_left (scoreStep known addressParts) rs st) <> [].
Proof.
  induction rs as [|r0 rs IH]; intros st r Hin Hlow; simpl in *; [easy|].
  destruct Hin as [->|Hin].
  - destruct (fold_scoreStep_errors_grow rs (scoreStep known addressParts st r))
      as [suffix E].
    rewrite E, (scoreStep_low_confidence st r Hlow). simpl.
    destruct (validationErrors st); discriminate.
  - now apply (IH _ r).
Qed.

Lemma scoringLoop_valid_In (results : list Candidate) (v : Scored) :
  In v (validResults (scoringLoop known addressParts results)) ->
  In (result v) results.
Proof.
  intro H. apply fold_scoreStep_valid_from in H as [[]|H]. exact H.
Qed.

Lemma concludeScoring_In (st : LoopState) (results : list Candidate)
    (c : Candidate) :
  (forall v, In v (validResults st) -> In (result v) results) ->
  concludeScoring st results = Ret (Some c) -> In c results.
Proof.
  intros Hv. unfold concludeScoring.
  destruct (sortByScore (validResults st)) as [|best rest] eqn:E.
  - destruct (validationErrors st); [|discriminate].
    destruct (filter _ results) as [|first rest] eqn:F; [discriminate|].
    intro H. injection H as <-. now apply filter_head in F.
  - intro H. injection H as <-. apply Hv, sortByScore_In. rewrite E. now left.
Qed.

Lemma scoringFallbackWith_In (results : list Candidate) (c : Candidate) :
  scoringFallbackWith known results addressParts = Ret (Some c) -> In c results.
Proof.
  apply concludeScoring_In. intros v. apply scoringLoop_valid_In.
Qed.

End ScoringLoop.

Lemma selectionBranches_In (results : list Candidate) (parts : AddressParts.t)
    (c : Candidate) :
  selectionBranches results parts = Some (Ret (Some c)) ->
  In c results /\ hasRoadOrSquare c = true.
Proof.
  unfold selectionBranches.
  repeat match goal with
         | |- context [match find ?f ?l with _ => _ end] =>
             destruct (find f l) eqn:?
         | |- context [match (if ?b then _ else _) with _ => _ end] =>
             destruct b eqn:?
         | |- context [if ?b then _ else _] => destruct b eqn:?
         | |- context [match filter ?f ?l with _ => _ end] =>
             destruct (filter f l) eqn:?
         end;
    intro H; try discriminate; injection H as <-;
    match goal with
    | E : find _ (filter _ _) = Some _ |- _ =>
        apply find_filter_some in E; tauto
    | E : filter _ _ = _ :: _ |- _ => apply filter_head in E; tauto
    end.
Qed.

(** ** Which candidates can be returned *)

Lemma scoringFallbackWith_nil (known : string -> string -> string -> Exc bool)
    (parts : AddressParts.t) :
  scoringFallbackWith known [] parts = Ret None.
Proof. reflexivity. Qed.

Lemma findBestResultWith_In (known : string -> string -> string -> Exc bool)
    (results : list Candidate) (addr : string) (c : Candidate) :
  findBestResultWith known results addr = Ret (Some c) -> In c results.
Proof.
  unfold findBestResultWith.
  destruct results as [|r0 rs]; [discriminate|].
  destruct (selectionBranches (r0 :: rs) (parseAddress addr)) as [o|] eqn:E.
  - intros ->. now apply selectionBranches_In in E.
  - apply scoringFallbackWith_In.
Qed.

(** The scoring loop is entered on a non-empty list only when no postcode
    and no street were parsed and no candidate has a road or a square. *)
Lemma selectionBranches_none (results : list Candidate) (parts : AddressParts.t) :
  selectionBranches results parts = None ->
  AddressParts.postcode parts = EmptyString
  /\ AddressParts.street parts = EmptyString
  /\ filter hasRoadOrSquare results = [].
Proof.
  unfold selectionBranches, nonEmpty.
  destruct (AddressParts.postcode parts) as [|a p]; simpl.
  2:{ repeat match goal with
             | |- context [match ?x with _ => _ end] => destruct x
             end; discriminate. }
  destruct (AddressParts.street parts) as [|a p]; simpl.
  2:{ repeat match goal with
             | |- context [match ?x with _ => _ end] => destruct x
             end; discriminate. }
  destruct (filter hasRoadOrSquare results); [auto | discriminate].
Qed.

(** C1, as the code has it: when the parse gives a postcode or a street,
    or when some candidate has a road or a square, the candidate that
    [findBestResult] returns is one of the list and has a road or a square.
    The scoring loop and the confidence-8 fallback, which read the unfiltered
    list, are entered only when none of the three holds. *)
Theorem findBestResult_returns_road_or_square
    (results : list Candidate) (addr : string) (c : Candidate) :
  nonEmpty (AddressParts.postcode (parseAddress addr))
  || nonEmpty (AddressParts.street (parseAddress addr))
  || existsb hasRoadOrSquare results = true ->
  findBestResult results addr = Ret (Some c) ->
  In c results /\ hasRoadOrSquare c = true.
Proof.
  intros Hcase Hret. split; [now apply findBestResultWith_In in Hret|].
  unfold findBestResult, findBestResultWith in Hret.
  destruct results as [|r0 rs]; [discriminate|].
  destruct (selectionBranches (r0 :: rs) (parseAddress addr)) as [o|] eqn:E.
  - subst o. now apply selectionBranches_In in E.
  - apply selectionBranches_none in E as (Hp & Hs & Hf).
    rewrite Hp, Hs in Hcase. cbn [nonEmpty JS.isEmpty negb orb] in Hcase.
    apply existsb_exists in Hcase as (x & Hin & Hx).
    assert (Hx' : In x (filter hasRoadOrSquare (r0 :: rs)))
      by (apply filter_In; auto).
    rewrite Hf in Hx'. destruct Hx'.
Qed.

Lemma findBestResult_returns_road_or_square_witness :
  nonEmpty (AddressParts.postcode (parseAddress "Via Roma, Firenze, 50100"))
  || nonEmpty (AddressParts.street (parseAddress "Via Roma, Firenze, 50100"))
  || existsb hasRoadOrSquare [Sample.viaRomaMilano; Sample.viaRomaFirenze] = true
  /\ findBestResult [Sample.viaRomaMilano; Sample.viaRomaFirenze]
       "Via Roma, Firenze, 50100" = Ret (Some Sample.viaRomaFirenze)
  /\ In Sample.viaRomaFirenze [Sample.viaRomaMilano; Sample.viaRomaFirenze]
  /\ hasRoadOrSquare Sample.viaRomaFirenze = true.
Proof.
  split; [reflexivity|]. split; [reflexivity|].
  apply (findBestResult_returns_road_or_square
           [Sample.viaRomaMilano; Sample.viaRomaFirenze]
           "Via Roma, Firenze, 50100"); reflexivity.
Defined.

(** C1 fails as stated: with an empty address and candidates that have
    neither road nor square, the Italian candidate is returned by the
    confidence-8 fallback and the French one by the scoring loop. *)
Lemma findBestResult_returns_candidate_without_road :
  (findBestResult [Sample.romaNoRoad 9] EmptyString
   = Ret (Some (Sample.romaNoRoad 9))
   /\ validResults (scoringLoop checkKnownMismatches (parseAddress EmptyString)
                      [Sample.romaNoRoad 9]) = []
   /\ hasRoadOrSquare (Sample.romaNoRoad 9) = false)
  /\ (findBestResult [Sample.parisNoRoad 9] EmptyString
      = Ret (Some (Sample.parisNoRoad 9))
      /\ validResults (scoringLoop checkKnownMismatches (parseAddress EmptyString)
                         [Sample.parisNoRoad 9])
         = [{| result := Sample.parisNoRoad 9; score := 9 |}]
      /\ hasRoadOrSquare (Sample.parisNoRoad 9) = false).
Proof. repeat split; reflexivity. Qed.

(** C5, as the code has it: the scoring loop drops every candidate of
    confidence below 9 with a low-confidence diagnostic before it reads the
    country code, on the Italian and on the non-Italian path alike. *)
Theorem scoreStep_discards_low_confidence
    (parts : AddressParts.t) (st : LoopState) (r : Candidate) :
  confidence r < 9 ->
  scoreStep checkKnownMismatches parts st r
  = {| validationErrors :=
         (validationErrors st ++ [msgLowConfidence (confidence r)])%list;
       validResults := validResults st |}.
Proof. apply scoreStep_low_confidence. Qed.

Lemma scoreStep_discards_low_confidence_witness :
  confidence (Sample.parisNoRoad 8) < 9
  /\ scoreStep checkKnownMismatches (parseAddress ", Paris")
       {| validationErrors := []; validResults := [] |} (Sample.parisNoRoad 8)
     = {| validationErrors := ["Low confidence (8/10)"]; validResults := [] |}.
Proof.
  split; [reflexivity|].
  apply (scoreStep_discards_low_confidence (parseAddress ", Paris")
           {| validationErrors := []; validResults := [] |}
           (Sample.parisNoRoad 8)).
  reflexivity.
Defined.

(** C5 fails as stated: a French candidate of confidence 8 whose city
    matches the input is dropped for its confidence alone, although the
    field comparison of the non-Italian path would accept it. *)
Lemma low_confidence_foreign_candidate_discarded :
  Components.country_code (components (Sample.parisNoRoad 8)) = Some "fr"
  /\ scoreForeign (parseAddress ", Paris") (components (Sample.parisNoRoad 8))
     = inr 1
  /\ selectionBranches [Sample.parisNoRoad 8] (parseAddress ", Paris") = None
  /\ scoringLoop checkKnownMismatches (parseAddress ", Paris")
       [Sample.parisNoRoad 8]
     = {| validationErrors := ["Low confidence (8/10)"]; validResults := [] |}
  /\ findBestResult [Sample.parisNoRoad 8] ", Paris"
     = Throw (msgFirstDiagnostic "Low confidence (8/10)").
Proof. repeat split; reflexivity. Qed.

(** ** Failures of the scoring fallback *)

Lemma msgFirstDiagnostic_is_validation_error (d : string) :
  JS.startsWith (msgFirstDiagnostic d) "VALIDATION_ERROR:" = true.
Proof. reflexivity. Qed.

Lemma msgFirstDiagnostic_not_no_results (d : string) :
  msgFirstDiagnostic d <> msgNoResults.
Proof. discriminate. Qed.

Lemma filter_all {A : Type} (f : A -> bool) (l : list A) :
  (forall x, In x l -> f x = true) -> filter f l = l.
Proof.
  induction l as [|x l IH]; intro H; simpl; [reflexivity|].
  rewrite (H x (or_introl eq_refl)), IH; [reflexivity|].
  intros y Hy. apply H. now right.
Qed.

(** On a non-empty list that reaches the scoring loop and leaves no scored
    candidate, [findBestResult] fails with VALIDATION_ERROR and the first
    diagnostic exactly when a diagnostic was collected; every candidate
    below confidence 9 leaves one, so without diagnostics all candidates
    have confidence 9 or more and the first of the list is returned. The
    handler of [geocode] never reports NO_RESULTS for such a list. *)
Lemma scoring_fallback_without_survivor
    (results : list Candidate) (addr : string) :
  results <> [] ->
  selectionBranches results (parseAddress addr) = None ->
  validResults (scoringLoop checkKnownMismatches (parseAddress addr) results)
  = [] ->
  (forall d rest,
      validationErrors
        (scoringLoop checkKnownMismatches (parseAddress addr) results)
      = d :: rest ->
      findBestResult results addr = Throw (msgFirstDiagnostic d)
      /\ geocodeHandler results addr = Throw (msgFirstDiagnostic d))
  /\ (validationErrors
        (scoringLoop checkKnownMismatches (parseAddress addr) results) = [] ->
      (forall c, In c results -> 9 <= confidence c)
      /\ exists first rest,
          results = first :: rest
          /\ findBestResult results addr = Ret (Some first)
          /\ geocodeHandler results addr = Ret (toLocation first))
  /\ ((exists c, In c results /\ confidence c < 9) ->
      validationErrors
        (scoringLoop checkKnownMismatches (parseAddress addr) results) <> [])
  /\ findBestResult results addr <> Ret None
  /\ geocodeHandler results addr <> Throw msgNoResults.
Proof.
  intros Hne Hfall Hvalid.
  set (loop := scoringLoop checkKnownMismatches (parseAddress addr) results) in *.
  destruct results as [|r0 rs]; [now elim Hne|].
  assert (Hfind : findBestResult (r0 :: rs) addr
                  = concludeScoring loop (r0 :: rs)).
  { unfold findBestResult, findBestResultWith. now rewrite Hfall. }
  assert (Hlow : (exists c, In c (r0 :: rs) /\ confidence c < 9) ->
                 validationErrors loop <> []).
  { intros (c & Hin & Hc).
    exact (fold_scoreStep_low_leaves_diagnostic checkKnownMismatches
             (parseAddress addr) (r0 :: rs) _ c Hin Hc). }
  assert (Hdiag : forall d rest,
             validationErrors loop = d :: rest ->
             findBestResult (r0 :: rs) addr = Throw (msgFirstDiagnostic d)).
  { intros d rest E. rewrite Hfind. unfold concludeScoring.
    now rewrite Hvalid, E. }
  assert (Hnone : validationErrors loop = [] ->
                  (forall c, In c (r0 :: rs) -> 9 <= confidence c)
                  /\ findBestResult (r0 :: rs) addr = Ret (Some r0)).
  { intro E.
    assert (Hall : forall c, In c (r0 :: rs) -> 9 <= confidence c).
    { intros c Hin. destruct (Z_lt_le_dec (confidence c) 9) as [Hc|Hc]; [|easy].
      elim (Hlow (ex_intro _ c (conj Hin Hc))). exact E. }
    split; [exact Hall|].
    rewrite Hfind. unfold concludeScoring. rewrite Hvalid, E. simpl sortByScore.
    rewrite filter_all; [reflexivity|].
    intros c Hin. apply Z.leb_le. specialize (Hall c Hin). lia. }
  repeat split.
  - now apply (Hdiag d rest).
  - unfold geocodeHandler, handleOutcome. rewrite (Hdiag d rest H).
    now rewrite msgFirstDiagnostic_is_validation_error.
  - now apply Hnone.
  - exists r0, rs. destruct (Hnone H) as [_ Hr].
    unfold geocodeHandler, handleOutcome. now rewrite Hr.
  - exact Hlow.
  - destruct (validationErrors loop) as [|d rest] eqn:E.
    + destruct (Hnone eq_refl) as [_ Hr]. rewrite Hr. discriminate.
    + rewrite (Hdiag d rest eq_refl). discriminate.
  - unfold geocodeHandler, handleOutcome.
    destruct (validationErrors loop) as [|d rest] eqn:E.
    + destruct (Hnone eq_refl) as [_ Hr]. rewrite Hr. discriminate.
    + rewrite (Hdiag d rest eq_refl), msgFirstDiagnostic_is_validation_error.
      intro H. apply (@msgFirstDiagnostic_not_no_results d).
      exact (f_equal (fun o : Exc LocationResult =>
                        match o with Throw m => m | Ret _ => EmptyString end) H).
Qed.

Lemma scoring_fallback_without_survivor_witness :
  [Sample.romaNoRoad 5] <> []
  /\ selectionBranches [Sample.romaNoRoad 5] (parseAddress EmptyString) = None
  /\ validResults (scoringLoop checkKnownMismatches (parseAddress EmptyString)
                     [Sample.romaNoRoad 5]) = []
  /\ geocodeHandler [Sample.romaNoRoad 5] EmptyString
     = Throw (msgFirstDiagnostic "Low confidence (5/10)")
  /\ geocodeHandler [Sample.romaNoRoad 5] EmptyString <> Throw msgNoResults.
Proof.
  assert (H1 : [Sample.romaNoRoad 5] <> []) by discriminate.
  assert (H2 : selectionBranches [Sample.romaNoRoad 5] (parseAddress EmptyString)
               = None) by reflexivity.
  assert (H3 : validResults (scoringLoop checkKnownMismatches
                               (parseAddress EmptyString) [Sample.romaNoRoad 5])
               = []) by reflexivity.
  destruct (scoring_fallback_without_survivor
              [Sample.romaNoRoad 5] EmptyString H1 H2 H3)
    as (Hd & _ & _ & _ & Hn).
  refine (conj H1 (conj H2 (conj H3 _))).
  exact (conj (proj2 (Hd "Low confidence (5/10)" [] eq_refl)) Hn).
Defined.

(** On a non-empty list the scoring loop cannot end with no diagnostic
    while no candidate has confidence 8 or more: a candidate below
    confidence 9 leaves the low-confidence diagnostic. The state "no
    diagnostic and no candidate of confidence 8 or more" therefore arises
    for the empty list only. *)
Lemma no_diagnostic_excludes_low_confidence
    (results : list Candidate) (addr : string) :
  results <> [] ->
  validationErrors (scoringLoop checkKnownMismatches (parseAddress addr) results)
  = [] ->
  ~ (forall c, In c results -> confidence c < 8).
Proof.
  intros Hne Herrs Hall.
  destruct results as [|r0 rs]; [now elim Hne|].
  assert (Hlow : confidence r0 < 9)
    by (specialize (Hall r0 (or_introl eq_refl)); lia).
  exact (fold_scoreStep_low_leaves_diagnostic checkKnownMismatches
           (parseAddress addr) (r0 :: rs)
           {| validationErrors := []; validResults := [] |} r0
           (or_introl eq_refl) Hlow Herrs).
Qed.

(** ** The postcode check of validateAddressMatch *)

Lemma isTruthyAndEq_Some (o : option string) (s : string) :
  isTruthyAndEq o s = true -> o = Some s.
Proof.
  unfold isTruthyAndEq. destruct o as [x|]; simpl; [|discriminate].
  intro H. apply andb_true_iff in H as [_ H].
  apply String.eqb_eq in H. now subst.
Qed.

Lemma isTruthyAndEq_intro (s : string) :
  nonEmpty s = true -> isTruthyAndEq (Some s) s = true.
Proof.
  unfold isTruthyAndEq, nonEmpty. simpl. intros ->. apply String.eqb_refl.
Qed.

Lemma setErrors_same (st : LoopState) : setErrors st (validationErrors st) = st.
Proof. now destruct st. Qed.

(** When [validateAddressMatch] throws, the candidate is an Italian one. *)
Lemma validateAddressMatchWith_throw_italian
    (known : string -> string -> string -> Exc bool)
    (c : Components.t) (parts : AddressParts.t) (m : string) :
  validateAddressMatchWith known c parts = Throw m ->
  Components.country_code c = Some "it".
Proof.
  unfold validateAddressMatchWith.
  destruct (isTruthyAndEq (Components.country_code c) "it") eqn:E; simpl.
  - intros _. now apply isTruthyAndEq_Some.
  - discriminate.
Qed.

(** The conditions under which the postcode check is reached and fails. *)
Lemma validateAddressMatch_postcode_mismatch
    (c : Components.t) (parts : AddressParts.t) :
  Components.country_code c = Some "it" ->
  fuzzyMatch (firstTruthy [Components.city c; Components.town c;
                           Components.village c])
             (AddressParts.city parts) = true ->
  truthy (AddressParts.province parts)
  && negb (fuzzyMatch (orEmpty (Components.county c))
             (orEmpty (AddressParts.province parts))
           || fuzzyMatch (firstTruthy [Components.state c;
                                       Components.state_district c])
                (orEmpty (AddressParts.province parts))) = false ->
  nonEmpty (AddressParts.postcode parts) = true ->
  nonEmpty (orEmpty (Components.postcode c)) = true ->
  orEmpty (Components.postcode c) <> AddressParts.postcode parts ->
  validateAddressMatch c parts
  = Throw (msgPostcodeThrown (orEmpty (Components.postcode c))
             (AddressParts.postcode parts)).
Proof.
  intros Hit Hcity Hprov Hin Hgeo Hne.
  unfold validateAddressMatch, validateAddressMatchWith.
  rewrite Hit, Hcity, Hprov, Hin, Hgeo.
  apply String.eqb_neq in Hne. rewrite Hne. reflexivity.
Qed.

(** With no postcode in the parsed address, the postcode check cannot
    fail: an exception of [validateAddressMatch] then comes from the
    lookup. *)
Lemma validateAddressMatch_throw_without_postcode
    (c : Components.t) (parts : AddressParts.t) (m : string) :
  AddressParts.postcode parts = EmptyString ->
  validateAddressMatch c parts = Throw m ->
  exists city province geocodedProvince,
    checkKnownMismatches city province geocodedProvince = Throw m.
Proof.
  intros Hp. unfold validateAddressMatch, validateAddressMatchWith.
  rewrite Hp. cbn [nonEmpty JS.isEmpty negb andb].
  repeat match goal with
         | |- context [if ?b then _ else _] => destruct b; try discriminate
         end.
  match goal with
  | |- context [checkKnownMismatches ?a ?b ?c] =>
      destruct (checkKnownMismatches a b c) as [[|]|m'] eqn:E
  end; simpl; try discriminate.
  intro H. injection H as ->. eauto.
Qed.

(** The body of the scoring loop on a candidate for which
    [validateAddressMatch] throws its postcode message: the [catch] of the
    body appends the message to the diagnostics, adds nothing to the valid
    results, and the loop goes on. This is a fact about the loop body on
    parts that hold a postcode; by [postcode_check_never_fails_in_a_call]
    below, no call of [findBestResult] runs the body on such parts. *)
Lemma postcode_mismatch_is_caught_by_scoring_loop
    (parts : AddressParts.t) (st : LoopState) (r : Candidate)
    (rest : list Candidate) :
  9 <= confidence r ->
  validateAddressMatch (components r) parts
  = Throw (msgPostcodeThrown (orEmpty (Components.postcode (components r)))
             (AddressParts.postcode parts)) ->
  scoreStep checkKnownMismatches parts st r
  = pushError st
      (msgPostcodeThrown (orEmpty (Components.postcode (components r)))
         (AddressParts.postcode parts))
  /\ fold_left (scoreStep checkKnownMismatches parts) (r :: rest) st
     = fold_left (scoreStep checkKnownMismatches parts) rest
         (pushError st
            (msgPostcodeThrown (orEmpty (Components.postcode (components r)))
               (AddressParts.postcode parts))).
Proof.
  intros Hconf Hthrow.
  assert (Hstep : scoreStep checkKnownMismatches parts st r
                  = pushError st
                      (msgPostcodeThrown
                         (orEmpty (Components.postcode (components r)))
                         (AddressParts.postcode parts))).
  { unfold scoreStep.
    assert (Hc : (confidence r <? 9) = false) by (apply Z.ltb_ge; lia).
    rewrite Hc.
    rewrite (validateAddressMatchWith_throw_italian _ _ _ _ Hthrow).
    cbn [truthy orEmpty JS.isEmpty negb andb JS.toLowerCase].
    change (String.eqb (JS.toLowerCase "it") "it") with true.
    cbn [negb andb].
    unfold italianTry. unfold validateAddressMatch in Hthrow.
    rewrite Hthrow. now rewrite setErrors_same. }
  split; [exact Hstep|]. simpl. now rewrite Hstep.
Qed.

Lemma postcode_mismatch_is_caught_by_scoring_loop_witness :
  9 <= confidence (Sample.firenzeNoRoad None (Some "20100") 9)
  /\ validateAddressMatch
       (components (Sample.firenzeNoRoad None (Some "20100") 9))
       (parseAddress ", Firenze, 50100")
     = Throw (msgPostcodeThrown "20100" "50100")
  /\ scoreStep checkKnownMismatches (parseAddress ", Firenze, 50100")
       {| validationErrors := []; validResults := [] |}
       (Sample.firenzeNoRoad None (Some "20100") 9)
     = {| validationErrors := [msgPostcodeThrown "20100" "50100"];
          validResults := [] |}.
Proof.
  assert (H1 : 9 <= confidence (Sample.firenzeNoRoad None (Some "20100") 9))
    by (simpl; lia).
  assert (H2 : validateAddressMatch
                 (components (Sample.firenzeNoRoad None (Some "20100") 9))
                 (parseAddress ", Firenze, 50100")
               = Throw (msgPostcodeThrown "20100" "50100")) by reflexivity.
  refine (conj H1 (conj H2 _)).
  exact (proj1 (postcode_mismatch_is_caught_by_scoring_loop
                  (parseAddress ", Firenze, 50100")
                  {| validationErrors := []; validResults := [] |}
                  (Sample.firenzeNoRoad None (Some "20100") 9) [] H1 H2)).
Defined.

(** In a call of [findBestResult] the scoring loop runs only when no
    postcode was parsed: with a parsed postcode and a non-empty list the
    postcode branch returns or throws first, and on an empty list the loop
    has nothing to iterate. So the postcode check of [validateAddressMatch]
    never fails in such a call: an exception that [validateAddressMatch]
    raises on a candidate of the loop comes from the lookup. *)
Lemma postcode_check_never_fails_in_a_call
    (results : list Candidate) (addr : string) (c : Candidate) (m : string) :
  In c results ->
  selectionBranches results (parseAddress addr) = None ->
  validateAddressMatch (components c) (parseAddress addr) = Throw m ->
  AddressParts.postcode (parseAddress addr) = EmptyString
  /\ m <> msgPostcodeThrown (orEmpty (Components.postcode (components c)))
            (AddressParts.postcode (parseAddress addr))
  /\ exists city province geocodedProvince,
      checkKnownMismatches city province geocodedProvince = Throw m.
Proof.
  intros _ Hnone Hthrow.
  destruct (selectionBranches_none _ _ Hnone) as (Hpc & _ & _).
  destruct (validateAddressMatch_throw_without_postcode _ _ _ Hpc Hthrow)
    as (city & province & gp & Hk).
  split; [exact Hpc|]. split; [|eauto].
  assert (Hm : m = notAFunction).
  { revert Hk. unfold checkKnownMismatches.
    destruct (lookupOwn _ mismatches); [discriminate|].
    destruct (JS.arrayIncludes inheritedKeys _); [|discriminate].
    congruence. }
  subst m. unfold msgPostcodeThrown. discriminate.
Qed.

(** ** The postcode-first branch *)

Lemma fiveDigitsThenBoundary_shape (s m : string) :
  JS.fiveDigitsThenBoundary s = Some m -> isFiveDigits m = true.
Proof.
  unfold JS.fiveDigitsThenBoundary.
  destruct s as [|a [|b [|c [|d [|e rest]]]]]; try discriminate.
  match goal with
  | |- (if ?cond then _ else _) = _ -> _ => destruct cond eqn:E
  end; [|discriminate].
  intro H.
  assert (Hm : m = String a (String b (String c (String d (String e EmptyString)))))
    by congruence.
  subst m. apply andb_true_iff in E as [E _]. exact E.
Qed.

Lemma matchPostcode_aux_shape (s : string) :
  forall prevWord m,
    JS.matchPostcode_aux prevWord s = Some m -> isFiveDigits m = true.
Proof.
  induction s as [|c s IH]; intros prevWord m;
    cbn [JS.matchPostcode_aux]; [discriminate|].
  destruct prevWord.
  - apply IH.
  - destruct (JS.fiveDigitsThenBoundary (String c s)) as [m'|] eqn:E.
    + intro H. assert (m' = m) by congruence. subst m'.
      exact (fiveDigitsThenBoundary_shape _ _ E).
    + apply IH.
Qed.

Lemma isFiveDigits_nonEmpty (m : string) :
  isFiveDigits m = true -> nonEmpty m = true.
Proof. destruct m; [discriminate | reflexivity]. Qed.

Lemma extractPostcode_shape (parts : list string) :
  extractPostcode parts = EmptyString
  \/ isFiveDigits (extractPostcode parts) = true.
Proof.
  induction parts as [|part rest IH]; simpl; [now left|].
  destruct (JS.matchPostcode part) as [m|] eqn:E; [|exact IH].
  right. exact (matchPostcode_aux_shape part false m E).
Qed.

Lemma extractPostcode_empty (parts : list string) (i : nat) :
  extractPostcode parts = EmptyString -> testPostcode (JS.at_ parts i) = false.
Proof.
  unfold testPostcode, JS.at_.
  revert i. induction parts as [|part rest IH]; intros i H; simpl in *.
  - now destruct i.
  - destruct (JS.matchPostcode part) as [m|] eqn:E.
    + apply matchPostcode_aux_shape, isFiveDigits_nonEmpty in E.
      rewrite H in E. discriminate.
    + destruct i; [now rewrite E | now apply IH].
Qed.

(** The parsed postcode is empty or the five digits that the scan found:
    the fall-back on the last segment never contributes. *)
Lemma parseAddress_postcode_shape (addr : string) :
  AddressParts.postcode (parseAddress addr) = EmptyString
  \/ isFiveDigits (AddressParts.postcode (parseAddress addr)) = true.
Proof.
  unfold parseAddress.
  set (parts := normalizeStreet (map JS.trim (JS.splitChar "," addr))).
  destruct (extractPostcode_shape parts) as [E|E].
  - left.
    repeat match goal with
           | |- context [if (?a =? ?b)%nat then _ else _] =>
               destruct (a =? b)%nat
           end; simpl; rewrite E; simpl;
      rewrite ?(extractPostcode_empty parts _ E); reflexivity.
  - right.
    pose proof (isFiveDigits_nonEmpty (extractPostcode parts) E) as Hn.
    assert (Hor : forall other, orStr (extractPostcode parts) other
                                = extractPostcode parts).
    { intro other. unfold orStr. unfold nonEmpty in Hn.
      now destruct (JS.isEmpty (extractPostcode parts)). }
    repeat match goal with
           | |- context [if (?a =? ?b)%nat then _ else _] =>
               destruct (a =? b)%nat
           end; simpl; rewrite Hor; exact E.
Qed.

(** C6: when the parse gives a postcode and the list holds a candidate with
    a road or a square and that postcode (and a road that fuzzy-matches the
    parsed street, when there is one), [findBestResult] returns a candidate
    of the list with a road or a square and that same postcode, whose road
    fuzzy-matches the parsed street when there is one, whatever the
    confidences; for "Via Roma, Firenze, 50100" it returns the Firenze
    candidate of confidence 8 and not the Milano candidate of confidence
    9. *)
Theorem findBestResult_postcode_first :
  (forall (results : list Candidate) (addr : string) (c : Candidate),
      nonEmpty (AddressParts.postcode (parseAddress addr)) = true ->
      In c results ->
      hasRoadOrSquare c = true ->
      Components.postcode (components c)
      = Some (AddressParts.postcode (parseAddress addr)) ->
      (nonEmpty (AddressParts.street (parseAddress addr)) = true ->
       truthy (Components.road (components c))
       && fuzzyMatch (orEmpty (Components.road (components c)))
            (AddressParts.street (parseAddress addr)) = true) ->
      exists c',
        findBestResult results addr = Ret (Some c')
        /\ In c' results
        /\ hasRoadOrSquare c' = true
        /\ Components.postcode (components c')
           = Some (AddressParts.postcode (parseAddress addr))
        /\ (nonEmpty (AddressParts.street (parseAddress addr)) = true ->
            fuzzyMatch (orEmpty (Components.road (components c')))
              (AddressParts.street (parseAddress addr)) = true))
  /\ findBestResult [Sample.viaRomaMilano; Sample.viaRomaFirenze]
       "Via Roma, Firenze, 50100"
     = Ret (Some Sample.viaRomaFirenze).
Proof.
  split; [|reflexivity].
  intros results addr c Hpc Hin Hrs Hcpc Hroad.
  set (parts := parseAddress addr) in *.
  assert (Hfilt : In c (filter hasRoadOrSquare results))
    by (apply filter_In; auto).
  assert (Hpm : postcodeMatch parts c = true).
  { unfold postcodeMatch. rewrite Hcpc. now apply isTruthyAndEq_intro. }
  unfold findBestResult, findBestResultWith. fold parts.
  destruct results as [|r0 rs]; [destruct Hin|].
  unfold selectionBranches. rewrite Hpc.
  destruct (nonEmpty (AddressParts.street parts)) eqn:Hst.
  - assert (Hprm : postcodeAndRoadMatch parts c = true).
    { unfold postcodeAndRoadMatch. fold (postcodeMatch parts c).
      rewrite Hpm. rewrite <- andb_assoc. now rewrite (Hroad eq_refl). }
    destruct (find_exists_some (postcodeAndRoadMatch parts) _ c Hfilt Hprm)
      as [c' E].
    rewrite E. exists c'.
    apply find_filter_some in E as (Hin' & Hrs' & Hm).
    unfold postcodeAndRoadMatch in Hm.
    apply andb_true_iff in Hm as [Hm Hfz].
    apply andb_true_iff in Hm as [Hm _].
    apply isTruthyAndEq_Some in Hm. auto.
  - destruct (find_exists_some (postcodeMatch parts) _ c Hfilt Hpm) as [c' E].
    rewrite E. exists c'.
    apply find_filter_some in E as (Hin' & Hrs' & Hm).
    apply isTruthyAndEq_Some in Hm.
    repeat split; auto. discriminate.
Qed.

Lemma findBestResult_postcode_first_witness :
  nonEmpty (AddressParts.postcode (parseAddress "Via Roma, Firenze, 50100"))
  = true
  /\ In Sample.viaRomaFirenze [Sample.viaRomaMilano; Sample.viaRomaFirenze]
  /\ hasRoadOrSquare Sample.viaRomaFirenze = true
  /\ Components.postcode (components Sample.viaRomaFirenze)
     = Some (AddressParts.postcode (parseAddress "Via Roma, Firenze, 50100"))
  /\ exists c',
      findBestResult [Sample.viaRomaMilano; Sample.viaRomaFirenze]
        "Via Roma, Firenze, 50100" = Ret (Some c')
      /\ Components.postcode (components c') = Some "50100".
Proof.
  assert (H1 : nonEmpty (AddressParts.postcode
                           (parseAddress "Via Roma, Firenze, 50100")) = true)
    by reflexivity.
  assert (H2 : In Sample.viaRomaFirenze
                 [Sample.viaRomaMilano; Sample.viaRomaFirenze])
    by (right; left; reflexivity).
  assert (H3 : hasRoadOrSquare Sample.viaRomaFirenze = true) by reflexivity.
  assert (H4 : Components.postcode (components Sample.viaRomaFirenze)
               = Some (AddressParts.postcode
                         (parseAddress "Via Roma, Firenze, 50100")))
    by reflexivity.
  refine (conj H1 (conj H2 (conj H3 (conj H4 _)))).
  destruct (proj1 findBestResult_postcode_first
              [Sample.viaRomaMilano; Sample.viaRomaFirenze]
              "Via Roma, Firenze, 50100" Sample.viaRomaFirenze
              H1 H2 H3 H4 (fun _ => eq_refl))
    as (c' & Hret & _ & _ & Hpc & _).
  exists c'. split; [exact Hret | exact Hpc].
Defined.

(** ** parseAddress *)

(** C7: parsing "Via Viale Antonio Gramsci, Firenze, FI, 50100" drops the
    second road-type word of the street and gives the street
    "Via Antonio Gramsci", the postcode "50100", the city "Firenze" and the
    province "FI". *)
Theorem parseAddress_drops_second_road_type :
  parseAddress "Via Viale Antonio Gramsci, Firenze, FI, 50100"
  = {| AddressParts.country := None;
       AddressParts.street := "Via Antonio Gramsci";
       AddressParts.city := "Firenze";
       AddressParts.province := Some "FI";
       AddressParts.county := Some "FI";
       AddressParts.postcode := "50100" |}
  /\ normalizeStreet ["Via Viale Antonio Gramsci"; "Firenze"; "FI"; "50100"]
     = ["Via Antonio Gramsci"; "Firenze"; "FI"; "50100"].
Proof. split; reflexivity. Qed.

(** ** The strict city match *)

Lemma cityMatchStrict_rejects_longer (geoName inputName : string) :
  (wordCount inputName < wordCount geoName)%nat ->
  cityMatchStrict geoName inputName = false.
Proof.
  unfold wordCount, cityMatchStrict. intro H.
  destruct (JS.isEmpty geoName || JS.isEmpty inputName); [reflexivity|].
  apply Nat.ltb_lt in H. rewrite H.
  now destruct (String.eqb _ _).
Qed.

Lemma strictOn_true (o : option string) (inputCity : string) :
  strictOn o inputCity = true ->
  truthy o = true
  /\ cityMatchStrict (orEmpty o) inputCity = true
  /\ (wordCount (orEmpty o) <= wordCount inputCity)%nat.
Proof.
  unfold strictOn. intro H. apply andb_true_iff in H as [Ht Hc].
  repeat split; auto.
  destruct (Nat.le_gt_cases (wordCount (orEmpty o)) (wordCount inputCity))
    as [Hle|Hgt]; [exact Hle|].
  rewrite (cityMatchStrict_rejects_longer _ _ Hgt) in Hc. discriminate.
Qed.

(** C10, as the code has it: in the branch taken when no postcode but a
    street and a city were parsed, the strict city match is false for every
    name with more words than the parsed city, prefix or not; so a returned
    candidate owes its selection to a city, town, village or hamlet name
    with at most as many words as the parsed city, and a candidate all of
    whose names are longer is never returned. *)
Theorem street_city_branch_rejects_longer_names
    (results : list Candidate) (addr : string) (c : Candidate) :
  AddressParts.postcode (parseAddress addr) = EmptyString ->
  nonEmpty (AddressParts.street (parseAddress addr)) = true ->
  nonEmpty (AddressParts.city (parseAddress addr)) = true ->
  findBestResult results addr = Ret (Some c) ->
  (forall geoName,
      (wordCount (AddressParts.city (parseAddress addr)) < wordCount geoName)%nat ->
      cityMatchStrict geoName (AddressParts.city (parseAddress addr)) = false)
  /\ (exists o,
         In o (placeNames c)
         /\ truthy o = true
         /\ cityMatchStrict (orEmpty o) (AddressParts.city (parseAddress addr))
            = true
         /\ (wordCount (orEmpty o)
             <= wordCount (AddressParts.city (parseAddress addr)))%nat)
  /\ ~ (forall o,
           In o (placeNames c) -> truthy o = true ->
           (wordCount (AddressParts.city (parseAddress addr))
            < wordCount (orEmpty o))%nat).
Proof.
  intros Hpc Hst Hcity Hret.
  set (parts := parseAddress addr) in *.
  assert (Hex : exists o,
             In o (placeNames c) /\ truthy o = true
             /\ cityMatchStrict (orEmpty o) (AddressParts.city parts) = true
             /\ (wordCount (orEmpty o) <= wordCount (AddressParts.city parts))%nat).
  { unfold findBestResult, findBestResultWith in Hret. fold parts in Hret.
    destruct results as [|r0 rs]; [discriminate|].
    unfold selectionBranches in Hret.
    rewrite Hpc, Hst, Hcity in Hret. cbn [nonEmpty JS.isEmpty negb] in Hret.
    match type of Hret with
    | context [find ?f ?l] => destruct (find f l) as [x|] eqn:E
    end; [|discriminate].
    injection Hret as ->.
    apply find_filter_some in E as (_ & _ & Hm).
    unfold roadAndCityMatches in Hm.
    apply andb_true_iff in Hm as [_ Hm].
    repeat (apply orb_true_iff in Hm as [Hm|Hm]);
      apply strictOn_true in Hm as (Ht & Hs & Hw);
      eexists; (split; [|split; [exact Ht | split; [exact Hs | exact Hw]]]);
      unfold placeNames; simpl; auto. }
  split; [intros g Hg; now apply cityMatchStrict_rejects_longer|].
  split; [exact Hex|].
  intros Hall. destruct Hex as (o & Hin & Ht & _ & Hw).
  specialize (Hall o Hin Ht). lia.
Qed.

Lemma street_city_branch_rejects_longer_names_witness :
  AddressParts.postcode (parseAddress "Via Roma, Firenze") = EmptyString
  /\ nonEmpty (AddressParts.street (parseAddress "Via Roma, Firenze")) = true
  /\ nonEmpty (AddressParts.city (parseAddress "Via Roma, Firenze")) = true
  /\ findBestResult [Sample.viaRomaMilano; Sample.viaRomaFirenze]
       "Via Roma, Firenze" = Ret (Some Sample.viaRomaFirenze)
  /\ exists o,
      In o (placeNames Sample.viaRomaFirenze)
      /\ truthy o = true
      /\ (wordCount (orEmpty o) <= wordCount "Firenze")%nat.
Proof.
  assert (H1 : AddressParts.postcode (parseAddress "Via Roma, Firenze")
               = EmptyString) by reflexivity.
  assert (H2 : nonEmpty (AddressParts.street (parseAddress "Via Roma, Firenze"))
               = true) by reflexivity.
  assert (H3 : nonEmpty (AddressParts.city (parseAddress "Via Roma, Firenze"))
               = true) by reflexivity.
  assert (H4 : findBestResult [Sample.viaRomaMilano; Sample.viaRomaFirenze]
                 "Via Roma, Firenze" = Ret (Some Sample.viaRomaFirenze))
    by reflexivity.
  refine (conj H1 (conj H2 (conj H3 (conj H4 _)))).
  destruct (street_city_branch_rejects_longer_names
              [Sample.viaRomaMilano; Sample.viaRomaFirenze]
              "Via Roma, Firenze" Sample.viaRomaFirenze H1 H2 H3 H4)
    as (_ & (o & Hin & Ht & _ & Hw) & _).
  exists o. exact (conj Hin (conj Ht Hw)).
Defined.

(** C10 fails as stated: for "Via Roma, Firenze" (no postcode, a street and
    a city) the branch returns a candidate whose city "Sesto Fiorentino" has
    more words than the parsed city and fails the strict match, because its
    town "Firenze" passes it: the four names are alternatives. *)
Lemma candidate_with_longer_city_is_returned :
  AddressParts.postcode (parseAddress "Via Roma, Firenze") = EmptyString
  /\ nonEmpty (AddressParts.street (parseAddress "Via Roma, Firenze")) = true
  /\ AddressParts.city (parseAddress "Via Roma, Firenze") = "Firenze"
  /\ Components.city (components Sample.viaRomaSesto) = Some "Sesto Fiorentino"
  /\ (wordCount "Firenze" < wordCount "Sesto Fiorentino")%nat
  /\ cityMatchStrict "Sesto Fiorentino" "Firenze" = false
  /\ selectionBranches [Sample.viaRomaSesto] (parseAddress "Via Roma, Firenze")
     = Some (Ret (Some Sample.viaRomaSesto))
  /\ findBestResult [Sample.viaRomaSesto] "Via Roma, Firenze"
     = Ret (Some Sample.viaRomaSesto).
Proof.
  repeat split; try reflexivity.
  vm_compute. lia.
Qed.

Example strict_match_rejects_prefix :
  cityMatchStrict "Monterotondo Marittimo" "Monterotondo" = false.
Proof. reflexivity. Qed.

Example strict_match_rejects_longer_non_prefix :
  fuzzyMatch "Sesto Fiorentino" "Firenze" = false
  /\ cityMatchStrict "Sesto Fiorentino" "Firenze" = false.
Proof. split; reflexivity. Qed.

(** ** The influence of the known-mismatch lookup *)

Lemma sameUpToWording_refl (d : string) : sameUpToWording d d.
Proof. now left. Qed.

Lemma Forall2_sameUpToWording_refl (l : list string) :
  Forall2 sameUpToWording l l.
Proof. induction l; constructor; auto using sameUpToWording_refl. Qed.

Lemma sameVerdict_refl (o : Exc (option Candidate)) : sameVerdict o o.
Proof. destruct o; simpl; auto. Qed.

Lemma Forall2_snoc {A : Type} (R : A -> A -> Prop) (l1 l2 : list A) (x y : A) :
  Forall2 R l1 l2 -> R x y -> Forall2 R (l1 ++ [x]) (l2 ++ [y]).
Proof. intros H Hxy. apply Forall2_app; auto. Qed.

Section TwoLookups.

Variables k1 k2 : string -> string -> string -> Exc bool.
Hypothesis Hsame : sameThrows k1 k2.
Variable addressParts : AddressParts.t.

(** The boolean that the lookup returns is dropped by
    [validateAddressMatch]. *)
Lemma validateAddressMatchWith_same (c : Components.t) :
  validateAddressMatchWith k1 c addressParts
  = validateAddressMatchWith k2 c addressParts.
Proof.
  unfold validateAddressMatchWith.
  repeat match goal with
         | |- (if ?b then _ else _) = (if ?b then _ else _) =>
             destruct b; try reflexivity
         end.
  match goal with
  | |- context [k1 ?a ?b ?c] =>
      pose proof (Hsame a b c) as H;
      destruct (k1 a b c) as [[|]|m1], (k2 a b c) as [[|]|m2]
  end; simpl; try reflexivity; try contradiction; now subst.
Qed.

Lemma italianTry_related (c : Components.t) (e1 e2 : list string) :
  Forall2 sameUpToWording e1 e2 ->
  Forall2 sameUpToWording (fst (italianTry k1 addressParts c e1))
                          (fst (italianTry k2 addressParts c e2))
  /\ snd (italianTry k1 addressParts c e1) = snd (italianTry k2 addressParts c e2).
Proof.
  intro He. unfold italianTry.
  rewrite <- validateAddressMatchWith_same.
  destruct (validateAddressMatchWith k1 c addressParts) as [[|]|m]; simpl;
    [now split| |now split].
  match goal with
  | |- context [if ?b then (e1 ++ ?x)%list else e1] =>
      assert (He1 : Forall2 sameUpToWording
                      (if b then (e1 ++ x)%list else e1)
                      (if b then (e2 ++ x)%list else e2))
        by (destruct b; [apply Forall2_snoc|]; auto using sameUpToWording_refl);
      generalize dependent (if b then (e1 ++ x)%list else e1);
      generalize dependent (if b then (e2 ++ x)%list else e2)
  end.
  intros f2 f1 Hf.
  destruct (truthy (AddressParts.province addressParts) && _ && _);
    [|now split].
  match goal with
  | |- context [k1 ?a ?b ?c] =>
      pose proof (Hsame a b c) as H;
      destruct (k1 a b c) as [[|]|m1], (k2 a b c) as [[|]|m2]
  end; simpl; try contradiction; subst; split; try reflexivity; auto;
    apply Forall2_snoc; auto using sameUpToWording_refl;
    right; do 3 eexists; [left|right]; split; reflexivity.
Qed.

Lemma scoreStep_related (st1 st2 : LoopState) (r : Candidate) :
  relatedStates st1 st2 ->
  relatedStates (scoreStep k1 addressParts st1 r)
                (scoreStep k2 addressParts st2 r).
Proof.
  intros [He Hv]. unfold scoreStep.
  destruct (confidence r <? 9).
  { split; simpl; [apply Forall2_snoc; auto using sameUpToWording_refl | exact Hv]. }
  destruct (truthy _ && _).
  { destruct (scoreForeign addressParts (components r)); split; simpl;
      auto using sameUpToWording_refl, Forall2_snoc.
    now rewrite Hv. }
  destruct (italianTry_related (components r) _ _ He) as [Hf Hs].
  destruct (italianTry k1 addressParts (components r) (validationErrors st1))
    as [f1 o1],
    (italianTry k2 addressParts (components r) (validationErrors st2))
    as [f2 o2].
  simpl in Hf, Hs. subst o2.
  destruct o1 as [[ms|]|m]; split; simpl;
    auto using sameUpToWording_refl, Forall2_snoc.
  now rewrite Hv.
Qed.

Lemma fold_scoreStep_related (rs : list Candidate) :
  forall st1 st2,
    relatedStates st1 st2 ->
    relatedStates (fold_left (scoreStep k1 addressParts) rs st1)
                  (fold_left (scoreStep k2 addressParts) rs st2).
Proof.
  induction rs as [|r rs IH]; intros st1 st2 H; simpl; [exact H|].
  apply IH. now apply scoreStep_related.
Qed.

Lemma concludeScoring_related (st1 st2 : LoopState) (results : list Candidate) :
  relatedStates st1 st2 ->
  sameVerdict (concludeScoring st1 results) (concludeScoring st2 results).
Proof.
  intros [He Hv]. unfold concludeScoring. rewrite <- Hv.
  destruct (sortByScore (validResults st1)); [|reflexivity].
  destruct He as [|d1 d2 l1 l2 Hd _]; simpl.
  - apply sameVerdict_refl.
  - right. now exists d1, d2.
Qed.

Lemma scoringFallbackWith_related (results : list Candidate) :
  sameVerdict (scoringFallbackWith k1 results addressParts)
              (scoringFallbackWith k2 results addressParts).
Proof.
  apply concludeScoring_related, fold_scoreStep_related.
  split; [constructor | reflexivity].
Qed.

End TwoLookups.

Lemma findBestResultWith_related
    (k1 k2 : string -> string -> string -> Exc bool)
    (results : list Candidate) (addr : string) :
  sameThrows k1 k2 ->
  sameVerdict (findBestResultWith k1 results addr)
              (findBestResultWith k2 results addr).
Proof.
  intro H. unfold findBestResultWith.
  destruct (match results with
            | [] => None
            | _ :: _ => selectionBranches results (parseAddress addr)
            end).
  - apply sameVerdict_refl.
  - now apply scoringFallbackWith_related.
Qed.

(** C8: whatever boolean [checkKnownMismatches] returns, [findBestResult]
    returns the same candidate or fails alike: [validateAddressMatch] drops
    the boolean, and in the scoring loop it only chooses between the
    "Invalid geographical combination" and the "Province mismatch" wording
    of a diagnostic. Stated against any lookup that returns where
    [checkKnownMismatches] returns and throws where it throws. *)
Theorem checkKnownMismatches_only_rewords
    (other : string -> string -> string -> Exc bool)
    (results : list Candidate) (addr : string) :
  sameThrows checkKnownMismatches other ->
  sameVerdict (findBestResult results addr)
              (findBestResultWith other results addr)
  /\ (forall c parts,
         validateAddressMatch c parts = validateAddressMatchWith other c parts).
Proof.
  intro H. split.
  - now apply findBestResultWith_related.
  - intros c parts. now apply validateAddressMatchWith_same.
Qed.

Lemma negatedLookup_sameThrows :
  sameThrows checkKnownMismatches Sample.negatedLookup.
Proof.
  intros a b c. unfold Sample.negatedLookup.
  now destruct (checkKnownMismatches a b c).
Qed.

Lemma checkKnownMismatches_only_rewords_witness :
  sameThrows checkKnownMismatches Sample.negatedLookup
  /\ findBestResult [Sample.firenzeNoRoad (Some "Firenze") None 9]
       ", Firenze, Milano"
     = Throw (msgFirstDiagnostic (msgInvalidCombination "Firenze" "Milano"))
  /\ findBestResultWith Sample.negatedLookup
       [Sample.firenzeNoRoad (Some "Firenze") None 9] ", Firenze, Milano"
     = Throw (msgFirstDiagnostic (msgMismatch "Province" "Firenze" "Milano"))
  /\ sameVerdict
       (findBestResult [Sample.firenzeNoRoad (Some "Firenze") None 9]
          ", Firenze, Milano")
       (findBestResultWith Sample.negatedLookup
          [Sample.firenzeNoRoad (Some "Firenze") None 9] ", Firenze, Milano").
Proof.
  split; [exact negatedLookup_sameThrows|].
  split; [reflexivity|]. split; [reflexivity|].
  exact (proj1 (checkKnownMismatches_only_rewords Sample.negatedLookup
                  [Sample.firenzeNoRoad (Some "Firenze") None 9]
                  ", Firenze, Milano" negatedLookup_sameThrows)).
Defined.

(** * Further properties *)

(** ** levenshteinDistance *)

Lemma editDistance_nil_r (a : list ascii) : editDistance a [] = length a.
Proof. now destruct a. Qed.

Lemma editDistance_cons (x y : ascii) (a b : list ascii) :
  editDistance (x :: a) (y :: b)
  = Nat.min (Nat.min (editDistance a (y :: b) + 1) (editDistance (x :: a) b + 1))
            (editDistance a b + indicator x y).
Proof. reflexivity. Qed.

Lemma levRow_tabulates (c2 : ascii) (rb : list ascii) (q : string) :
  forall p,
    levRow c2 q (editDistance p rb) (prefixDistances p q rb)
      (editDistance p (c2 :: rb))
    = prefixDistances p q (c2 :: rb).
Proof.
  induction q as [|c1 q IH]; intro p; [reflexivity|].
  cbn [prefixDistances levRow]. cbv zeta.
  rewrite <- (IH (c1 :: p)).
  rewrite (editDistance_cons c1 c2 p rb). unfold indicator.
  reflexivity.
Qed.

Lemma prefixDistances_nil_r (q : string) :
  forall p, prefixDistances p q [] = seq (S (length p)) (String.length q).
Proof.
  induction q as [|c q IH]; intro p; [reflexivity|].
  cbn [prefixDistances String.length seq]. rewrite editDistance_nil_r.
  now rewrite IH.
Qed.

Lemma levRows_tabulates (str1 : string) (s2 : string) :
  forall rb,
    levRows str1 s2 (S (length rb))
      (editDistance [] rb :: prefixDistances [] str1 rb)
    = editDistance [] (rev (list_ascii_of_string s2) ++ rb)
      :: prefixDistances [] str1 (rev (list_ascii_of_string s2) ++ rb).
Proof.
  induction s2 as [|c2 s2 IH]; intro rb; [reflexivity|].
  cbn [levRows hd tl list_ascii_of_string rev].
  rewrite <- app_assoc. cbn [app].
  rewrite <- (IH (c2 :: rb)). cbn [length].
  do 2 f_equal.
  change (S (length rb)) with (editDistance [] (c2 :: rb)).
  apply levRow_tabulates.
Qed.

Lemma last_prefixDistances (q : string) (rb : list ascii) :
  forall p x,
    last (x :: prefixDistances p q rb) 0%nat
    = match q with
      | EmptyString => x
      | String _ _ => editDistance (rev (list_ascii_of_string q) ++ p) rb
      end.
Proof.
  induction q as [|c q IH]; intros p x; [reflexivity|].
  cbn [prefixDistances].
  change (last (x :: ?y :: ?l) 0%nat) with (last (y :: l) 0%nat).
  rewrite IH. destruct q as [|c' q]; [reflexivity|].
  cbn [list_ascii_of_string rev]. now rewrite <- !app_assoc.
Qed.

Lemma levenshteinDistance_is_editDistance_holds (str1 str2 : string) :
  levenshteinDistance str1 str2
  = editDistance (reversedChars str1) (reversedChars str2).
Proof.
  unfold levenshteinDistance, iota0, reversedChars.
  change (seq 0 (S (String.length str1)))
    with (editDistance [] [] :: seq (S (@length ascii [])) (String.length str1)).
  rewrite <- (prefixDistances_nil_r str1 []).
  change 1%nat with (S (@length ascii [])).
  rewrite (levRows_tabulates str1 str2 []).
  rewrite last_prefixDistances, app_nil_r.
  destruct str1 as [|c s]; [reflexivity|]. now rewrite app_nil_r.
Qed.

(** X1: the table of [levenshteinDistance] holds the values of the edit
    distance recurrence, and the result is its last cell. *)
Theorem levenshteinDistance_is_editDistance (str1 str2 : string) :
  levenshteinDistance str1 str2
  = editDistance (reversedChars str1) (reversedChars str2).
Proof. exact (levenshteinDistance_is_editDistance_holds str1 str2). Qed.

Lemma indicator_sym (x y : ascii) : indicator x y = indicator y x.
Proof. unfold indicator. now rewrite Ascii.eqb_sym. Qed.

Lemma editDistance_nil_l (b : list ascii) : editDistance [] b = length b.
Proof. reflexivity. Qed.

Lemma editDistance_sym (a : list ascii) :
  forall b, editDistance a b = editDistance b a.
Proof.
  induction a as [|x a IHa]; intro b.
  - now rewrite editDistance_nil_r.
  - induction b as [|y b IHb].
    + reflexivity.
    + rewrite !editDistance_cons.
      rewrite (IHa (y :: b)), IHb, (IHa b), (indicator_sym x y).
      f_equal. apply Nat.min_comm.
Qed.

Lemma editDistance_refl (a : list ascii) : editDistance a a = 0%nat.
Proof.
  induction a as [|x a IH]; [reflexivity|].
  rewrite editDistance_cons, IH. unfold indicator.
  rewrite Ascii.eqb_refl. lia.
Qed.

Lemma editDistance_zero (a : list ascii) :
  forall b, editDistance a b = 0%nat -> a = b.
Proof.
  induction a as [|x a IHa]; intros b H.
  - destruct b; [reflexivity | discriminate].
  - destruct b as [|y b]; [discriminate|].
    rewrite editDistance_cons in H.
    assert (H3 : (editDistance a b + indicator x y = 0)%nat) by lia.
    assert (Hi : indicator x y = 0%nat) by lia.
    unfold indicator in Hi.
    destruct (Ascii.eqb x y) eqn:E; [|discriminate].
    apply Ascii.eqb_eq in E. subst y.
    f_equal. apply IHa. lia.
Qed.

Lemma indicator_le_1 (x y : ascii) : (indicator x y <= 1)%nat.
Proof. unfold indicator. destruct (Ascii.eqb x y); lia. Qed.

Lemma editDistance_bounds (a : list ascii) :
  forall b,
    (length a - length b <= editDistance a b
     /\ length b - length a <= editDistance a b
     /\ editDistance a b <= Nat.max (length a) (length b))%nat.
Proof.
  induction a as [|x a IHa]; intro b.
  - rewrite editDistance_nil_l. simpl. lia.
  - induction b as [|y b IHb].
    + rewrite editDistance_nil_r. simpl. lia.
    + rewrite editDistance_cons.
      pose proof (IHa (y :: b)) as H1. pose proof (IHa b) as H3.
      pose proof (indicator_le_1 x y).
      cbn [length] in *. lia.
Qed.

Lemma reversedChars_length (s : string) :
  length (reversedChars s) = String.length s.
Proof.
  unfold reversedChars. rewrite length_rev.
  induction s; simpl; auto.
Qed.

Lemma reversedChars_inj (s t : string) :
  reversedChars s = reversedChars t -> s = t.
Proof.
  unfold reversedChars. intro H.
  apply (f_equal (@rev ascii)) in H. rewrite !rev_involutive in H.
  rewrite <- (string_of_list_ascii_of_string s),
          <- (string_of_list_ascii_of_string t).
  now rewrite H.
Qed.

Lemma levenshteinDistance_sym_holds (str1 str2 : string) :
  levenshteinDistance str1 str2 = levenshteinDistance str2 str1.
Proof.
  rewrite !levenshteinDistance_is_editDistance_holds. apply editDistance_sym.
Qed.

(** X2: the distance does not depend on the order of its arguments. *)
Theorem levenshteinDistance_sym (str1 str2 : string) :
  levenshteinDistance str1 str2 = levenshteinDistance str2 str1.
Proof. exact (levenshteinDistance_sym_holds str1 str2). Qed.

Lemma levenshteinDistance_zero_iff_holds (str1 str2 : string) :
  levenshteinDistance str1 str2 = 0%nat <-> str1 = str2.
Proof.
  rewrite levenshteinDistance_is_editDistance_holds. split.
  - intro H. now apply reversedChars_inj, editDistance_zero.
  - intros ->. apply editDistance_refl.
Qed.

(** X3: the distance is 0 exactly for equal strings. *)
Theorem levenshteinDistance_zero_iff (str1 str2 : string) :
  levenshteinDistance str1 str2 = 0%nat <-> str1 = str2.
Proof. exact (levenshteinDistance_zero_iff_holds str1 str2). Qed.

Lemma levenshteinDistance_bounds_holds (str1 str2 : string) :
  (String.length str1 - String.length str2 <= levenshteinDistance str1 str2
   /\ String.length str2 - String.length str1 <= levenshteinDistance str1 str2
   /\ levenshteinDistance str1 str2
      <= Nat.max (String.length str1) (String.length str2))%nat.
Proof.
  rewrite levenshteinDistance_is_editDistance_holds.
  rewrite <- (reversedChars_length str1), <- (reversedChars_length str2).
  apply editDistance_bounds.
Qed.

(** X4: the distance lies between the difference of the lengths and the
    longer length. *)
Theorem levenshteinDistance_bounds (str1 str2 : string) :
  (String.length str1 - String.length str2 <= levenshteinDistance str1 str2
   /\ String.length str2 - String.length str1 <= levenshteinDistance str1 str2
   /\ levenshteinDistance str1 str2
      <= Nat.max (String.length str1) (String.length str2))%nat.
Proof. exact (levenshteinDistance_bounds_holds str1 str2). Qed.
(** ** fuzzyMatch *)

(** X5: the match does not depend on which string is the input and which the
    provider's. *)
Theorem fuzzyMatch_sym (str1 str2 : string) :
  fuzzyMatch str1 str2 = fuzzyMatch str2 str1.
Proof.
  unfold fuzzyMatch. cbv zeta.
  set (s1 := JS.trim (JS.toLowerCase str1)).
  set (s2 := JS.trim (JS.toLowerCase str2)).
  rewrite (orb_comm (JS.isEmpty str1)).
  rewrite (String.eqb_sym s1 s2).
  rewrite (Nat.eqb_sym (length (JS.splitWs s1)) (length (JS.splitWs s2))).
  rewrite (orb_comm (JS.includes s1 s2)).
  rewrite (orb_comm (JS.startsWith s2 (s1 ++ " "))).
  rewrite (orb_comm (1 <? length (JS.splitWs s1))%nat).
  now rewrite (levenshteinDistance_sym_holds s1 s2).
Qed.

(** X6: two names of different word counts match only when one of them,
    followed by a space, starts the other. *)
Theorem fuzzyMatch_word_count_gate (str1 str2 : string) :
  fuzzyMatch str1 str2 = true ->
  wordCount str1 <> wordCount str2 ->
  JS.startsWith (normalized str2) (normalized str1 ++ " ") = true
  \/ JS.startsWith (normalized str1) (normalized str2 ++ " ") = true.
Proof.
  unfold fuzzyMatch, wordCount. cbv zeta.
  fold (normalized str1) (normalized str2).
  intros H Hwc.
  destruct (JS.isEmpty str1 || JS.isEmpty str2); [discriminate|].
  destruct (String.eqb (normalized str1) (normalized str2)) eqn:E.
  { apply String.eqb_eq in E. elim Hwc. now rewrite E. }
  apply Nat.eqb_neq in Hwc. rewrite Hwc in H. cbn [andb] in H.
  destruct (JS.startsWith (normalized str2) (normalized str1 ++ " ")); [now left|].
  destruct (JS.startsWith (normalized str1) (normalized str2 ++ " ")); [now right|].
  discriminate.
Qed.

Lemma fuzzyMatch_word_count_gate_witness :
  fuzzyMatch "Sesto" "Sesto Fiorentino" = true
  /\ wordCount "Sesto" <> wordCount "Sesto Fiorentino"
  /\ (JS.startsWith (normalized "Sesto Fiorentino") (normalized "Sesto" ++ " ")
      = true
      \/ JS.startsWith (normalized "Sesto") (normalized "Sesto Fiorentino" ++ " ")
         = true).
Proof.
  assert (H1 : fuzzyMatch "Sesto" "Sesto Fiorentino" = true) by reflexivity.
  assert (H2 : wordCount "Sesto" <> wordCount "Sesto Fiorentino")
    by (vm_compute; discriminate).
  exact (conj H1 (conj H2 (fuzzyMatch_word_count_gate "Sesto" "Sesto Fiorentino" H1 H2))).
Defined.

Lemma startsWith_app_l (p q : string) :
  forall s, JS.startsWith s (p ++ q) = true -> JS.startsWith s p = true.
Proof.
  induction p as [|a p IH]; intros s H; [now destruct s|].
  destruct s as [|b s]; [discriminate|].
  cbn [append JS.startsWith] in *.
  apply andb_true_iff in H as [H1 H2].
  now rewrite H1, (IH _ H2).
Qed.

Lemma startsWith_includes (s sub : string) :
  JS.startsWith s sub = true -> JS.includes s sub = true.
Proof. intro H. destruct s; cbn [JS.includes]; now rewrite H. Qed.

(** X7: when two names with the same number of words match and neither
    contains the other, they are within two edits of each other, so their
    trimmed lengths differ by at most 2. *)
Theorem fuzzyMatch_typo_length (str1 str2 : string) :
  fuzzyMatch str1 str2 = true ->
  wordCount str1 = wordCount str2 ->
  JS.includes (normalized str1) (normalized str2) = false ->
  JS.includes (normalized str2) (normalized str1) = false ->
  (levenshteinDistance (normalized str1) (normalized str2) <= 2
   /\ String.length (normalized str1) - String.length (normalized str2) <= 2
   /\ String.length (normalized str2) - String.length (normalized str1) <= 2)%nat.
Proof.
  unfold fuzzyMatch, wordCount. cbv zeta.
  fold (normalized str1) (normalized str2).
  intros H Hwc Hi1 Hi2.
  destruct (JS.isEmpty str1 || JS.isEmpty str2); [discriminate|].
  assert (Hlev : (levenshteinDistance (normalized str1) (normalized str2) <= 2)%nat).
  { destruct (String.eqb (normalized str1) (normalized str2)) eqn:E.
    - apply String.eqb_eq in E. rewrite E.
      rewrite (proj2 (levenshteinDistance_zero_iff_holds _ _) eq_refl). lia.
    - rewrite Hi1, Hi2, Hwc, Nat.eqb_refl in H. cbn [andb orb] in H.
      destruct (JS.startsWith (normalized str2) (normalized str1 ++ " ")) eqn:E1.
      { apply startsWith_app_l, startsWith_includes in E1. congruence. }
      destruct (JS.startsWith (normalized str1) (normalized str2 ++ " ")) eqn:E2.
      { apply startsWith_app_l, startsWith_includes in E2. congruence. }
      cbn [andb orb] in H.
      destruct (levenshteinDistance (normalized str1) (normalized str2) <=? 2)%nat
        eqn:El; [|discriminate].
      now apply Nat.leb_le. }
  split; [exact Hlev|].
  pose proof (levenshteinDistance_bounds_holds (normalized str1) (normalized str2)).
  lia.
Qed.

Lemma fuzzyMatch_typo_length_witness :
  fuzzyMatch "Firense" "Firenze" = true
  /\ wordCount "Firense" = wordCount "Firenze"
  /\ JS.includes (normalized "Firense") (normalized "Firenze") = false
  /\ JS.includes (normalized "Firenze") (normalized "Firense") = false
  /\ (levenshteinDistance (normalized "Firense") (normalized "Firenze") <= 2)%nat.
Proof.
  assert (H1 : fuzzyMatch "Firense" "Firenze" = true) by reflexivity.
  assert (H2 : wordCount "Firense" = wordCount "Firenze") by reflexivity.
  assert (H3 : JS.includes (normalized "Firense") (normalized "Firenze") = false)
    by reflexivity.
  assert (H4 : JS.includes (normalized "Firenze") (normalized "Firense") = false)
    by reflexivity.
  refine (conj H1 (conj H2 (conj H3 (conj H4 _)))).
  exact (proj1 (fuzzyMatch_typo_length "Firense" "Firenze" H1 H2 H3 H4)).
Defined.

(** ** The choice among scored candidates *)

Lemma sortByScore_head (l1 : list Scored) (best : Scored) (l2 : list Scored) :
  (forall v, In v l1 -> score v < score best) ->
  (forall v, In v l2 -> score v <= score best) ->
  exists rest, sortByScore (l1 ++ best :: l2) = best :: rest.
Proof.
  induction l1 as [|x l1 IH]; intros H1 H2; cbn [app sortByScore].
  - destruct (sortByScore l2) as [|y rest] eqn:E; cbn [insertByScore].
    + now exists [].
    + assert (Hy : In y l2) by (apply sortByScore_In; rewrite E; now left).
      specialize (H2 y Hy).
      assert (Hle : (score y - score best <=? 0) = true) by (apply Z.leb_le; lia).
      rewrite Hle. now exists (y :: rest).
  - destruct IH as [rest E]; [intros v Hv; apply H1; now right | exact H2 |].
    rewrite E. cbn [insertByScore].
    assert (Hx : (score best - score x <=? 0) = false).
    { apply Z.leb_gt. specialize (H1 x (or_introl eq_refl)). lia. }
    rewrite Hx. now exists (insertByScore x rest).
Qed.

(** X8: the scoring fallback returns the scored candidate of highest score,
    and among candidates of that score the one the provider listed
    first. *)
Theorem scoringFallback_returns_first_best
    (results : list Candidate) (parts : AddressParts.t)
    (l1 : list Scored) (best : Scored) (l2 : list Scored) :
  validResults (scoringLoop checkKnownMismatches parts results)
  = (l1 ++ best :: l2)%list ->
  (forall v, In v l1 -> score v < score best) ->
  (forall v, In v l2 -> score v <= score best) ->
  scoringFallback results parts = Ret (Some (result best)).
Proof.
  intros Hv H1 H2.
  unfold scoringFallback, scoringFallbackWith, concludeScoring.
  rewrite Hv. destruct (sortByScore_head l1 best l2 H1 H2) as [rest E].
  now rewrite E.
Qed.

(** ** Confidence in the scoring fallback *)

Lemma scoreForeign_range (parts : AddressParts.t) (c : Components.t) (s : Z) :
  scoreForeign parts c = inr s -> 0 <= s <= 3.
Proof.
  unfold scoreForeign.
  repeat match goal with
         | |- context [checkField ?a ?b ?d] =>
             let E := fresh "E" in
             destruct (checkField a b d) eqn:E
         end;
    cbv beta iota; intro H; try discriminate;
    injection H as <-; cbn [bonus]; lia.
Qed.

Lemma italianTry_range (known : string -> string -> string -> Exc bool)
    (parts : AddressParts.t) (c : Components.t) (errs : list string) (s : Z) :
  snd (italianTry known parts c errs) = Ret (Some s) -> 0 <= s <= 3.
Proof.
  unfold italianTry.
  destruct (validateAddressMatchWith known c parts) as [[|]|m]; cbn [snd].
  - intro H. injection H as <-. cbv zeta.
    repeat match goal with
           | |- context [if ?b then 1 else 0] => destruct b
           end; lia.
  - repeat match goal with
           | |- context [if ?b then _ else _] => destruct b
           | |- context [match known ?x ?y ?z with _ => _ end] =>
               destruct (known x y z) as [[|]|]
           end; cbn [snd]; discriminate.
  - discriminate.
Qed.

(** A step adds a candidate to the valid ones only if its confidence is 9
    or more, with a score of the confidence plus at most 3. *)
Lemma scoreStep_valid_range (known : string -> string -> string -> Exc bool)
    (parts : AddressParts.t) (st : LoopState) (r : Candidate) (v : Scored) :
  In v (validResults (scoreStep known parts st r)) ->
  In v (validResults st)
  \/ (result v = r /\ 9 <= confidence r
      /\ confidence r <= score v <= confidence r + 3).
Proof.
  unfold scoreStep.
  destruct (confidence r <? 9) eqn:Ec; [now left|].
  apply Z.ltb_ge in Ec.
  destruct (truthy _ && _).
  - destruct (scoreForeign parts (components r)) as [d|s] eqn:E; cbn.
    + now left.
    + intro H. apply in_app_or in H as [H|[<-|[]]]; [now left|].
      right. apply scoreForeign_range in E. cbn.
      split; [reflexivity | lia].
  - pose proof (italianTry_range known parts (components r) (validationErrors st))
      as Hr.
    destruct (italianTry known parts (components r) (validationErrors st))
      as [errs [[s|]|m]]; cbn in *; try (now left).
    intro H. apply in_app_or in H as [H|[<-|[]]]; [now left|].
    right. specialize (Hr s eq_refl). cbn.
    split; [reflexivity | lia].
Qed.

Lemma fold_scoreStep_valid_range
    (known : string -> string -> string -> Exc bool) (parts : AddressParts.t)
    (rs : list Candidate) :
  forall st v,
    In v (validResults (fold_left (scoreStep known parts) rs st)) ->
    In v (validResults st)
    \/ (In (result v) rs /\ 9 <= confidence (result v)
        /\ confidence (result v) <= score v <= confidence (result v) + 3).
Proof.
  induction rs as [|r rs IH]; intros st v H; cbn [fold_left] in H.
  - now left.
  - apply IH in H as [H|(Hin & Hr)]; [|right; split; [now right | exact Hr]].
    apply scoreStep_valid_range in H as [H|(<- & Hc & Hs)]; [now left|].
    right. split; [now left | auto].
Qed.

Lemma scoringFallback_confidence_holds (results : list Candidate)
    (parts : AddressParts.t) (c : Candidate) :
  scoringFallback results parts = Ret (Some c) ->
  In c results /\ 9 <= confidence c.
Proof.
  intro H. split; [now apply scoringFallbackWith_In in H|].
  unfold scoringFallback, scoringFallbackWith, concludeScoring in H.
  set (loop := scoringLoop checkKnownMismatches parts results) in *.
  destruct (sortByScore (validResults loop)) as [|best rest] eqn:E.
  - destruct (validationErrors loop) eqn:Ee; [|discriminate].
    destruct (filter _ results) as [|first more] eqn:F; [discriminate|].
    injection H as <-. apply filter_head in F as [Hin _].
    destruct (Z_lt_le_dec (confidence first) 9) as [Hlow|]; [|assumption].
    elim (fold_scoreStep_low_leaves_diagnostic checkKnownMismatches parts
            results {| validationErrors := []; validResults := [] |}
            first Hin Hlow).
    exact Ee.
  - injection H as <-.
    assert (Hb : In best (validResults loop))
      by (apply sortByScore_In; rewrite E; now left).
    apply fold_scoreStep_valid_range in Hb as [[]|(_ & Hc & _)]. exact Hc.
Qed.

(** X9: a candidate returned by the scoring fallback has confidence 9 or
    more, also when it comes from the last resort, whose own threshold is
    8. *)
Theorem scoringFallback_confidence (results : list Candidate)
    (parts : AddressParts.t) (c : Candidate) :
  scoringFallback results parts = Ret (Some c) ->
  In c results /\ 9 <= confidence c.
Proof. exact (scoringFallback_confidence_holds results parts c). Qed.

Lemma scoringFallback_confidence_witness :
  scoringFallback [Sample.romaNoRoad 9] (parseAddress EmptyString)
  = Ret (Some (Sample.romaNoRoad 9))
  /\ 9 <= confidence (Sample.romaNoRoad 9).
Proof.
  assert (H : scoringFallback [Sample.romaNoRoad 9] (parseAddress EmptyString)
              = Ret (Some (Sample.romaNoRoad 9))) by reflexivity.
  exact (conj H (proj2 (scoringFallback_confidence
                          [Sample.romaNoRoad 9] (parseAddress EmptyString)
                          (Sample.romaNoRoad 9) H))).
Defined.

(** X10: whatever [findBestResult] returns has a road or a square, or has
    confidence 9 or more. *)
Theorem findBestResult_road_or_confident
    (results : list Candidate) (addr : string) (c : Candidate) :
  findBestResult results addr = Ret (Some c) ->
  hasRoadOrSquare c = true \/ 9 <= confidence c.
Proof.
  unfold findBestResult, findBestResultWith.
  destruct results as [|r0 rs]; [discriminate|].
  destruct (selectionBranches (r0 :: rs) (parseAddress addr)) as [o|] eqn:E.
  - intros ->. left. now apply selectionBranches_In in E.
  - intro H. right.
    exact (proj2 (scoringFallback_confidence_holds (r0 :: rs) (parseAddress addr) c H)).
Qed.

Lemma findBestResult_road_or_confident_witness :
  findBestResult [Sample.viaRomaMilano; Sample.viaRomaFirenze]
    "Via Roma, Firenze, 50100" = Ret (Some Sample.viaRomaFirenze)
  /\ (hasRoadOrSquare Sample.viaRomaFirenze = true
      \/ 9 <= confidence Sample.viaRomaFirenze).
Proof.
  assert (H : findBestResult [Sample.viaRomaMilano; Sample.viaRomaFirenze]
                "Via Roma, Firenze, 50100" = Ret (Some Sample.viaRomaFirenze))
    by reflexivity.
  exact (conj H (findBestResult_road_or_confident _ _ _ H)).
Defined.

(** ** What findBestResult and the handler can end with *)

Lemma selectionBranches_throw_tagged (results : list Candidate)
    (parts : AddressParts.t) (m : string) :
  selectionBranches results parts = Some (Throw m) ->
  JS.startsWith m "VALIDATION_ERROR: " = true.
Proof.
  unfold selectionBranches.
  repeat match goal with
         | |- context [match find ?f ?l with _ => _ end] =>
             destruct (find f l)
         | |- context [match (if ?b then _ else _) with _ => _ end] =>
             destruct b
         | |- context [if nonEmpty ?s then _ else _] => destruct (nonEmpty s)
         | |- context [match filter ?f ?l with _ => _ end] =>
             destruct (filter f l)
         end;
    intro H; try discriminate; injection H as <-; reflexivity.
Qed.

Lemma selectionBranches_never_null (results : list Candidate)
    (parts : AddressParts.t) :
  selectionBranches results parts <> Some (Ret None).
Proof.
  unfold selectionBranches.
  repeat match goal with
         | |- context [match find ?f ?l with _ => _ end] =>
             destruct (find f l)
         | |- context [match (if ?b then _ else _) with _ => _ end] =>
             destruct b
         | |- context [if nonEmpty ?s then _ else _] => destruct (nonEmpty s)
         | |- context [match filter ?f ?l with _ => _ end] =>
             destruct (filter f l)
         end; discriminate.
Qed.

Lemma findBestResult_null_iff_empty_holds (results : list Candidate) (addr : string) :
  findBestResult results addr = Ret None <-> results = [].
Proof.
  split; [|intros ->; reflexivity].
  intro H. destruct results as [|r0 rs]; [reflexivity|]. exfalso.
  unfold findBestResult, findBestResultWith in H.
  destruct (selectionBranches (r0 :: rs) (parseAddress addr)) as [o|] eqn:E.
  - subst o. now apply selectionBranches_never_null in E.
  - unfold scoringFallbackWith, concludeScoring in H.
    set (loop := scoringLoop checkKnownMismatches (parseAddress addr) (r0 :: rs))
      in *.
    destruct (sortByScore (validResults loop)); [|discriminate].
    destruct (validationErrors loop) eqn:Ee; [|discriminate].
    destruct (filter _ (r0 :: rs)) eqn:F; [|discriminate].
    assert (Hc : 9 <= confidence r0).
    { destruct (Z_lt_le_dec (confidence r0) 9) as [Hlow|]; [|assumption].
      elim (fold_scoreStep_low_leaves_diagnostic checkKnownMismatches
              (parseAddress addr) (r0 :: rs)
              {| validationErrors := []; validResults := [] |}
              r0 (or_introl eq_refl) Hlow).
      exact Ee. }
    assert (Hin : In r0 (filter (fun r => 8 <=? confidence r) (r0 :: rs))).
    { apply filter_In. split; [now left|]. apply Z.leb_le. lia. }
    rewrite F in Hin. destruct Hin.
Qed.

(** X11: [findBestResult] returns [null] exactly when the list is empty. *)
Theorem findBestResult_null_iff_empty (results : list Candidate) (addr : string) :
  findBestResult results addr = Ret None <-> results = [].
Proof. exact (findBestResult_null_iff_empty_holds results addr). Qed.

Lemma startsWith_own_prefix (p s : string) : JS.startsWith (p ++ s) p = true.
Proof.
  induction p as [|a p IH]; [now destruct s|].
  cbn [append JS.startsWith]. now rewrite Ascii.eqb_refl, IH.
Qed.

Lemma findBestResult_throws_validation_error_holds
    (results : list Candidate) (addr : string) (m : string) :
  findBestResult results addr = Throw m ->
  JS.startsWith m "VALIDATION_ERROR: " = true.
Proof.
  unfold findBestResult, findBestResultWith.
  destruct (match results with
            | [] => None
            | _ :: _ => selectionBranches results (parseAddress addr)
            end) as [o|] eqn:E.
  - intros ->. destruct results; [discriminate|].
    now apply selectionBranches_throw_tagged in E.
  - unfold scoringFallbackWith, concludeScoring.
    destruct (sortByScore _); [|discriminate].
    destruct (validationErrors _) as [|d rest];
      [|intro H; injection H as <-; apply startsWith_own_prefix].
    destruct (filter _ results); discriminate.
Qed.

(** X12: every exception that leaves [findBestResult] carries a message that
    starts with the VALIDATION_ERROR tag. *)
Theorem findBestResult_throws_validation_error
    (results : list Candidate) (addr : string) (m : string) :
  findBestResult results addr = Throw m ->
  JS.startsWith m "VALIDATION_ERROR: " = true.
Proof. exact (findBestResult_throws_validation_error_holds results addr m). Qed.

Lemma findBestResult_throws_validation_error_witness :
  findBestResult [Sample.viaRomaMilano] "Via Roma, Firenze, 50100"
  = Throw (msgNoPostcodeResult "50100")
  /\ JS.startsWith (msgNoPostcodeResult "50100") "VALIDATION_ERROR: " = true.
Proof.
  assert (H : findBestResult [Sample.viaRomaMilano] "Via Roma, Firenze, 50100"
              = Throw (msgNoPostcodeResult "50100")) by reflexivity.
  exact (conj H (findBestResult_throws_validation_error _ _ _ H)).
Defined.

Lemma startsWith_tag_shorter (m : string) :
  JS.startsWith m "VALIDATION_ERROR: " = true ->
  JS.startsWith m "VALIDATION_ERROR:" = true.
Proof. apply (startsWith_app_l "VALIDATION_ERROR:" " "). Qed.

Lemma geocodeHandler_outcomes_holds (results : list Candidate) (addr : string) :
  (results = [] /\ geocodeHandler results addr = Throw msgNoResults)
  \/ (results <> []
      /\ ((exists c, In c results
                     /\ findBestResult results addr = Ret (Some c)
                     /\ geocodeHandler results addr = Ret (toLocation c))
          \/ (exists m, findBestResult results addr = Throw m
                        /\ JS.startsWith m "VALIDATION_ERROR: " = true
                        /\ geocodeHandler results addr = Throw m))).
Proof.
  destruct results as [|r0 rs]; [now left|].
  right. split; [discriminate|].
  unfold geocodeHandler, handleOutcome.
  destruct (findBestResult (r0 :: rs) addr) as [[c|]|m] eqn:E.
  - left. exists c. split; [now apply findBestResultWith_In in E | auto].
  - apply findBestResult_null_iff_empty_holds in E. discriminate.
  - right. exists m. pose proof (findBestResult_throws_validation_error_holds _ _ _ E) as Ht.
    now rewrite (startsWith_tag_shorter m Ht).
Qed.

(** X13: the handler of [geocode] ends in one of three ways: the location of
    a candidate of the list, the NO_RESULTS error for the empty list and
    only for it, or the very VALIDATION_ERROR that [findBestResult] threw;
    its own "Invalid or not found address" replacement is never used. *)
Theorem geocodeHandler_outcomes (results : list Candidate) (addr : string) :
  (results = [] /\ geocodeHandler results addr = Throw msgNoResults)
  \/ (results <> []
      /\ ((exists c, In c results
                     /\ findBestResult results addr = Ret (Some c)
                     /\ geocodeHandler results addr = Ret (toLocation c))
          \/ (exists m, findBestResult results addr = Throw m
                        /\ JS.startsWith m "VALIDATION_ERROR: " = true
                        /\ geocodeHandler results addr = Throw m))).
Proof. exact (geocodeHandler_outcomes_holds results addr). Qed.

Lemma scoringFallback_returns_first_best_witness :
  validResults (scoringLoop checkKnownMismatches (parseAddress ", Paris")
                  [MoreSamples.franceOnly 10; Sample.parisNoRoad 9])
  = ([] ++ {| result := MoreSamples.franceOnly 10; score := 10 |}
        :: [{| result := Sample.parisNoRoad 9; score := 10 |}])%list
  /\ scoringFallback [MoreSamples.franceOnly 10; Sample.parisNoRoad 9]
       (parseAddress ", Paris")
     = Ret (Some (MoreSamples.franceOnly 10)).
Proof.
  assert (H : validResults
                (scoringLoop checkKnownMismatches (parseAddress ", Paris")
                   [MoreSamples.franceOnly 10; Sample.parisNoRoad 9])
              = ([] ++ {| result := MoreSamples.franceOnly 10; score := 10 |}
                    :: [{| result := Sample.parisNoRoad 9; score := 10 |}])%list)
    by reflexivity.
  refine (conj H _).
  apply (scoringFallback_returns_first_best
           [MoreSamples.franceOnly 10; Sample.parisNoRoad 9]
           (parseAddress ", Paris") []
           {| result := MoreSamples.franceOnly 10; score := 10 |}
           [{| result := Sample.parisNoRoad 9; score := 10 |}] H).
  - intros v [].
  - intros v [<-|[]]. simpl. lia.
Defined.

(** ** The grounds on which a candidate is scored *)

Lemma validateAddressMatchWith_true
    (known : string -> string -> string -> Exc bool)
    (c : Components.t) (parts : AddressParts.t) :
  validateAddressMatchWith known c parts = Ret true ->
  Components.country_code c = Some "it"
  /\ fuzzyMatch (geocodedCityOf c) (AddressParts.city parts) = true.
Proof.
  unfold validateAddressMatchWith, geocodedCityOf.
  destruct (isTruthyAndEq (Components.country_code c) "it") eqn:Ecc;
    cbn [negb]; [|discriminate].
  destruct (fuzzyMatch _ (AddressParts.city parts)) eqn:Ecity;
    cbn [negb]; [|discriminate].
  intros _. split; [now apply isTruthyAndEq_Some | reflexivity].
Qed.

Lemma scoreStep_valid_grounds
    (known : string -> string -> string -> Exc bool)
    (parts : AddressParts.t) (st : LoopState) (r : Candidate) (v : Scored) :
  In v (validResults (scoreStep known parts st r)) ->
  In v (validResults st)
  \/ (result v = r
      /\ (isForeign (components r) = true
          \/ (Components.country_code (components r) = Some "it"
              /\ fuzzyMatch (geocodedCityOf (components r))
                   (AddressParts.city parts) = true))).
Proof.
  unfold scoreStep.
  destruct (confidence r <? 9); [now left|].
  fold (isForeign (components r)).
  destruct (isForeign (components r)) eqn:Ef.
  - destruct (scoreForeign parts (components r)); cbn; [now left|].
    intro H. apply in_app_or in H as [H|[<-|[]]]; [now left|].
    right. cbn. auto.
  - unfold italianTry.
    destruct (validateAddressMatchWith known (components r) parts)
      as [[|]|m] eqn:Ev.
    + cbn. intro H. apply in_app_or in H as [H|[<-|[]]]; [now left|].
      right. cbn. split; [reflexivity|]. right.
      now apply (validateAddressMatchWith_true known).
    + repeat match goal with
             | |- context [if ?b then _ else _] => destruct b
             | |- context [match known ?x ?y ?z with _ => _ end] =>
                 destruct (known x y z) as [[|]|]
             end; cbn; now left.
    + cbn. now left.
Qed.

Lemma fold_scoreStep_valid_grounds
    (known : string -> string -> string -> Exc bool) (parts : AddressParts.t)
    (v : Scored) (rs : list Candidate) :
  forall st,
    In v (validResults (fold_left (scoreStep known parts) rs st)) ->
    In v (validResults st)
    \/ (isForeign (components (result v)) = true
        \/ (Components.country_code (components (result v)) = Some "it"
            /\ fuzzyMatch (geocodedCityOf (components (result v)))
                 (AddressParts.city parts) = true)).
Proof.
  induction rs as [|r rs IH]; intros st H; cbn [fold_left] in H; [now left|].
  apply IH in H as [H|H]; [|now right].
  apply scoreStep_valid_grounds in H as [H|[<- H]]; auto.
Qed.

(** X14: the scoring loop accepts a candidate on one of two grounds only: a
    country code other than "it" in any capitalisation, or the country code
    "it" exactly together with a city that fuzzy-matches the parsed city. A
    candidate without country code, or with "IT", is never scored. *)
Theorem scoringLoop_valid_grounds
    (parts : AddressParts.t) (results : list Candidate) (v : Scored) :
  In v (validResults (scoringLoop checkKnownMismatches parts results)) ->
  In (result v) results
  /\ (isForeign (components (result v)) = true
      \/ (Components.country_code (components (result v)) = Some "it"
          /\ fuzzyMatch (geocodedCityOf (components (result v)))
               (AddressParts.city parts) = true)).
Proof.
  intro H. split; [now apply scoringLoop_valid_In in H|].
  apply fold_scoreStep_valid_grounds in H as [[]|H]. exact H.
Qed.

Lemma scoringLoop_valid_grounds_witness :
  In {| result := Sample.parisNoRoad 9; score := 10 |}
     (validResults (scoringLoop checkKnownMismatches (parseAddress ", Paris")
                      [MoreSamples.romaUpperCode 10; Sample.parisNoRoad 9]))
  /\ isForeign (components (Sample.parisNoRoad 9)) = true
  /\ validResults (scoringLoop checkKnownMismatches (parseAddress ", Roma")
                     [MoreSamples.romaUpperCode 10]) = [].
Proof.
  assert (H : In {| result := Sample.parisNoRoad 9; score := 10 |}
                (validResults
                   (scoringLoop checkKnownMismatches (parseAddress ", Paris")
                      [MoreSamples.romaUpperCode 10; Sample.parisNoRoad 9])))
    by (left; reflexivity).
  refine (conj H (conj _ _)); [|reflexivity].
  destruct (proj2 (scoringLoop_valid_grounds _ _ _ H)) as [Hf|[Hc _]].
  - exact Hf.
  - discriminate Hc.
Defined.

(** ** The branches that precede the scoring loop *)

Lemma filter_map_comm {A B : Type} (h : A -> B) (f : B -> bool) (l : list A) :
  filter f (map h l) = map h (filter (fun x => f (h x)) l).
Proof.
  induction l as [|x l IH]; [reflexivity|]. cbn [map filter].
  destruct (f (h x)); cbn [map]; now rewrite IH.
Qed.

Lemma find_map_comm {A B : Type} (h : A -> B) (f : B -> bool) (l : list A) :
  find f (map h l) = option_map h (find (fun x => f (h x)) l).
Proof.
  induction l as [|x l IH]; [reflexivity|]. cbn [map find].
  destruct (f (h x)); [reflexivity | exact IH].
Qed.

Lemma selectionBranches_withConfidence (g : Candidate -> Z)
    (results : list Candidate) (parts : AddressParts.t) :
  selectionBranches (map (withConfidence g) results) parts
  = match selectionBranches results parts with
    | Some (Ret (Some c)) => Some (Ret (Some (withConfidence g c)))
    | other => other
    end.
Proof.
  unfold selectionBranches.
  rewrite (filter_map_comm (withConfidence g) hasRoadOrSquare).
  change (fun x => hasRoadOrSquare (withConfidence g x)) with hasRoadOrSquare.
  rewrite !find_map_comm.
  change (fun x => postcodeAndRoadMatch parts (withConfidence g x))
    with (postcodeAndRoadMatch parts).
  change (fun x => postcodeMatch parts (withConfidence g x))
    with (postcodeMatch parts).
  change (fun x => roadAndCityMatches
                     (stripRoadType (AddressParts.street parts))
                     (AddressParts.city parts) (withConfidence g x))
    with (roadAndCityMatches (stripRoadType (AddressParts.street parts))
            (AddressParts.city parts)).
  change (fun x => roadMatches (stripRoadType (AddressParts.street parts))
                     (withConfidence g x))
    with (roadMatches (stripRoadType (AddressParts.street parts))).
  rewrite (filter_map_comm (withConfidence g)
             (roadMatches (stripRoadType (AddressParts.street parts)))).
  change (fun x => roadMatches (stripRoadType (AddressParts.street parts))
                     (withConfidence g x))
    with (roadMatches (stripRoadType (AddressParts.street parts))).
  destruct (nonEmpty (AddressParts.postcode parts)).
  { destruct (nonEmpty (AddressParts.street parts)).
    - destruct (find (postcodeAndRoadMatch parts) _); [reflexivity|].
      cbn [option_map].
      destruct (find (postcodeMatch parts) _); reflexivity.
    - destruct (find (postcodeMatch parts) _); reflexivity. }
  destruct (nonEmpty (AddressParts.street parts)).
  { destruct (nonEmpty (AddressParts.city parts)).
    - destruct (find (roadAndCityMatches _ _) _); [reflexivity|].
      cbn [option_map]. do 3 f_equal.
      unfold citySuggestion.
      destruct (filter (roadMatches _) (filter hasRoadOrSquare results));
        reflexivity.
    - destruct (find (roadMatches _) _); reflexivity. }
  destruct (filter hasRoadOrSquare results); reflexivity.
Qed.

(** X15: when the parse gives a postcode or a street, the outcome of
    [findBestResult] does not depend on the confidences: with other
    confidences the same candidate is returned, or the same error
    thrown. *)
Theorem findBestResult_branches_ignore_confidence
    (g : Candidate -> Z) (results : list Candidate) (addr : string) :
  nonEmpty (AddressParts.postcode (parseAddress addr))
  || nonEmpty (AddressParts.street (parseAddress addr)) = true ->
  findBestResult (map (withConfidence g) results) addr
  = match findBestResult results addr with
    | Ret (Some c) => Ret (Some (withConfidence g c))
    | other => other
    end.
Proof.
  intro Hparsed.
  unfold findBestResult, findBestResultWith.
  destruct results as [|r0 rs]; [reflexivity|].
  cbn [map].
  change (withConfidence g r0 :: map (withConfidence g) rs)
    with (map (withConfidence g) (r0 :: rs)).
  rewrite selectionBranches_withConfidence.
  destruct (selectionBranches (r0 :: rs) (parseAddress addr))
    as [[[c|]|m]|] eqn:E; try reflexivity.
  apply selectionBranches_none in E as (Hp & Hs & _).
  rewrite Hp, Hs in Hparsed. discriminate.
Qed.

Lemma findBestResult_branches_ignore_confidence_witness :
  nonEmpty (AddressParts.postcode (parseAddress "Via Roma, Firenze, 50100"))
  || nonEmpty (AddressParts.street (parseAddress "Via Roma, Firenze, 50100"))
  = true
  /\ findBestResult
       (map (withConfidence (fun _ => 0))
          [Sample.viaRomaMilano; Sample.viaRomaFirenze])
       "Via Roma, Firenze, 50100"
     = Ret (Some (withConfidence (fun _ => 0) Sample.viaRomaFirenze)).
Proof.
  assert (H : nonEmpty (AddressParts.postcode
                          (parseAddress "Via Roma, Firenze, 50100"))
              || nonEmpty (AddressParts.street
                             (parseAddress "Via Roma, Firenze, 50100")) = true)
    by reflexivity.
  refine (conj H _).
  exact (findBestResult_branches_ignore_confidence (fun _ => 0)
           [Sample.viaRomaMilano; Sample.viaRomaFirenze]
           "Via Roma, Firenze, 50100" H).
Defined.

(** X16: on a non-empty list, a parsed postcode decides alone: the result is
    a candidate with a road or a square and that postcode, or the
    VALIDATION_ERROR that names the postcode, thrown exactly when no
    candidate with a road or a square has it. *)
Theorem findBestResult_postcode_branch
    (results : list Candidate) (addr : string) :
  results <> [] ->
  nonEmpty (AddressParts.postcode (parseAddress addr)) = true ->
  (exists c,
      findBestResult results addr = Ret (Some c)
      /\ In c results /\ hasRoadOrSquare c = true
      /\ Components.postcode (components c)
         = Some (AddressParts.postcode (parseAddress addr)))
  \/ (findBestResult results addr
      = Throw (msgNoPostcodeResult (AddressParts.postcode (parseAddress addr)))
      /\ forall c, In c results -> hasRoadOrSquare c = true ->
                   Components.postcode (components c)
                   <> Some (AddressParts.postcode (parseAddress addr))).
Proof.
  intros Hne Hpc.
  set (parts := parseAddress addr) in *.
  unfold findBestResult, findBestResultWith. fold parts.
  destruct results as [|r0 rs]; [now elim Hne|].
  unfold selectionBranches. rewrite Hpc.
  destruct (if nonEmpty (AddressParts.street parts)
            then find (postcodeAndRoadMatch parts)
                   (filter hasRoadOrSquare (r0 :: rs))
            else None) as [c|] eqn:E1.
  { left. exists c. split; [reflexivity|].
    destruct (nonEmpty (AddressParts.street parts)); [|discriminate].
    apply find_filter_some in E1 as (Hin & Hrs & Hm).
    unfold postcodeAndRoadMatch in Hm.
    apply andb_true_iff in Hm as [Hm _]. apply andb_true_iff in Hm as [Hm _].
    apply isTruthyAndEq_Some in Hm. auto. }
  destruct (find (postcodeMatch parts) (filter hasRoadOrSquare (r0 :: rs)))
    as [c|] eqn:E2.
  { left. exists c. split; [reflexivity|].
    apply find_filter_some in E2 as (Hin & Hrs & Hm).
    apply isTruthyAndEq_Some in Hm. auto. }
  right. split; [reflexivity|].
  intros c Hin Hrs Hsame.
  assert (Hf : In c (filter hasRoadOrSquare (r0 :: rs)))
    by (apply filter_In; auto).
  pose proof (find_none _ _ E2 c Hf) as Hno.
  unfold postcodeMatch in Hno. rewrite Hsame in Hno.
  now rewrite (isTruthyAndEq_intro _ Hpc) in Hno.
Qed.

Lemma findBestResult_postcode_branch_witness :
  [Sample.viaRomaMilano] <> []
  /\ nonEmpty (AddressParts.postcode (parseAddress "Via Roma, Firenze, 50100"))
     = true
  /\ findBestResult [Sample.viaRomaMilano] "Via Roma, Firenze, 50100"
     = Throw (msgNoPostcodeResult "50100").
Proof.
  assert (H1 : [Sample.viaRomaMilano] <> []) by discriminate.
  assert (H2 : nonEmpty (AddressParts.postcode
                           (parseAddress "Via Roma, Firenze, 50100")) = true)
    by reflexivity.
  refine (conj H1 (conj H2 _)).
  destruct (findBestResult_postcode_branch
              [Sample.viaRomaMilano] "Via Roma, Firenze, 50100" H1 H2)
    as [(c & Hret & _)|[Hthrow _]].
  - discriminate Hret.
  - exact Hthrow.
Defined.

(** ** The positional templates of parseAddress *)

Lemma append_snoc_assoc (cur : string) (c : ascii) (a : string) :
  ((cur ++ String c EmptyString) ++ a)%string = (cur ++ String c a)%string.
Proof. induction cur as [|x cur IH]; cbn [append]; [reflexivity | now rewrite IH]. Qed.

Lemma append_empty_r (s : string) : (s ++ EmptyString)%string = s.
Proof. induction s as [|x s IH]; cbn [append]; [reflexivity | now rewrite IH]. Qed.

Lemma splitChar_aux_segment (sep : ascii) (a : string) :
  hasChar sep a = false ->
  forall cur rest,
    JS.splitChar_aux sep cur (a ++ String sep rest)
    = (cur ++ a)%string :: JS.splitChar_aux sep EmptyString rest.
Proof.
  induction a as [|x a IH]; intros Hno cur rest.
  - cbn [append JS.splitChar_aux]. now rewrite Ascii.eqb_refl, append_empty_r.
  - cbn [hasChar] in Hno. apply orb_false_iff in Hno as [Hx Ha].
    cbn [append JS.splitChar_aux]. rewrite Hx, (IH Ha).
    now rewrite append_snoc_assoc.
Qed.

Lemma splitChar_aux_last (sep : ascii) (a : string) :
  hasChar sep a = false ->
  forall cur, JS.splitChar_aux sep cur a = [(cur ++ a)%string].
Proof.
  induction a as [|x a IH]; intros Hno cur.
  - cbn [JS.splitChar_aux]. now rewrite append_empty_r.
  - cbn [hasChar] in Hno. apply orb_false_iff in Hno as [Hx Ha].
    cbn [JS.splitChar_aux]. rewrite Hx, (IH Ha).
    now rewrite append_snoc_assoc.
Qed.

(** Splitting what was joined with commas gives the segments back, as long
    as no segment holds a comma. *)
Lemma splitChar_join (first : string) (others : list string) :
  forallb (fun s => negb (hasChar "," s)) (first :: others) = true ->
  JS.splitChar "," (JS.join "," (first :: others)) = first :: others.
Proof.
  revert first. induction others as [|second others IH]; intros first H.
  - cbn in H. rewrite andb_true_r in H. apply negb_true_iff in H.
    unfold JS.splitChar, JS.join. cbn [String.concat].
    now rewrite splitChar_aux_last.
  - cbn [forallb] in H. apply andb_true_iff in H as [Hf Hrest].
    apply negb_true_iff in Hf.
    unfold JS.splitChar, JS.join.
    change (String.concat "," (first :: second :: others))
      with (first ++ String "," (String.concat "," (second :: others)))%string.
    rewrite (splitChar_aux_segment "," first Hf). cbn [append].
    f_equal. apply (IH second Hrest).
Qed.

Lemma normalizeStreet_cons (street : string) (rest : list string) :
  normalizeStreet (street :: rest) = normalizedStreet street :: rest.
Proof.
  unfold normalizedStreet, normalizeStreet.
  repeat match goal with
         | |- context [if ?b then _ else _] => destruct b
         end; reflexivity.
Qed.

Lemma orStr_extractPostcode (parts : list string) (i : nat) :
  orStr (extractPostcode parts)
        (if testPostcode (JS.at_ parts i) then JS.at_ parts i else EmptyString)
  = extractPostcode parts.
Proof.
  unfold orStr.
  destruct (JS.isEmpty (extractPostcode parts)) eqn:E; [|reflexivity].
  assert (He : extractPostcode parts = EmptyString)
    by (destruct (extractPostcode parts); [reflexivity | discriminate]).
  now rewrite (extractPostcode_empty parts i He).
Qed.

(** X17: the postcode of the parse is the result of the scan over the
    segments, street first; the test of the last segment never adds
    anything to it. It is empty or five digits. *)
Theorem parseAddress_postcode_is_scan (addr : string) :
  AddressParts.postcode (parseAddress addr)
  = extractPostcode (normalizeStreet (map JS.trim (JS.splitChar "," addr)))
  /\ (AddressParts.postcode (parseAddress addr) = EmptyString
      \/ isFiveDigits (AddressParts.postcode (parseAddress addr)) = true).
Proof.
  split; [|apply parseAddress_postcode_shape].
  unfold parseAddress.
  set (parts := normalizeStreet (map JS.trim (JS.splitChar "," addr))).
  repeat match goal with
         | |- context [if (?a =? ?b)%nat then _ else _] => destruct (a =? b)%nat
         end; cbv zeta; cbn [AddressParts.postcode];
    try apply orStr_extractPostcode.
  unfold orStr. now destruct (extractPostcode parts).
Qed.

Lemma parseAddress_three_segments_holds (a b c : string) :
  hasChar "," a = false -> hasChar "," b = false -> hasChar "," c = false ->
  parseAddress (JS.join "," [a; b; c])
  = {| AddressParts.country := None;
       AddressParts.street := normalizedStreet (JS.trim a);
       AddressParts.city := JS.trim b;
       AddressParts.province :=
         Some (if testPostcode (JS.trim c) then EmptyString else JS.trim c);
       AddressParts.county :=
         Some (if testPostcode (JS.trim c) then EmptyString else JS.trim c);
       AddressParts.postcode :=
         extractPostcode [normalizedStreet (JS.trim a); JS.trim b; JS.trim c] |}.
Proof.
  intros Ha Hb Hc. unfold parseAddress.
  rewrite splitChar_join by (cbn [forallb]; now rewrite Ha, Hb, Hc).
  cbn [map]. rewrite normalizeStreet_cons.
  cbn [length Nat.eqb]. cbv zeta.
  rewrite orStr_extractPostcode. reflexivity.
Qed.

(** X18: three comma-free segments are read as street, city and a last
    segment that is the province and county unless it holds a five-digit
    token, in which case province and county are empty. *)
Theorem parseAddress_three_segments (a b c : string) :
  hasChar "," a = false -> hasChar "," b = false -> hasChar "," c = false ->
  parseAddress (JS.join "," [a; b; c])
  = {| AddressParts.country := None;
       AddressParts.street := normalizedStreet (JS.trim a);
       AddressParts.city := JS.trim b;
       AddressParts.province :=
         Some (if testPostcode (JS.trim c) then EmptyString else JS.trim c);
       AddressParts.county :=
         Some (if testPostcode (JS.trim c) then EmptyString else JS.trim c);
       AddressParts.postcode :=
         extractPostcode [normalizedStreet (JS.trim a); JS.trim b; JS.trim c] |}.
Proof. exact (parseAddress_three_segments_holds a b c). Qed.



(** X20: five comma-free segments are read as country, street, city, county
    and a last segment for the scan; the road-type normalisation and the
    first turn of the scan then fall on the country segment, and no
    province is set. *)
Theorem parseAddress_five_segments (a b c d e : string) :
  hasChar "," a = false -> hasChar "," b = false -> hasChar "," c = false ->
  hasChar "," d = false -> hasChar "," e = false ->
  parseAddress (JS.join "," [a; b; c; d; e])
  = {| AddressParts.country := Some (normalizedStreet (JS.trim a));
       AddressParts.street := JS.trim b;
       AddressParts.city := JS.trim c;
       AddressParts.province := None;
       AddressParts.county := Some (JS.trim d);
       AddressParts.postcode :=
         extractPostcode [normalizedStreet (JS.trim a); JS.trim b; JS.trim c;
                          JS.trim d; JS.trim e] |}.
Proof.
  intros Ha Hb Hc Hd He. unfold parseAddress.
  rewrite splitChar_join by (cbn [forallb]; now rewrite Ha, Hb, Hc, Hd, He).
  cbn [map]. rewrite normalizeStreet_cons.
  cbn [length Nat.eqb]. cbv zeta.
  rewrite orStr_extractPostcode. reflexivity.
Qed.

Lemma parseAddress_three_segments_witness :
  hasChar "," "Via Roma" = false /\ hasChar "," " Firenze" = false
  /\ hasChar "," " 50100" = false
  /\ parseAddress "Via Roma, Firenze, 50100"
     = {| AddressParts.country := None;
          AddressParts.street := "Via Roma";
          AddressParts.city := "Firenze";
          AddressParts.province := Some EmptyString;
          AddressParts.county := Some EmptyString;
          AddressParts.postcode := "50100" |}.
Proof.
  refine (conj eq_refl (conj eq_refl (conj eq_refl _))).
  exact (parseAddress_three_segments "Via Roma" " Firenze" " 50100"
           eq_refl eq_refl eq_refl).
Defined.


Lemma parseAddress_five_segments_witness :
  hasChar "," "France" = false /\ hasChar "," " Rue de Rivoli" = false
  /\ hasChar "," " Paris" = false /\ hasChar "," " Ile-de-France" = false
  /\ hasChar "," " 75001" = false
  /\ parseAddress "France, Rue de Rivoli, Paris, Ile-de-France, 75001"
     = {| AddressParts.country := Some "France";
          AddressParts.street := "Rue de Rivoli";
          AddressParts.city := "Paris";
          AddressParts.province := None;
          AddressParts.county := Some "Ile-de-France";
          AddressParts.postcode := "75001" |}.
Proof.
  refine (conj eq_refl (conj eq_refl (conj eq_refl (conj eq_refl
           (conj eq_refl _))))).
  exact (parseAddress_five_segments "France" " Rue de Rivoli" " Paris"
           " Ile-de-France" " 75001" eq_refl eq_refl eq_refl eq_refl eq_refl).
Defined.

(** ** trim, toLowerCase and stripRoadType *)

Lemma lowerChar_isSpace (c : ascii) : JS.isSpace (JS.lowerChar c) = JS.isSpace c.
Proof. destruct c as [[] [] [] [] [] [] [] []]; reflexivity. Qed.

Lemma toLowerCase_app (a b : string) :
  JS.toLowerCase (a ++ b) = (JS.toLowerCase a ++ JS.toLowerCase b)%string.
Proof. induction a as [|x a IH]; cbn [append JS.toLowerCase]; [reflexivity | now rewrite IH]. Qed.

Lemma toLowerCase_isEmpty (s : string) :
  JS.isEmpty (JS.toLowerCase s) = JS.isEmpty s.
Proof. now destruct s. Qed.

Lemma toLowerCase_hasSpace (s : string) :
  hasSpace (JS.toLowerCase s) = hasSpace s.
Proof.
  induction s as [|x s IH]; [reflexivity|].
  cbn [JS.toLowerCase hasSpace]. now rewrite lowerChar_isSpace, IH.
Qed.

Lemma toLowerCase_trimStart (s : string) :
  JS.toLowerCase (JS.trimStart s) = JS.trimStart (JS.toLowerCase s).
Proof.
  induction s as [|x s IH]; [reflexivity|].
  cbn [JS.toLowerCase JS.trimStart]. rewrite lowerChar_isSpace.
  destruct (JS.isSpace x); [exact IH | reflexivity].
Qed.

Lemma toLowerCase_trimEnd (s : string) :
  JS.toLowerCase (JS.trimEnd s) = JS.trimEnd (JS.toLowerCase s).
Proof.
  induction s as [|x s IH]; [reflexivity|].
  cbn [JS.toLowerCase JS.trimEnd]. cbv zeta.
  rewrite lowerChar_isSpace, <- IH, toLowerCase_isEmpty.
  destruct (JS.isSpace x && JS.isEmpty (JS.trimEnd s)); reflexivity.
Qed.

Lemma toLowerCase_trim (s : string) :
  JS.toLowerCase (JS.trim s) = JS.trim (JS.toLowerCase s).
Proof. unfold JS.trim. now rewrite toLowerCase_trimEnd, toLowerCase_trimStart. Qed.

Lemma trimEnd_empty_iff (s : string) :
  JS.isEmpty (JS.trimEnd s) = allSpace s.
Proof.
  induction s as [|x s IH]; [reflexivity|].
  cbn [JS.trimEnd allSpace]. cbv zeta. rewrite IH.
  destruct (JS.isSpace x), (allSpace s); reflexivity.
Qed.

Lemma trimStart_empty_iff (s : string) :
  JS.isEmpty (JS.trimStart s) = allSpace s.
Proof.
  induction s as [|x s IH]; [reflexivity|].
  cbn [JS.trimStart allSpace].
  destruct (JS.isSpace x); [exact IH | reflexivity].
Qed.

Lemma isEmpty_true (s : string) : JS.isEmpty s = true -> s = EmptyString.
Proof. destruct s; [reflexivity | discriminate]. Qed.

Lemma trimStart_trimEnd (s : string) :
  JS.trimStart (JS.trimEnd s) = JS.trimEnd (JS.trimStart s).
Proof.
  induction s as [|x s IH]; [reflexivity|].
  cbn [JS.trimEnd JS.trimStart]. cbv zeta.
  destruct (JS.isSpace x) eqn:Ex; cbn [andb].
  - destruct (JS.isEmpty (JS.trimEnd s)) eqn:Ee.
    + rewrite trimEnd_empty_iff in Ee. rewrite <- trimStart_empty_iff in Ee.
      now rewrite (isEmpty_true _ Ee).
    + cbn [JS.trimStart]. now rewrite Ex.
  - cbn [JS.trimStart JS.trimEnd]. cbv zeta. now rewrite Ex.
Qed.

Lemma trimEnd_idem (s : string) : JS.trimEnd (JS.trimEnd s) = JS.trimEnd s.
Proof.
  induction s as [|x s IH]; [reflexivity|].
  cbn [JS.trimEnd]. cbv zeta.
  destruct (JS.isSpace x && JS.isEmpty (JS.trimEnd s)) eqn:E; [reflexivity|].
  cbn [JS.trimEnd]. cbv zeta. now rewrite IH, E.
Qed.

Lemma trim_trimEnd (s : string) : JS.trim (JS.trimEnd s) = JS.trim s.
Proof. unfold JS.trim. now rewrite trimStart_trimEnd, trimEnd_idem. Qed.

Lemma trim_empty_iff (s : string) : JS.isEmpty (JS.trim s) = allSpace s.
Proof.
  unfold JS.trim. rewrite <- trimStart_trimEnd, trimStart_empty_iff.
  rewrite <- (trimEnd_empty_iff (JS.trimEnd s)).
  now rewrite trimEnd_idem, trimEnd_empty_iff.
Qed.

Lemma trimEnd_app_word (word s : string) :
  hasSpace word = false ->
  JS.trimEnd (word ++ s) = (word ++ JS.trimEnd s)%string.
Proof.
  induction word as [|x word IH]; intro H; [reflexivity|].
  cbn [hasSpace] in H. apply orb_false_iff in H as [Hx Hw].
  cbn [append JS.trimEnd]. cbv zeta. now rewrite Hx, (IH Hw).
Qed.

Lemma trimStart_word (word s : string) :
  hasSpace word = false -> word <> EmptyString ->
  JS.trimStart (word ++ s) = (word ++ s)%string.
Proof.
  destruct word as [|x word]; intros H Hne; [now elim Hne|].
  cbn [hasSpace] in H. apply orb_false_iff in H as [Hx _].
  cbn [append JS.trimStart]. now rewrite Hx.
Qed.

Lemma roadTypes_are_words (t : string) :
  In t roadTypes -> hasSpace t = false /\ t <> EmptyString.
Proof.
  unfold roadTypes. cbn [In].
  intros [<-|[<-|[<-|[<-|[<-|[<-|[<-|[<-|[]]]]]]]]]; split;
    (reflexivity || discriminate).
Qed.

Lemma stripRoadType_loop_hit (t rest : string) :
  In t roadTypes ->
  stripRoadType_loop roadTypes (t ++ String " " rest) = JS.trim rest.
Proof.
  unfold roadTypes. cbn [In].
  intros [<-|[<-|[<-|[<-|[<-|[<-|[<-|[<-|[]]]]]]]]];
    destruct rest; reflexivity.
Qed.

Lemma stripRoadType_strips_holds (roadType name : string) :
  In (JS.toLowerCase roadType) roadTypes ->
  allSpace name = false ->
  stripRoadType (roadType ++ " " ++ name) = normalized name.
Proof.
  intros Hin Hname.
  destruct (roadTypes_are_words _ Hin) as [Hsp Hne].
  rewrite toLowerCase_hasSpace in Hsp.
  assert (Hne' : roadType <> EmptyString) by (intros ->; now apply Hne).
  unfold stripRoadType.
  assert (He : JS.isEmpty (roadType ++ " " ++ name) = false)
    by (destruct roadType; [now elim Hne' | reflexivity]).
  rewrite He. unfold JS.trim at 1.
  rewrite (trimStart_word roadType _ Hsp Hne').
  rewrite (trimEnd_app_word roadType _ Hsp).
  change (" " ++ name)%string with (String " " name).
  cbn [JS.trimEnd]. cbv zeta.
  rewrite trimEnd_empty_iff, Hname, andb_false_r.
  rewrite toLowerCase_app. cbn [JS.toLowerCase].
  change (JS.lowerChar " ") with " "%char.
  rewrite (stripRoadType_loop_hit _ _ Hin).
  rewrite toLowerCase_trimEnd, trim_trimEnd. reflexivity.
Qed.

(** X21: [stripRoadType] removes a leading road-type word, in any
    capitalisation, with the space after it, and returns what follows
    lower-cased and trimmed, provided something other than white space
    follows. *)
Theorem stripRoadType_strips (roadType name : string) :
  In (JS.toLowerCase roadType) roadTypes ->
  allSpace name = false ->
  stripRoadType (roadType ++ " " ++ name) = normalized name.
Proof. exact (stripRoadType_strips_holds roadType name). Qed.

Lemma stripRoadType_strips_witness :
  In (JS.toLowerCase "PIAZZALE") roadTypes
  /\ allSpace "Michelangelo  " = false
  /\ stripRoadType "PIAZZALE Michelangelo  " = "michelangelo".
Proof.
  assert (H1 : In (JS.toLowerCase "PIAZZALE") roadTypes)
    by (cbn; repeat (try (left; reflexivity); right)).
  assert (H2 : allSpace "Michelangelo  " = false) by reflexivity.
  exact (conj H1 (conj H2 (stripRoadType_strips "PIAZZALE" "Michelangelo  " H1 H2))).
Defined.

Lemma normalized_nonEmpty (name : string) :
  allSpace name = false -> normalized name <> EmptyString.
Proof.
  intros H E. unfold normalized in E.
  rewrite <- toLowerCase_trim in E.
  assert (He : JS.isEmpty (JS.toLowerCase (JS.trim name)) = true)
    by now rewrite E.
  rewrite toLowerCase_isEmpty, trim_empty_iff in He. congruence.
Qed.

Lemma fuzzyMatch_same (s : string) :
  s <> EmptyString -> fuzzyMatch s s = true.
Proof.
  intro H. unfold fuzzyMatch. apply isEmpty_false_iff in H. rewrite H.
  cbn [orb]. cbv zeta. now rewrite String.eqb_refl.
Qed.

(** X22: the road comparison of the street branches does not see the road
    type: a candidate's road and the input street that carry the same name
    behind two road types, the same or not, always match. *)
Theorem road_comparison_ignores_road_type (type1 type2 name : string) :
  In (JS.toLowerCase type1) roadTypes ->
  In (JS.toLowerCase type2) roadTypes ->
  allSpace name = false ->
  fuzzyMatch (stripRoadType (type1 ++ " " ++ name))
             (stripRoadType (type2 ++ " " ++ name)) = true.
Proof.
  intros H1 H2 Hname.
  rewrite (stripRoadType_strips_holds type1 name H1 Hname).
  rewrite (stripRoadType_strips_holds type2 name H2 Hname).
  apply fuzzyMatch_same. now apply normalized_nonEmpty.
Qed.

Lemma road_comparison_ignores_road_type_witness :
  In (JS.toLowerCase "Via") roadTypes
  /\ In (JS.toLowerCase "Piazza") roadTypes
  /\ allSpace "Garibaldi" = false
  /\ fuzzyMatch (stripRoadType "Via Garibaldi") (stripRoadType "Piazza Garibaldi")
     = true.
Proof.
  assert (H1 : In (JS.toLowerCase "Via") roadTypes) by (left; reflexivity).
  assert (H2 : In (JS.toLowerCase "Piazza") roadTypes)
    by (right; right; left; reflexivity).
  assert (H3 : allSpace "Garibaldi" = false) by reflexivity.
  exact (conj H1 (conj H2 (conj H3
           (road_comparison_ignores_road_type "Via" "Piazza" "Garibaldi" H1 H2 H3)))).
Defined.

(** ** From the handler's error to the text of the form *)

Lemma isEmpty_of_startsWith (m p : string) :
  p <> EmptyString -> JS.startsWith m p = true -> JS.isEmpty m = false.
Proof.
  intros Hp H. destruct m; [|reflexivity].
  destruct p; [now elim Hp | discriminate].
Qed.

(** X23: whatever error the response handler of [geocode] throws, the form
    shows its message with the tag removed: "No results found for this
    address." for the empty list and the text behind "VALIDATION_ERROR:"
    otherwise; its generic text is never shown for such an error. *)
Theorem handler_error_reaches_form
    (results : list Candidate) (addr : string) (m : string) :
  geocodeHandler results addr = Throw m ->
  catchErrorHandler (newError m) = newError m
  /\ ((results = [] /\ errorShownFor m = "No results found for this address.")
      \/ (results <> []
          /\ JS.startsWith m "VALIDATION_ERROR: " = true
          /\ errorShownFor m
             = JS.trim (JS.substringFrom (String.length "VALIDATION_ERROR:") m))).
Proof.
  intro H.
  destruct (geocodeHandler_outcomes_holds results addr)
    as [[-> Hm]|(Hne & [(c & _ & _ & Hc)|(m' & _ & Htag & Hm)])].
  - rewrite Hm in H.
    assert (m = msgNoResults) by congruence. subst m.
    split; [reflexivity|]. left. split; reflexivity.
  - rewrite Hc in H. discriminate.
  - rewrite Hm in H. assert (m' = m) by congruence. subst m'.
    assert (H1 : JS.startsWith m "VALIDATION_ERROR" = true)
      by (apply (startsWith_app_l "VALIDATION_ERROR" ": "); exact Htag).
    assert (H2 : JS.startsWith m "VALIDATION_ERROR:" = true)
      by (apply (startsWith_app_l "VALIDATION_ERROR:" " "); exact Htag).
    assert (H3 : JS.isEmpty m = false)
      by (apply (isEmpty_of_startsWith m "VALIDATION_ERROR:");
          [discriminate | exact H2]).
    assert (Hcatch : catchErrorHandler (newError m) = newError m).
    { unfold catchErrorHandler, messageStartsWith, newError.
      cbn [ErrorValue.message]. now rewrite H1. }
    split; [exact Hcatch|]. right. split; [exact Hne|]. split; [exact Htag|].
    unfold errorShownFor. rewrite Hcatch.
    unfold formErrorText, newError. cbn [ErrorValue.message].
    now rewrite H3, H2.
Qed.

Lemma handler_error_reaches_form_witness :
  geocodeHandler [Sample.viaRomaMilano] "Via Roma, Firenze, 50100"
  = Throw (msgNoPostcodeResult "50100")
  /\ errorShownFor (msgNoPostcodeResult "50100")
     = "No result found with postcode 50100 and a valid road or square. Please verify the entered address.".
Proof.
  assert (H : geocodeHandler [Sample.viaRomaMilano] "Via Roma, Firenze, 50100"
              = Throw (msgNoPostcodeResult "50100")) by reflexivity.
  refine (conj H _).
  destruct (proj2 (handler_error_reaches_form _ _ _ H))
    as [[Hnil _]|(_ & _ & Hshown)].
  - discriminate Hnil.
  - rewrite Hshown. reflexivity.
Defined.

(** X24: an error that does not carry one of the two tags of the handler,
    such as an HTTP failure, never reaches the form with its own message:
    the form shows one of five fixed texts, chosen by the status alone. *)
Theorem untagged_error_text (error : ErrorValue.t) :
  messageStartsWith error "VALIDATION_ERROR" = false ->
  messageStartsWith error "NO_RESULTS" = false ->
  formErrorText (catchErrorHandler error)
  = if statusIs error 402
    then "Daily API limit reached. Please try again tomorrow."
    else if statusIs error 403 then "Invalid API key."
    else if match ErrorValue.status error with
            | Some s => 500 <=? s
            | None => false
            end
    then "Service temporarily unavailable. Please try again later."
    else if statusIs error 0 then "Internet connection not available."
    else "Error in the geocoding service. Please try again later.".
Proof.
  intros H1 H2. unfold catchErrorHandler. rewrite H1, H2. cbn [orb].
  destruct (statusIs error 402); [reflexivity|].
  destruct (statusIs error 403); [reflexivity|].
  destruct (match ErrorValue.status error with
            | Some s => 500 <=? s
            | None => false
            end); [reflexivity|].
  destruct (statusIs error 0); reflexivity.
Qed.

Lemma untagged_error_text_witness :
  messageStartsWith
    (ErrorValue.mk (Some "Http failure response for (unknown url): 0 Unknown Error")
       (Some 0)) "VALIDATION_ERROR" = false
  /\ messageStartsWith
       (ErrorValue.mk (Some "Http failure response for (unknown url): 0 Unknown Error")
          (Some 0)) "NO_RESULTS" = false
  /\ formErrorText
       (catchErrorHandler
          (ErrorValue.mk
             (Some "Http failure response for (unknown url): 0 Unknown Error")
             (Some 0)))
     = "Internet connection not available.".
Proof.
  refine (conj eq_refl (conj eq_refl _)).
  exact (untagged_error_text
           (ErrorValue.mk
              (Some "Http failure response for (unknown url): 0 Unknown Error")
              (Some 0)) eq_refl eq_refl).
Defined.

(** ** White space around the parts *)

Lemma trimStart_idem (s : string) : JS.trimStart (JS.trimStart s) = JS.trimStart s.
Proof.
  induction s as [|x s IH]; [reflexivity|].
  cbn [JS.trimStart]. destruct (JS.isSpace x) eqn:E; [exact IH|].
  cbn [JS.trimStart]. now rewrite E.
Qed.

Lemma trim_idem (s : string) : JS.trim (JS.trim s) = JS.trim s.
Proof.
  unfold JS.trim.
  now rewrite (trimStart_trimEnd (JS.trimStart s)), trimStart_idem, trimEnd_idem.
Qed.


Lemma hasSpace_app (a b : string) :
  hasSpace (a ++ b) = hasSpace a || hasSpace b.
Proof.
  induction a as [|x a IH]; [reflexivity|].
  cbn [append hasSpace]. now rewrite IH, orb_assoc.
Qed.

Lemma splitWs_aux_words (s : string) :
  forall inRun cur,
    hasSpace cur = false ->
    Forall (fun w => hasSpace w = false) (JS.splitWs_aux inRun cur s).
Proof.
  induction s as [|c s IH]; intros inRun cur Hcur; cbn [JS.splitWs_aux].
  - now constructor.
  - destruct (JS.isSpace c) eqn:Ec.
    + destruct inRun; [now apply IH|].
      constructor; [exact Hcur | now apply IH].
    + apply IH. rewrite hasSpace_app, Hcur. cbn [hasSpace]. now rewrite Ec.
Qed.

Lemma splitWs_words (s : string) :
  Forall (fun w => hasSpace w = false) (JS.splitWs s).
Proof. now apply splitWs_aux_words. Qed.

Lemma append_nonempty_l (a b : string) :
  a <> EmptyString -> (a ++ b)%string <> EmptyString.
Proof. destruct a; [easy | discriminate]. Qed.

Lemma splitWs_aux_last_piece (s : string) :
  endsNonSpace s = true ->
  forall inRun cur, last (JS.splitWs_aux inRun cur s) EmptyString <> EmptyString.
Proof.
  induction s as [|c s IH]; intros H inRun cur; [discriminate|].
  cbn [endsNonSpace] in H. cbn [JS.splitWs_aux].
  destruct s as [|c' s'].
  - apply negb_true_iff in H. rewrite H. cbn [JS.splitWs_aux last].
    destruct cur; discriminate.
  - specialize (IH H).
    destruct (JS.isSpace c).
    + destruct inRun; [apply IH|].
      pose proof (IH true EmptyString) as Hl.
      destruct (JS.splitWs_aux true EmptyString (String c' s')) eqn:E;
        [now elim Hl | exact Hl].
    + apply IH.
Qed.

Lemma trimEnd_endsNonSpace (s : string) :
  JS.isEmpty (JS.trimEnd s) = false -> endsNonSpace (JS.trimEnd s) = true.
Proof.
  induction s as [|c s IH]; [discriminate|].
  cbn [JS.trimEnd]. cbv zeta.
  destruct (JS.isSpace c && JS.isEmpty (JS.trimEnd s)) eqn:E; [discriminate|].
  intros _. cbn [endsNonSpace].
  destruct (JS.trimEnd s) as [|c' r] eqn:Er.
  - cbn [JS.isEmpty] in E. rewrite andb_true_r in E. now rewrite E.
  - apply IH. reflexivity.
Qed.

Lemma trim_endsNonSpace (s : string) :
  JS.trim s <> EmptyString -> endsNonSpace (JS.trim s) = true.
Proof.
  unfold JS.trim. intro H. apply trimEnd_endsNonSpace.
  now apply isEmpty_false_iff.
Qed.

Lemma trimEnd_word (w : string) : hasSpace w = false -> JS.trimEnd w = w.
Proof.
  intro H. rewrite <- (append_empty_r w) at 1.
  rewrite (trimEnd_app_word w EmptyString H). apply append_empty_r.
Qed.

(** Words joined by single spaces, the last of them not empty, have no
    white space at their end. *)
Lemma trimEnd_join_words (ws : list string) :
  ws <> [] ->
  Forall (fun w => hasSpace w = false) ws ->
  last ws EmptyString <> EmptyString ->
  JS.trimEnd (JS.join " " ws) = JS.join " " ws
  /\ JS.join " " ws <> EmptyString.
Proof.
  unfold JS.join.
  induction ws as [|w ws IH]; intros Hne Hall Hlast; [now elim Hne|].
  inversion Hall as [|? ? Hw Hws]; subst.
  destruct ws as [|w' ws'].
  - cbn [String.concat last] in *. split; [now apply trimEnd_word | exact Hlast].
  - change (String.concat " " (w :: w' :: ws'))
      with (w ++ String " " (String.concat " " (w' :: ws')))%string.
    destruct (IH (ltac:(discriminate)) Hws Hlast) as [IH1 IH2].
    split.
    + rewrite (trimEnd_app_word w _ Hw). cbn [JS.trimEnd]. cbv zeta.
      rewrite IH1. apply isEmpty_false_iff in IH2. rewrite IH2.
      now rewrite andb_false_r.
    + destruct w; discriminate.
Qed.

Lemma removeAt_1_shape {A : Type} (l : list A) :
  (2 < length l)%nat ->
  exists a b c rest, l = a :: b :: c :: rest /\ JS.removeAt 1 l = a :: c :: rest.
Proof.
  destruct l as [|a [|b [|c rest]]]; cbn [length]; try lia.
  intros _. now exists a, b, c, rest.
Qed.

Lemma arrayIncludes_roadTypes_nonempty (w : string) :
  JS.arrayIncludes roadTypes (JS.toLowerCase w) = true -> w <> EmptyString.
Proof. intros H ->. discriminate. Qed.

(** The street that the normalisation builds has no white space around
    it. *)
Lemma dropped_second_word_trimmed (first : string) :
  (2 <? length (JS.splitWs (JS.trim first)))%nat = true ->
  JS.arrayIncludes roadTypes
    (JS.toLowerCase (JS.at_ (JS.splitWs (JS.trim first)) 0)) = true ->
  isTrimmed (JS.join " " (JS.removeAt 1 (JS.splitWs (JS.trim first)))).
Proof.
  intros Hlen Hw0. apply Nat.ltb_lt in Hlen.
  assert (Hne : JS.trim first <> EmptyString).
  { intro E. rewrite E in Hlen. cbn in Hlen. lia. }
  pose proof (splitWs_words (JS.trim first)) as Hall.
  pose proof (splitWs_aux_last_piece (JS.trim first) (trim_endsNonSpace first Hne)
                false EmptyString) as Hlast.
  fold (JS.splitWs (JS.trim first)) in Hlast.
  destruct (removeAt_1_shape _ Hlen) as (a & b & c & rest & E & Er).
  rewrite E in Hall, Hlast, Hw0. rewrite Er.
  unfold JS.at_ in Hw0. cbn [nth] in Hw0.
  apply arrayIncludes_roadTypes_nonempty in Hw0.
  inversion Hall as [|? ? Ha Hall']; subst.
  inversion Hall' as [|? ? Hb Hall'']; subst.
  assert (Hl : last (c :: rest) EmptyString <> EmptyString) by exact Hlast.
  assert (Hl2 : last (a :: c :: rest) EmptyString <> EmptyString) by exact Hl.
  destruct (trimEnd_join_words (a :: c :: rest) (ltac:(discriminate))
              (Forall_cons _ Ha Hall'') Hl2) as [Ht _].
  unfold isTrimmed, JS.trim.
  unfold JS.join in *.
  change (String.concat " " (a :: c :: rest))
    with (a ++ String " " (String.concat " " (c :: rest)))%string in *.
  rewrite (trimStart_word a _ Ha Hw0). exact Ht.
Qed.

Lemma legacy_branch_unreachable (w0 w1 : string) :
  JS.arrayIncludes roadTypes w0 = true -> String.eqb w0 w1 = true ->
  JS.arrayIncludes roadTypes w1 = true.
Proof. intros H E. apply String.eqb_eq in E. now subst. Qed.

Lemma normalizeStreet_drops_second_word_holds (street : string) (rest : list string) :
  normalizeStreet (street :: rest)
  = (if (2 <? length (JS.splitWs street))%nat
        && JS.arrayIncludes roadTypes
             (JS.toLowerCase (JS.at_ (JS.splitWs street) 0))
        && JS.arrayIncludes roadTypes
             (JS.toLowerCase (JS.at_ (JS.splitWs street) 1))
     then JS.join " " (JS.removeAt 1 (JS.splitWs street))
     else street) :: rest.
Proof.
  unfold normalizeStreet. cbv zeta.
  destruct ((2 <? length (JS.splitWs street))%nat) eqn:El; cbn [andb];
    [|reflexivity].
  destruct (JS.arrayIncludes roadTypes
              (JS.toLowerCase (JS.at_ (JS.splitWs street) 0))) eqn:E0;
    cbn [andb]; [|reflexivity].
  destruct (JS.arrayIncludes roadTypes
              (JS.toLowerCase (JS.at_ (JS.splitWs street) 1))) eqn:E1;
    [reflexivity|].
  destruct (String.eqb _ _) eqn:Ee; [|reflexivity].
  rewrite (legacy_branch_unreachable _ _ E0 Ee) in E1. discriminate.
Qed.

(** X25: [normalizeStreet] touches the first part only, and only by deleting
    the second of its words; the branch written for a repeated road type
    is never taken, because the branch before it already covers the
    case. *)
Theorem normalizeStreet_drops_second_word (street : string) (rest : list string) :
  normalizeStreet (street :: rest)
  = (if (2 <? length (JS.splitWs street))%nat
        && JS.arrayIncludes roadTypes
             (JS.toLowerCase (JS.at_ (JS.splitWs street) 0))
        && JS.arrayIncludes roadTypes
             (JS.toLowerCase (JS.at_ (JS.splitWs street) 1))
     then JS.join " " (JS.removeAt 1 (JS.splitWs street))
     else street) :: rest.
Proof. exact (normalizeStreet_drops_second_word_holds street rest). Qed.

Lemma normalizeStreet_trimmed (l : list string) :
  Forall isTrimmed (normalizeStreet (map JS.trim l)).
Proof.
  assert (Hall : Forall isTrimmed (map JS.trim l)).
  { apply Forall_forall. intros x Hx. apply in_map_iff in Hx as (y & <- & _).
    apply trim_idem. }
  destruct l as [|first rest]; [constructor|].
  cbn [map] in *. rewrite normalizeStreet_drops_second_word_holds.
  inversion Hall as [|? ? Hf Hr]; subst.
  constructor; [|exact Hr].
  destruct ((2 <? length (JS.splitWs (JS.trim first)))%nat) eqn:El;
    cbn [andb]; [|exact Hf].
  destruct (JS.arrayIncludes roadTypes
              (JS.toLowerCase (JS.at_ (JS.splitWs (JS.trim first)) 0))) eqn:E0;
    cbn [andb]; [|exact Hf].
  destruct (JS.arrayIncludes roadTypes
              (JS.toLowerCase (JS.at_ (JS.splitWs (JS.trim first)) 1)));
    [|exact Hf].
  now apply dropped_second_word_trimmed.
Qed.

Lemma at_trimmed (parts : list string) (i : nat) :
  Forall isTrimmed parts -> isTrimmed (JS.at_ parts i).
Proof.
  intro H. unfold JS.at_.
  destruct (nth_in_or_default i parts EmptyString) as [ Hin | -> ].
  - now apply (proj1 (Forall_forall _ _) H).
  - reflexivity.
Qed.

(** X26: no field of the parsed address has white space around it. *)
Theorem parseAddress_fields_trimmed (addr : string) :
  isTrimmed (AddressParts.street (parseAddress addr))
  /\ isTrimmed (AddressParts.city (parseAddress addr))
  /\ isTrimmed (orEmpty (AddressParts.province (parseAddress addr)))
  /\ isTrimmed (orEmpty (AddressParts.county (parseAddress addr)))
  /\ isTrimmed (orEmpty (AddressParts.country (parseAddress addr)))
  /\ isTrimmed (AddressParts.postcode (parseAddress addr)).
Proof.
  assert (Hpost : isTrimmed (AddressParts.postcode (parseAddress addr))).
  { destruct (parseAddress_postcode_shape addr) as [ -> | H ]; [reflexivity|].
    destruct (AddressParts.postcode (parseAddress addr))
      as [|a [|b [|c [|d [|e [|f r]]]]]]; try discriminate.
    cbn [isFiveDigits] in H.
    apply andb_true_iff in H as [H He]. apply andb_true_iff in H as [H Hd4].
    apply andb_true_iff in H as [H Hc]. apply andb_true_iff in H as [H Hb].
    assert (Hd : forall x, JS.isDigit x = true -> JS.isSpace x = false)
      by (intros [[] [] [] [] [] [] [] []]; (reflexivity || discriminate)).
    unfold isTrimmed, JS.trim.
    cbn [JS.trimStart]. rewrite (Hd a H).
    cbn [JS.trimEnd JS.isEmpty andb]. cbv zeta.
    rewrite !Hd by assumption. reflexivity. }
  repeat split; try exact Hpost.
  all: unfold parseAddress;
    pose proof (normalizeStreet_trimmed (JS.splitChar "," addr)) as Hall;
    set (parts := normalizeStreet (map JS.trim (JS.splitChar "," addr))) in *;
    repeat match goal with
           | |- context [if (?a =? ?b)%nat then _ else _] => destruct (a =? b)%nat
           end; cbv zeta;
    cbn [AddressParts.street AddressParts.city AddressParts.province
         AddressParts.county AddressParts.country orEmpty];
    repeat match goal with
           | |- context [if testPostcode ?x then _ else _] =>
               destruct (testPostcode x)
           end;
    try (now apply at_trimmed); reflexivity.
Qed.

(** ** The query of geocode against the parts of parseAddress *)

Lemma hasChar_app (c : ascii) (a b : string) :
  hasChar c (a ++ b) = hasChar c a || hasChar c b.
Proof.
  induction a as [|x a IH]; [reflexivity|].
  cbn [append hasChar]. now rewrite IH, orb_assoc.
Qed.

Lemma splitChar_aux_pieces (sep : ascii) (s : string) :
  forall cur,
    hasChar sep cur = false ->
    Forall (fun p => hasChar sep p = false) (JS.splitChar_aux sep cur s).
Proof.
  induction s as [|c s IH]; intros cur Hcur; cbn [JS.splitChar_aux].
  - now constructor.
  - destruct (Ascii.eqb c sep) eqn:Ec.
    + constructor; [exact Hcur | now apply IH].
    + apply IH. rewrite hasChar_app, Hcur. cbn [hasChar]. now rewrite Ec.
Qed.

Lemma splitChar_pieces (sep : ascii) (s : string) :
  Forall (fun p => hasChar sep p = false) (JS.splitChar sep s).
Proof. now apply splitChar_aux_pieces. Qed.

Lemma hasChar_trimStart (c : ascii) (s : string) :
  hasChar c s = false -> hasChar c (JS.trimStart s) = false.
Proof.
  induction s as [|x s IH]; intro H; [reflexivity|].
  cbn [JS.trimStart]. destruct (JS.isSpace x); [|exact H].
  cbn [hasChar] in H. apply orb_false_iff in H as [_ H]. now apply IH.
Qed.

Lemma hasChar_trimEnd (c : ascii) (s : string) :
  hasChar c s = false -> hasChar c (JS.trimEnd s) = false.
Proof.
  induction s as [|x s IH]; intro H; [reflexivity|].
  cbn [hasChar] in H. apply orb_false_iff in H as [Hx Hs].
  cbn [JS.trimEnd]. cbv zeta.
  destruct (JS.isSpace x && JS.isEmpty (JS.trimEnd s)); [reflexivity|].
  cbn [hasChar]. now rewrite Hx, (IH Hs).
Qed.

Lemma hasChar_trim (c : ascii) (s : string) :
  hasChar c s = false -> hasChar c (JS.trim s) = false.
Proof. intro H. now apply hasChar_trimEnd, hasChar_trimStart. Qed.

Lemma splitWs_aux_pieces (c : ascii) (s : string) :
  forall inRun cur,
    hasChar c cur = false -> hasChar c s = false ->
    Forall (fun p => hasChar c p = false) (JS.splitWs_aux inRun cur s).
Proof.
  induction s as [|x s IH]; intros inRun cur Hcur Hs; cbn [JS.splitWs_aux].
  - now constructor.
  - cbn [hasChar] in Hs. apply orb_false_iff in Hs as [Hx Hs].
    destruct (JS.isSpace x).
    + destruct inRun; [now apply IH|].
      constructor; [exact Hcur | now apply IH].
    + apply IH; [|exact Hs].
      rewrite hasChar_app, Hcur. cbn [hasChar]. now rewrite Hx.
Qed.

Lemma Forall_removeAt {A : Type} (P : A -> Prop) (i : nat) (l : list A) :
  Forall P l -> Forall P (JS.removeAt i l).
Proof.
  revert i. induction l as [|x l IH]; intros i H; [now destruct i|].
  inversion H; subst. destruct i; cbn [JS.removeAt]; [assumption|].
  constructor; auto.
Qed.

Lemma hasChar_join_space (c : ascii) (ws : list string) :
  Ascii.eqb " " c = false ->
  Forall (fun p => hasChar c p = false) ws ->
  hasChar c (JS.join " " ws) = false.
Proof.
  intros Hc. unfold JS.join.
  induction ws as [|w ws IH]; intro H; [reflexivity|].
  inversion H as [|? ? Hw Hws]; subst.
  destruct ws as [|w' ws']; [exact Hw|].
  change (String.concat " " (w :: w' :: ws'))
    with (w ++ String " " (String.concat " " (w' :: ws')))%string.
  rewrite hasChar_app, Hw. cbn [hasChar orb]. now rewrite Hc, (IH Hws).
Qed.

(** Splitting on commas what was joined with a comma and a space gives the
    first segment back and the others behind a space. *)
Lemma splitChar_join_comma_space (others : list string) :
  forall cur first,
    hasChar "," cur = false ->
    Forall (fun p => hasChar "," p = false) (first :: others) ->
    JS.splitChar_aux "," cur (JS.join ", " (first :: others))
    = (cur ++ first)%string :: map (String " ") others.
Proof.
  unfold JS.join.
  induction others as [|second others IH]; intros cur first Hcur H;
    inversion H as [|? ? Hf Hrest]; subst.
  - cbn [String.concat map]. now apply splitChar_aux_last.
  - change (String.concat ", " (first :: second :: others))
      with (first ++ String "," (String " "
              (String.concat ", " (second :: others))))%string.
    rewrite (splitChar_aux_segment "," first Hf).
    cbn [JS.splitChar_aux]. change (Ascii.eqb " " ",") with false. cbv iota.
    cbn [append map].
    f_equal. now rewrite (IH (String " " EmptyString) second eq_refl Hrest).
Qed.

(** X27: the address that [geocode] sends to the provider and the parts that
    [parseAddress] builds agree: split on commas and trimmed, the query
    gives exactly the parts, with the same street after the removal of a
    second road-type word. *)
Theorem addressForQuery_matches_parseAddress (address : string) :
  map JS.trim (JS.splitChar "," (addressForQuery address))
  = normalizeStreet (map JS.trim (JS.splitChar "," address)).
Proof.
  unfold addressForQuery.
  pose proof (splitChar_pieces "," address) as Hpieces.
  destruct (JS.splitChar "," address) as [|first rest] eqn:E.
  { now rewrite E. }
  cbv zeta. cbn [map]. rewrite normalizeStreet_drops_second_word_holds.
  inversion Hpieces as [|? ? Hfirst Hrest]; subst.
  set (words := JS.splitWs (JS.trim first)).
  destruct ((2 <? length words)%nat) eqn:El; cbn [andb];
    [|now rewrite E].
  destruct (JS.arrayIncludes roadTypes (JS.toLowerCase (JS.at_ words 0)))
    eqn:E0; cbn [andb]; [|now rewrite E].
  destruct (JS.arrayIncludes roadTypes (JS.toLowerCase (JS.at_ words 1)))
    eqn:E1.
  - assert (Hnew : hasChar "," (JS.join " " (JS.removeAt 1 words)) = false).
    { apply hasChar_join_space; [reflexivity|].
      apply Forall_removeAt. apply splitWs_aux_pieces; [reflexivity|].
      now apply hasChar_trim. }
    unfold JS.splitChar.
    rewrite (splitChar_join_comma_space rest EmptyString _ eq_refl
               (Forall_cons _ Hnew Hrest)).
    cbn [append map]. rewrite map_map.
    unfold words in *.
    rewrite (dropped_second_word_trimmed first El E0).
    reflexivity.
  - destruct (String.eqb _ _) eqn:Ee; [|now rewrite E].
    rewrite (legacy_branch_unreachable _ _ E0 Ee) in E1. discriminate.
Qed.




(** ** From the form to the parsed address *)












Example italian_form_with_county :
  formAddress FormSamples.viaRomaFirenze = "Via Roma, Firenze, FI, 50100"
  /\ AddressParts.province (parseAddress (formAddress FormSamples.viaRomaFirenze))
     = Some "FI".
Proof. split; reflexivity. Qed.

(** ** Which diagnostic the scoring fallback reports *)

(** X30: when no candidate is scored and the first candidate of the list has
    confidence below 9, the error of the scoring fallback quotes the low
    confidence of that first candidate, whatever the diagnostics of the
    candidates that follow. *)
Theorem scoringFallback_reports_first_diagnostic
    (first : Candidate) (others : list Candidate) (parts : AddressParts.t) :
  confidence first < 9 ->
  validResults (scoringLoop checkKnownMismatches parts (first :: others)) = [] ->
  scoringFallback (first :: others) parts
  = Throw (msgFirstDiagnostic (msgLowConfidence (confidence first))).
Proof.
  intros Hlow Hvalid.
  unfold scoringFallback, scoringFallbackWith, concludeScoring.
  rewrite Hvalid. cbn [sortByScore].
  unfold scoringLoop. cbn [fold_left].
  rewrite (scoreStep_low_confidence checkKnownMismatches parts _ first Hlow).
  destruct (fold_scoreStep_errors_grow checkKnownMismatches parts others
              (pushError {| validationErrors := []; validResults := [] |}
                 (msgLowConfidence (confidence first)))) as [suffix E].
  rewrite E. reflexivity.
Qed.

Lemma scoringFallback_reports_first_diagnostic_witness :
  confidence (Sample.romaNoRoad 5) < 9
  /\ validResults
       (scoringLoop checkKnownMismatches (parseAddress ", Firenze, Milano")
          [Sample.romaNoRoad 5; Sample.firenzeNoRoad (Some "Firenze") None 9])
     = []
  /\ scoringFallback
       [Sample.romaNoRoad 5; Sample.firenzeNoRoad (Some "Firenze") None 9]
       (parseAddress ", Firenze, Milano")
     = Throw "VALIDATION_ERROR: Low confidence (5/10). Please verify the entered address.".
Proof.
  assert (H1 : confidence (Sample.romaNoRoad 5) < 9) by (simpl; lia).
  assert (H2 : validResults
                 (scoringLoop checkKnownMismatches
                    (parseAddress ", Firenze, Milano")
                    [Sample.romaNoRoad 5;
                     Sample.firenzeNoRoad (Some "Firenze") None 9]) = [])
    by reflexivity.
  refine (conj H1 (conj H2 _)).
  exact (scoringFallback_reports_first_diagnostic (Sample.romaNoRoad 5)
           [Sample.firenzeNoRoad (Some "Firenze") None 9]
           (parseAddress ", Firenze, Milano") H1 H2).
Defined.

(** * The selection on a store *)

Local Open Scope list_scope.

(** ** Running the statements *)

Lemma bindRun_done {A B : Type} (m : Run A) (k : A -> Run B) (h h' : Heap) (a : A) :
  m h = (h', Done a) -> bindRun m k h = k a h'.
Proof. unfold bindRun. now intros ->. Qed.

Lemma bindRun_raised {A B : Type} (m : Run A) (k : A -> Run B) (h h' : Heap)
    (e : string) :
  m h = (h', Raised e) -> bindRun m k h = (h', Raised e).
Proof. unfold bindRun. now intros ->. Qed.

Lemma nth_error_before (h tail : Heap) (l : Loc) (c : Cell) :
  nth_error h l = Some c -> nth_error (h ++ tail) l = Some c.
Proof.
  intro H. rewrite nth_error_app1; [exact H|].
  apply nth_error_Some. congruence.
Qed.

Lemma nth_error_at_end (h tail : Heap) (c : Cell) :
  nth_error (h ++ c :: tail) (length h) = Some c.
Proof. rewrite nth_error_app2, Nat.sub_diag; [reflexivity | lia]. Qed.

Lemma update_at_end (h tail : Heap) (c c' : Cell) :
  update (length h) c' (h ++ c :: tail) = (h ++ c' :: tail)%list.
Proof. induction h as [|x h IH]; simpl; [reflexivity | now rewrite IH]. Qed.

Lemma run_load (h : Heap) (l : Loc) (c : Cell) :
  nth_error h l = Some c -> load l h = (h, Done c).
Proof. unfold load. now intros ->. Qed.

Lemma run_readCandidate (h : Heap) (l : Loc) (r : Candidate) :
  nth_error h l = Some (CandidateCell r) -> readCandidate l h = (h, Done r).
Proof.
  intro H. unfold readCandidate. now rewrite (bindRun_done _ _ _ _ _ (run_load _ _ _ H)).
Qed.

Lemma run_readRefs (h : Heap) (l : Loc) (items : list Loc) :
  nth_error h l = Some (RefArray items) -> readRefs l h = (h, Done items).
Proof.
  intro H. unfold readRefs. now rewrite (bindRun_done _ _ _ _ _ (run_load _ _ _ H)).
Qed.

Lemma run_readStrings (h : Heap) (l : Loc) (items : list string) :
  nth_error h l = Some (StringArray items) -> readStrings l h = (h, Done items).
Proof.
  intro H. unfold readStrings. now rewrite (bindRun_done _ _ _ _ _ (run_load _ _ _ H)).
Qed.

Lemma run_readScored (h : Heap) (l r : Loc) (s : Z) :
  nth_error h l = Some (ScoredCell r s) -> readScored l h = (h, Done (r, s)).
Proof.
  intro H. unfold readScored. now rewrite (bindRun_done _ _ _ _ _ (run_load _ _ _ H)).
Qed.

Lemma run_store_at_end (h tail : Heap) (c c' : Cell) :
  store (length h) c' (h ++ c :: tail) = ((h ++ c' :: tail)%list, Done tt).
Proof.
  unfold store.
  assert (H : (length h <? length (h ++ c :: tail))%nat = true).
  { apply Nat.ltb_lt. rewrite length_app. simpl. lia. }
  now rewrite H, update_at_end.
Qed.

Lemma run_pushString (h tail : Heap) (errs : list string) (s : string) :
  pushString (length h) s (h ++ StringArray errs :: tail)
  = ((h ++ StringArray (errs ++ [s]) :: tail)%list, Done tt).
Proof.
  unfold pushString.
  rewrite (bindRun_done _ _ _ _ _
             (run_readStrings _ _ _ (nth_error_at_end h tail _))).
  apply run_store_at_end.
Qed.

Lemma run_pushRef (h tail : Heap) (items : list Loc) (x : Loc) :
  pushRef (length h) x (h ++ RefArray items :: tail)
  = ((h ++ RefArray (items ++ [x]) :: tail)%list, Done tt).
Proof.
  unfold pushRef.
  rewrite (bindRun_done _ _ _ _ _
             (run_readRefs _ _ _ (nth_error_at_end h tail _))).
  apply run_store_at_end.
Qed.

(** ** Arrays of references to candidates *)

Lemma holdsArray_app (h tail : Heap) (array : Loc) (refs : list (Loc * Candidate)) :
  holdsArray h array refs -> holdsArray (h ++ tail) array refs.
Proof.
  intros [Ha Hr]. split; [now apply nth_error_before|].
  eapply Forall_impl; [|exact Hr].
  intros p Hp. now apply nth_error_before.
Qed.

Lemma run_filterM (p : Candidate -> bool) (h : Heap)
    (refs : list (Loc * Candidate)) :
  Forall (fun x => nth_error h (fst x) = Some (CandidateCell (snd x))) refs ->
  filterM (testCandidate p) (map fst refs) h
  = (h, Done (map fst (filter (onRecord snd p) refs))).
Proof.
  induction 1 as [|x refs Hx Hrefs IH]; [reflexivity|].
  cbn [map filterM filter].
  assert (Ht : testCandidate p (fst x) h = (h, Done (p (snd x)))).
  { unfold testCandidate. now rewrite (bindRun_done _ _ _ _ _ (run_readCandidate _ _ _ Hx)). }
  rewrite (bindRun_done _ _ _ _ _ Ht), (bindRun_done _ _ _ _ _ IH).
  change (onRecord snd p x) with (p (snd x)).
  unfold ret. destruct (p (snd x)); reflexivity.
Qed.

Lemma run_findM (p : Candidate -> bool) (h : Heap)
    (refs : list (Loc * Candidate)) :
  Forall (fun x => nth_error h (fst x) = Some (CandidateCell (snd x))) refs ->
  findM (testCandidate p) (map fst refs) h
  = (h, Done (option_map fst (find (onRecord snd p) refs))).
Proof.
  induction 1 as [|x refs Hx Hrefs IH]; [reflexivity|].
  cbn [map findM find].
  assert (Ht : testCandidate p (fst x) h = (h, Done (p (snd x)))).
  { unfold testCandidate. now rewrite (bindRun_done _ _ _ _ _ (run_readCandidate _ _ _ Hx)). }
  rewrite (bindRun_done _ _ _ _ _ Ht).
  change (onRecord snd p x) with (p (snd x)).
  destruct (p (snd x)); [reflexivity | exact IH].
Qed.

Lemma run_filterRefs (p : Candidate -> bool) (h : Heap) (array : Loc)
    (refs : list (Loc * Candidate)) :
  holdsArray h array refs ->
  filterRefs p array h
  = ((h ++ [RefArray (map fst (filter (onRecord snd p) refs))])%list,
     Done (length h)).
Proof.
  intros [Ha Hr]. unfold filterRefs.
  rewrite (bindRun_done _ _ _ _ _ (run_readRefs _ _ _ Ha)).
  now rewrite (bindRun_done _ _ _ _ _ (run_filterM p _ _ Hr)).
Qed.

Lemma holdsArray_filtered (p : Candidate -> bool) (h : Heap) (array : Loc)
    (refs : list (Loc * Candidate)) :
  holdsArray h array refs ->
  holdsArray (h ++ [RefArray (map fst (filter (onRecord snd p) refs))])
    (length h) (filter (onRecord snd p) refs).
Proof.
  intros [Ha Hr]. split; [apply nth_error_at_end|].
  apply Forall_forall. intros x Hx. apply filter_In in Hx as [Hx _].
  apply nth_error_before. revert x Hx. now apply Forall_forall.
Qed.

Lemma run_findRef (p : Candidate -> bool) (h : Heap) (array : Loc)
    (refs : list (Loc * Candidate)) :
  holdsArray h array refs ->
  findRef p array h = (h, Done (option_map fst (find (onRecord snd p) refs))).
Proof.
  intros [Ha Hr]. unfold findRef.
  rewrite (bindRun_done _ _ _ _ _ (run_readRefs _ _ _ Ha)).
  now apply run_findM.
Qed.

(** ** The branches that precede the scoring loop, on the store *)

Lemma run_selectionBranchesM (h : Heap) (results : Loc)
    (refs : list (Loc * Candidate)) (parts : AddressParts.t) :
  holdsArray h results refs ->
  exists (fresh : list Cell) (r : Res (option Loc)),
    selectionBranchesM results parts h = (h ++ fresh, r)
    /\ match selectionBranchesOn snd refs parts with
       | Some (Ret (Some t)) => r = Done (Some (fst t))
       | Some (Ret None) => False
       | Some (Throw m) => r = Raised m
       | None => r = Done None
       end.
Proof.
  intro Hrefs.
  unfold selectionBranchesM, selectionBranchesOn.
  rewrite (bindRun_done _ _ _ _ _ (run_filterRefs hasRoadOrSquare _ _ _ Hrefs)).
  pose proof (holdsArray_filtered hasRoadOrSquare _ _ _ Hrefs) as Hf.
  set (filtered := filter (onRecord snd hasRoadOrSquare) refs) in *.
  set (h1 := h ++ [RefArray (map fst filtered)]) in *.
  destruct (nonEmpty (AddressParts.postcode parts)).
  - (* a postcode *)
    assert (Hsecond :
      exists r,
        bindRun (findRef (postcodeMatch parts) (length h))
          (fun exactPostcode =>
             match exactPostcode with
             | Some l => ret (Some l)
             | None => raise (msgNoPostcodeResult (AddressParts.postcode parts))
             end) h1 = (h1, r)
        /\ match find (onRecord snd (postcodeMatch parts)) filtered with
           | Some t => r = Done (Some (fst t))
           | None => r = Raised (msgNoPostcodeResult (AddressParts.postcode parts))
           end).
    { rewrite (bindRun_done _ _ _ _ _ (run_findRef (postcodeMatch parts) _ _ _ Hf)).
      destruct (find (onRecord snd (postcodeMatch parts)) filtered) as [t|];
        eexists; split; reflexivity. }
    destruct (nonEmpty (AddressParts.street parts)).
    + rewrite (bindRun_done _ _ _ _ _
                 (run_findRef (postcodeAndRoadMatch parts) _ _ _ Hf)).
      destruct (find (onRecord snd (postcodeAndRoadMatch parts)) filtered) as [t|].
      * exists [RefArray (map fst filtered)]. eexists. split; reflexivity.
      * cbn [option_map]. destruct Hsecond as (r & Hrun & Hr).
        exists [RefArray (map fst filtered)], r. split; [exact Hrun|].
        destruct (find (onRecord snd (postcodeMatch parts)) filtered); exact Hr.
    + unfold ret at 1. unfold bindRun at 1.
      destruct Hsecond as (r & Hrun & Hr).
      exists [RefArray (map fst filtered)], r. split; [exact Hrun|].
      destruct (find (onRecord snd (postcodeMatch parts)) filtered); exact Hr.
  - destruct (nonEmpty (AddressParts.street parts)).
    + cbv zeta.
      set (stripped := stripRoadType (AddressParts.street parts)).
      destruct (nonEmpty (AddressParts.city parts)).
      * rewrite (bindRun_done _ _ _ _ _
                   (run_findRef (roadAndCityMatches stripped (AddressParts.city parts))
                      _ _ _ Hf)).
        destruct (find (onRecord snd (roadAndCityMatches stripped
                                        (AddressParts.city parts))) filtered)
          as [t|].
        -- exists [RefArray (map fst filtered)]. eexists. split; reflexivity.
        -- cbn [option_map].
           rewrite (bindRun_done _ _ _ _ _
                      (run_filterRefs (roadMatches stripped) _ _ _ Hf)).
           pose proof (holdsArray_filtered (roadMatches stripped) _ _ _ Hf)
             as [Ha Hr].
           rewrite (bindRun_done _ _ _ _ _ (run_readRefs _ _ _ Ha)).
           exists [RefArray (map fst filtered);
                   RefArray (map fst (filter (onRecord snd (roadMatches stripped))
                                        filtered))].
           destruct (filter (onRecord snd (roadMatches stripped)) filtered)
             as [|first rest].
           ++ eexists. split; [|reflexivity].
              unfold h1. rewrite <- app_assoc. reflexivity.
           ++ cbn [map].
              assert (Hfirst : nth_error (h1 ++ [RefArray (map fst (first :: rest))])
                                 (fst first)
                               = Some (CandidateCell (snd first)))
                by (now inversion Hr).
              rewrite (bindRun_done _ _ _ _ _
                         (bindRun_done _ _ _ _ _
                            (run_readCandidate _ _ _ Hfirst))).
              eexists. split; [|reflexivity].
              unfold h1. rewrite <- app_assoc. reflexivity.
      * rewrite (bindRun_done _ _ _ _ _
                   (run_findRef (roadMatches stripped) _ _ _ Hf)).
        destruct (find (onRecord snd (roadMatches stripped)) filtered) as [t|];
          exists [RefArray (map fst filtered)]; eexists; split; reflexivity.
    + destruct Hf as [Ha _].
      rewrite (bindRun_done _ _ _ _ _ (run_readRefs _ _ _ Ha)).
      exists [RefArray (map fst filtered)].
      subst h1. clear Ha. clearbody filtered.
      destruct filtered as [|first rest]; eexists; split; reflexivity.
Qed.

(** ** The scoring loop on the store *)

Lemma length_loopHeap (before : Heap) (errs : list string)
    (entries : list ((Loc * Candidate) * Z)) :
  length (loopHeap before errs entries) = (length before + 2 + length entries)%nat.
Proof. unfold loopHeap. rewrite length_app. simpl. rewrite length_map. lia. Qed.

Lemma nth_error_loopHeap_before (before : Heap) (errs : list string)
    (entries : list ((Loc * Candidate) * Z)) (l : Loc) (c : Cell) :
  nth_error before l = Some c ->
  nth_error (loopHeap before errs entries) l = Some c.
Proof. apply nth_error_before. Qed.

Lemma run_pushString_loop (before : Heap) (errs : list string)
    (entries : list ((Loc * Candidate) * Z)) (s : string) :
  pushString (length before) s (loopHeap before errs entries)
  = (loopHeap before (errs ++ [s]) entries, Done tt).
Proof. apply run_pushString. Qed.

Lemma run_pushScored_loop (before : Heap) (errs : list string)
    (entries : list ((Loc * Candidate) * Z)) (l : Loc) (c : Candidate)
    (matchScore : Z) :
  nth_error before l = Some (CandidateCell c) ->
  pushScored (S (length before)) l matchScore (loopHeap before errs entries)
  = (loopHeap before errs (entries ++ [((l, c), matchScore + confidence c)]),
     Done tt).
Proof.
  intro Hl. unfold pushScored.
  rewrite (bindRun_done _ _ _ _ _
             (run_readCandidate _ _ _
                (nth_error_loopHeap_before _ errs entries _ _ Hl))).
  rewrite (bindRun_done _ _ _ _ _
             (eq_refl : alloc (ScoredCell l (matchScore + confidence c))
                          (loopHeap before errs entries) = (_, Done _))).
  rewrite length_loopHeap.
  assert (Hshape :
    loopHeap before errs entries ++ [ScoredCell l (matchScore + confidence c)]
    = (before ++ [StringArray errs])
      ++ RefArray (seq (length before + 2) (length entries))
         :: (map scoredCellOf entries
             ++ [ScoredCell l (matchScore + confidence c)])).
  { unfold loopHeap. rewrite <- !app_assoc. reflexivity. }
  assert (Hloc : S (length before) = length (before ++ [StringArray errs])).
  { rewrite length_app. simpl. lia. }
  rewrite Hshape, Hloc, run_pushRef.
  f_equal. unfold loopHeap. rewrite <- app_assoc. cbn [app].
  rewrite length_app, map_app. cbn [length map].
  rewrite Nat.add_1_r, seq_S. reflexivity.
Qed.

Lemma bindRun_ret {A B : Type} (a : A) (k : A -> Run B) (h : Heap) :
  bindRun (ret a) k h = k a h.
Proof. reflexivity. Qed.

Lemma bindRun_raise {A B : Type} (m : string) (k : A -> Run B) (h : Heap) :
  bindRun (raise m) k h = (h, Raised m).
Proof. reflexivity. Qed.

Lemma run_italianBlock (known : string -> string -> string -> Exc bool)
    (parts : AddressParts.t) (c : Components.t) (before : Heap)
    (errs : list string) (entries : list ((Loc * Candidate) * Z)) :
  italianBlock known parts (length before) c (loopHeap before errs entries)
  = (loopHeap before (fst (italianTry known parts c errs)) entries,
     endOfTry (snd (italianTry known parts c errs))).
Proof.
  unfold italianBlock, italianTry.
  destruct (validateAddressMatchWith known c parts) as [[|]|m];
    cbn [liftExc]; rewrite ?bindRun_ret, ?bindRun_raise; try reflexivity.
  match goal with
  | |- context [if ?b then pushString _ _ else ret tt] => destruct b
  end.
  - rewrite (bindRun_done _ _ _ _ _ (run_pushString_loop _ _ _ _)).
    match goal with
    | |- context [if ?b then bindRun _ _ else ret None] => destruct b
    end; [|reflexivity].
    match goal with
    | |- context [known ?x ?y ?z] => destruct (known x y z) as [[|]|m]
    end; cbn [liftExc]; rewrite ?bindRun_ret, ?bindRun_raise;
      try reflexivity;
      now rewrite (bindRun_done _ _ _ _ _ (run_pushString_loop _ _ _ _)).
  - rewrite bindRun_ret.
    match goal with
    | |- context [if ?b then bindRun _ _ else ret None] => destruct b
    end; [|reflexivity].
    match goal with
    | |- context [known ?x ?y ?z] => destruct (known x y z) as [[|]|m]
    end; cbn [liftExc]; rewrite ?bindRun_ret, ?bindRun_raise;
      try reflexivity;
      now rewrite (bindRun_done _ _ _ _ _ (run_pushString_loop _ _ _ _)).
Qed.

Lemma run_scoreBody (known : string -> string -> string -> Exc bool)
    (parts : AddressParts.t) (before : Heap) (errs : list string)
    (entries : list ((Loc * Candidate) * Z)) (l : Loc) (c : Candidate) :
  nth_error before l = Some (CandidateCell c) ->
  scoreBody known parts (length before) (S (length before)) l
    (loopHeap before errs entries)
  = (loopHeap before
       (fst (scoreStepOn snd known parts (errs, entries) (l, c)))
       (snd (scoreStepOn snd known parts (errs, entries) (l, c))),
     Done tt).
Proof.
  intro Hl. unfold scoreBody, scoreStepOn.
  rewrite (bindRun_done _ _ _ _ _
             (run_readCandidate _ _ _
                (nth_error_loopHeap_before _ errs entries _ _ Hl))).
  cbn [fst snd].
  destruct (confidence c <? 9)%Z; [apply run_pushString_loop|].
  destruct (isForeign (components c)).
  - destruct (scoreForeign parts (components c)) as [d|ms].
    + apply run_pushString_loop.
    + now apply run_pushScored_loop.
  - unfold tryCatch, bindRun at 1.
    rewrite run_italianBlock.
    destruct (italianTry known parts (components c) errs) as [errs' [[ms|]|m]];
      cbn [fst snd endOfTry].
    + now apply run_pushScored_loop.
    + reflexivity.
    + now rewrite (bindRun_done _ _ _ _ _ (run_pushString_loop _ _ _ _)).
Qed.

Lemma run_forEach_scoreBody (known : string -> string -> string -> Exc bool)
    (parts : AddressParts.t) (before : Heap) (refs : list (Loc * Candidate)) :
  Forall (fun x => nth_error before (fst x) = Some (CandidateCell (snd x))) refs ->
  forall (errs : list string) (entries : list ((Loc * Candidate) * Z)),
    forEach (scoreBody known parts (length before) (S (length before)))
      (map fst refs) (loopHeap before errs entries)
    = (loopHeap before
         (fst (fold_left (scoreStepOn snd known parts) refs (errs, entries)))
         (snd (fold_left (scoreStepOn snd known parts) refs (errs, entries))),
       Done tt).
Proof.
  induction 1 as [|x refs Hx Hrefs IH]; intros errs entries; [reflexivity|].
  cbn [map forEach fold_left]. destruct x as [l c].
  rewrite (bindRun_done _ _ _ _ _ (run_scoreBody known parts _ errs entries _ _ Hx)).
  rewrite IH. now rewrite <- surjective_pairing.
Qed.

(** ** The sort of the scored references *)

Lemma insertDescending_onFirst {A B : Type} (f : A -> B) (x : A * Z)
    (l : list (A * Z)) :
  insertDescending (onFirst f x) (map (onFirst f) l)
  = map (onFirst f) (insertDescending x l).
Proof.
  induction l as [|y l IH]; [reflexivity|].
  cbn [map insertDescending]. cbn [onFirst snd].
  destruct (snd y - snd x <=? 0)%Z; [reflexivity|].
  cbn [map]. now rewrite <- IH.
Qed.

Lemma sortDescending_onFirst {A B : Type} (f : A -> B) (l : list (A * Z)) :
  sortDescending (map (onFirst f) l) = map (onFirst f) (sortDescending l).
Proof.
  induction l as [|x l IH]; [reflexivity|].
  cbn [map sortDescending]. now rewrite IH, insertDescending_onFirst.
Qed.

Lemma insertDescending_In {A : Type} (x y : A * Z) (l : list (A * Z)) :
  In y (insertDescending x l) -> y = x \/ In y l.
Proof.
  induction l as [|z l IH]; simpl.
  - intros [<-|[]]. now left.
  - destruct (snd z - snd x <=? 0)%Z; simpl.
    + intros [<-|[<-|H]]; auto.
    + intros [<-|H]; auto. destruct (IH H); auto.
Qed.

Lemma sortDescending_In {A : Type} (y : A * Z) (l : list (A * Z)) :
  In y (sortDescending l) -> In y l.
Proof.
  induction l as [|x l IH]; simpl; [easy|].
  intro H. apply insertDescending_In in H as [->|H]; auto.
Qed.

Lemma insertDescending_not_nil {A : Type} (x : A * Z) (l : list (A * Z)) :
  insertDescending x l <> [].
Proof.
  destruct l as [|y l]; simpl; [discriminate|].
  destruct (snd y - snd x <=? 0)%Z; discriminate.
Qed.

Lemma tagged_entries {A : Type} (entries : list (A * Z)) :
  forall base, map (onFirst snd) (tagged base entries) = entries.
Proof.
  induction entries as [|e entries IH]; intro base; [reflexivity|].
  cbn [tagged map]. rewrite IH. unfold onFirst. cbn [fst snd].
  now rewrite <- surjective_pairing.
Qed.

Lemma tagged_cells (entries : list ((Loc * Candidate) * Z)) :
  forall (prefix : Heap) (x : (Loc * (Loc * Candidate)) * Z),
    In x (tagged (length prefix) entries) ->
    nth_error (prefix ++ map scoredCellOf entries) (fst (fst x))
    = Some (scoredCellOf (onFirst snd x)).
Proof.
  induction entries as [|e entries IH]; intros prefix x; [easy|].
  cbn [tagged map]. intros [<-|Hin].
  - cbn [fst snd]. rewrite nth_error_at_end. unfold scoredCellOf, onFirst.
    reflexivity.
  - assert (Hlen : S (length prefix) = length (prefix ++ [scoredCellOf e])).
    { rewrite length_app. simpl. lia. }
    rewrite Hlen in Hin. specialize (IH _ _ Hin).
    now rewrite <- app_assoc in IH.
Qed.

Lemma run_readScores (entries : list ((Loc * Candidate) * Z)) :
  forall prefix : Heap,
    readScores (seq (length prefix) (length entries))
      (prefix ++ map scoredCellOf entries)
    = (prefix ++ map scoredCellOf entries,
       Done (map (onFirst fst) (tagged (length prefix) entries))).
Proof.
  induction entries as [|e entries IH]; intro prefix; [reflexivity|].
  cbn [length seq map readScores tagged].
  assert (Hcell : nth_error (prefix ++ scoredCellOf e :: map scoredCellOf entries)
                    (length prefix)
                  = Some (ScoredCell (fst (fst e)) (snd e)))
    by apply nth_error_at_end.
  rewrite (bindRun_done _ _ _ _ _ (run_readScored _ _ _ _ Hcell)).
  assert (Hlen : S (length prefix) = length (prefix ++ [scoredCellOf e])).
  { rewrite length_app. simpl. lia. }
  assert (Hheap : prefix ++ scoredCellOf e :: map scoredCellOf entries
                  = (prefix ++ [scoredCellOf e]) ++ map scoredCellOf entries).
  { now rewrite <- app_assoc. }
  rewrite Hlen, Hheap.
  rewrite (bindRun_done _ _ _ _ _ (IH _)).
  reflexivity.
Qed.

(** ** What follows the loop, on the store *)

Lemma loopHeap_empty (before : Heap) :
  (before ++ [StringArray []]) ++ [RefArray []] = loopHeap before [] [].
Proof. unfold loopHeap. now rewrite <- app_assoc. Qed.

Lemma loopHeap_fresh (before : Heap) (errs : list string)
    (entries : list ((Loc * Candidate) * Z)) :
  exists fresh, loopHeap before errs entries = before ++ fresh.
Proof. unfold loopHeap. eauto. Qed.

Lemma run_scoringFallbackM (known : string -> string -> string -> Exc bool)
    (parts : AddressParts.t) (before : Heap) (results : Loc)
    (refs : list (Loc * Candidate)) :
  holdsArray before results refs ->
  exists fresh : list Cell,
    scoringFallbackM known results parts before
    = (before ++ fresh,
       outcomeOf (concludeOn snd
                    (fold_left (scoreStepOn snd known parts) refs ([], []))
                    refs)).
Proof.
  intros Hrefs. unfold scoringFallbackM.
  rewrite (bindRun_done _ _ _ _ _
             (eq_refl : alloc (StringArray []) before = (_, Done _))).
  rewrite (bindRun_done _ _ _ _ _
             (eq_refl : alloc (RefArray []) (before ++ [StringArray []])
                        = (_, Done _))).
  assert (Hv : length (before ++ [StringArray []]) = S (length before)).
  { rewrite length_app. simpl. lia. }
  rewrite Hv, loopHeap_empty.
  destruct (holdsArray_app _ (StringArray [] :: RefArray [] :: []) _ _ Hrefs)
    as [Ha _].
  change (before ++ [StringArray []; RefArray []])
    with (loopHeap before [] []) in Ha.
  rewrite (bindRun_done _ _ _ _ _ (run_readRefs _ _ _ Ha)).
  destruct Hrefs as [Harr Hcells].
  rewrite (bindRun_done _ _ _ _ _
             (run_forEach_scoreBody known parts before refs Hcells [] [])).
  destruct (fold_left (scoreStepOn snd known parts) refs ([], []))
    as [errs entries].
  cbn [fst snd]. unfold concludeOn. cbn [fst snd].
  assert (Hvalid : nth_error (loopHeap before errs entries) (S (length before))
                   = Some (RefArray (seq (length before + 2) (length entries)))).
  { unfold loopHeap.
    change (before ++ StringArray errs :: ?t)
      with (before ++ [StringArray errs] ++ t).
    rewrite app_assoc, <- Hv.
    replace (length (before ++ [StringArray []]))
      with (length (before ++ [StringArray errs]))
      by (rewrite !length_app; reflexivity).
    apply nth_error_at_end. }
  rewrite (bindRun_done _ _ _ _ _ (run_readRefs _ _ _ Hvalid)).
  destruct entries as [|e entries].
  - (* no scored candidate *)
    cbn [length seq sortDescending].
    assert (Herrs : nth_error (loopHeap before errs []) (length before)
                    = Some (StringArray errs)) by apply nth_error_at_end.
    rewrite (bindRun_done _ _ _ _ _ (run_readStrings _ _ _ Herrs)).
    destruct errs as [|errorDetail errs].
    + assert (Hheld : holdsArray (loopHeap before [] []) results refs)
        by (apply holdsArray_app; now split).
      rewrite (bindRun_done _ _ _ _ _
                 (run_filterRefs (fun r => (8 <=? confidence r)%Z) _ _ _ Hheld)).
      rewrite (bindRun_done _ _ _ _ _
                 (run_readRefs _ _ _ (nth_error_at_end _ [] _))).
      exists ([StringArray []; RefArray []]
              ++ [RefArray (map fst
                              (filter (onRecord snd
                                         (fun r => (8 <=? confidence r)%Z))
                                 refs))]).
      rewrite app_assoc.
      destruct (filter (onRecord snd (fun r => (8 <=? confidence r)%Z)) refs);
        reflexivity.
    + exists [StringArray (errorDetail :: errs); RefArray []]. reflexivity.
  - (* a scored candidate *)
    cbn [length seq]. cbv iota.
    set (base := (length before + 2)%nat) in *.
    set (prefix := before ++ [StringArray errs;
                              RefArray (seq base (length (e :: entries)))]).
    assert (Hbase : base = length prefix).
    { unfold prefix, base. rewrite length_app. reflexivity. }
    assert (Hheap : loopHeap before errs (e :: entries)
                    = prefix ++ map scoredCellOf (e :: entries)).
    { unfold loopHeap, prefix. fold base. now rewrite <- app_assoc. }
    pose proof (sortDescending_onFirst snd (tagged base (e :: entries))) as Hsort.
    rewrite tagged_entries in Hsort.
    set (sorted := sortDescending (tagged base (e :: entries))) in *.
    set (sortedRefs := map fst (map (onFirst fst) sorted)).
    set (prefix' := before ++ [StringArray errs; RefArray sortedRefs]).
    assert (Hv' : forall errs', S (length before)
                                = length (before ++ [StringArray errs'])).
    { intro errs'. rewrite length_app. simpl. lia. }
    assert (Hsortrun :
      sortByScoreInPlace (S (length before)) (loopHeap before errs (e :: entries))
      = (prefix' ++ map scoredCellOf (e :: entries), Done tt)).
    { unfold sortByScoreInPlace.
      rewrite (bindRun_done _ _ _ _ _ (run_readRefs _ _ _ Hvalid)).
      rewrite Hheap.
      assert (Hscores := run_readScores (e :: entries) prefix).
      rewrite <- Hbase in Hscores.
      rewrite (bindRun_done _ _ _ _ _ Hscores).
      rewrite sortDescending_onFirst. fold sorted. fold sortedRefs.
      unfold prefix, prefix'. rewrite <- !app_assoc.
      change (before ++ [StringArray errs; RefArray ?x] ++ ?t)
        with (before ++ [StringArray errs] ++ RefArray x :: t).
      rewrite !app_assoc. rewrite (Hv' errs).
      apply run_store_at_end. }
    rewrite (bindRun_done _ _ _ _ _ Hsortrun).
    assert (Hsortedrefs : nth_error (prefix' ++ map scoredCellOf (e :: entries))
                            (S (length before))
                          = Some (RefArray sortedRefs)).
    { unfold prefix'. rewrite <- app_assoc.
      change (before ++ [StringArray errs; RefArray sortedRefs] ++ ?t)
        with (before ++ [StringArray errs] ++ RefArray sortedRefs :: t).
      rewrite app_assoc. rewrite (Hv' errs).
      apply nth_error_at_end. }
    rewrite (bindRun_done _ _ _ _ _ (run_readRefs _ _ _ Hsortedrefs)).
    assert (Hbase' : base = length prefix').
    { unfold prefix', base. rewrite length_app. reflexivity. }
    exists ([StringArray errs; RefArray sortedRefs]
            ++ map scoredCellOf (e :: entries)).
    rewrite app_assoc. fold prefix'.
    destruct sorted as [|best rest] eqn:Esorted.
    + exfalso. cbn [map] in Hsort. cbn [sortDescending] in Hsort.
      exact (insertDescending_not_nil _ _ Hsort).
    + assert (Hin : In best (tagged (length prefix') (e :: entries))).
      { rewrite <- Hbase'. apply sortDescending_In. fold sorted.
        rewrite Esorted. now left. }
      pose proof (tagged_cells _ _ _ Hin) as Hcell.
      unfold sortedRefs. cbn [map].
      change (fst (onFirst fst best)) with (fst (fst best)).
      unfold scoredCellOf in Hcell at 2.
      rewrite (bindRun_done _ _ _ _ _ (run_readScored _ _ _ _ Hcell)).
      rewrite Hsort. cbn [map]. reflexivity.
Qed.

(** ** A call on the store *)

(** What a call of [findBestResult] does to a store in which [results] is
    an array of references to candidates: it adds objects after those of
    the store, leaves every object of the store as it was, and ends as the
    selection over the references and their records says. *)
Lemma run_findBestResultM (known : string -> string -> string -> Exc bool)
    (h : Heap) (results : Loc) (refs : list (Loc * Candidate)) (addr : string) :
  holdsArray h results refs ->
  exists fresh : list Cell,
    findBestResultM known results addr h
    = (h ++ fresh, outcomeOf (findBestResultOn snd known refs addr)).
Proof.
  intro Hrefs. unfold findBestResultM, findBestResultOn. cbv zeta.
  rewrite (bindRun_done _ _ _ _ _ (run_readRefs _ _ _ (proj1 Hrefs))).
  destruct refs as [|x refs'].
  - cbn [map]. rewrite bindRun_ret.
    exact (run_scoringFallbackM known _ _ _ _ Hrefs).
  - cbn [map].
    destruct (run_selectionBranchesM h results (x :: refs') (parseAddress addr)
                Hrefs) as (fresh1 & r & Hrun & Hr).
    destruct (selectionBranchesOn snd (x :: refs') (parseAddress addr))
      as [[[t|]|m]|].
    + subst r. rewrite (bindRun_done _ _ _ _ _ Hrun). now exists fresh1.
    + destruct Hr.
    + subst r. rewrite (bindRun_raised _ _ _ _ _ Hrun). now exists fresh1.
    + subst r. rewrite (bindRun_done _ _ _ _ _ Hrun).
      destruct (run_scoringFallbackM known (parseAddress addr) (h ++ fresh1)
                  results (x :: refs') (holdsArray_app _ _ _ _ Hrefs))
        as (fresh2 & Hrun2).
      exists (fresh1 ++ fresh2). now rewrite app_assoc.
Qed.

(** ** The selection over references against the selection over records *)

Section ReferencesAndRecords.

Variable T : Type.
Variable cand : T -> Candidate.
Variable known : string -> string -> string -> Exc bool.

Lemma selectionBranchesOn_records (results : list T) (parts : AddressParts.t) :
  selectionBranches (map cand results) parts
  = option_map (toRecord cand) (selectionBranchesOn cand results parts).
Proof.
  unfold selectionBranches, selectionBranchesOn.
  rewrite (filter_map_comm cand hasRoadOrSquare).
  fold (onRecord cand hasRoadOrSquare).
  set (filtered := filter (onRecord cand hasRoadOrSquare) results).
  rewrite !find_map_comm, (filter_map_comm cand).
  unfold onRecord.
  destruct (nonEmpty (AddressParts.postcode parts)).
  - destruct (nonEmpty (AddressParts.street parts)).
    + destruct (find _ filtered); [reflexivity|].
      cbn [option_map]. now destruct (find _ filtered).
    + now destruct (find _ filtered).
  - destruct (nonEmpty (AddressParts.street parts)).
    + cbv zeta. destruct (nonEmpty (AddressParts.city parts)).
      * destruct (find _ filtered); [reflexivity|]. cbn [option_map].
        now destruct (filter _ filtered).
      * now destruct (find _ filtered).
    + now destruct filtered.
Qed.

Lemma scoreStepOn_records (parts : AddressParts.t)
    (st : list string * list (T * Z)) (t : T) :
  toLoopState cand (scoreStepOn cand known parts st t)
  = scoreStep known parts (toLoopState cand st) (cand t).
Proof.
  unfold scoreStepOn, scoreStep. cbv zeta.
  fold (isForeign (components (cand t))).
  destruct (confidence (cand t) <? 9)%Z; [reflexivity|].
  destruct (isForeign (components (cand t))).
  - destruct (scoreForeign parts (components (cand t))); [reflexivity|].
    unfold toLoopState, pushValid. cbn [fst snd validationErrors validResults].
    now rewrite map_app.
  - change (validationErrors (toLoopState cand st)) with (fst st).
    destruct (italianTry known parts (components (cand t)) (fst st))
      as [errs [[ms|]|m]]; try reflexivity.
    unfold toLoopState, pushValid, setErrors.
    cbn [fst snd validationErrors validResults].
    now rewrite map_app.
Qed.

Lemma fold_scoreStepOn_records (parts : AddressParts.t) (results : list T) :
  forall st,
    toLoopState cand (fold_left (scoreStepOn cand known parts) results st)
    = fold_left (scoreStep known parts) (map cand results) (toLoopState cand st).
Proof.
  induction results as [|t results IH]; intro st; [reflexivity|].
  cbn [fold_left map]. now rewrite IH, scoreStepOn_records.
Qed.

Lemma insertDescending_records (x : T * Z) (l : list (T * Z)) :
  insertByScore (toScored cand x) (map (toScored cand) l)
  = map (toScored cand) (insertDescending x l).
Proof.
  induction l as [|y l IH]; [reflexivity|].
  cbn [map insertByScore insertDescending]. cbn [toScored score].
  destruct (snd y - snd x <=? 0)%Z; [reflexivity|].
  cbn [map]. now rewrite <- IH.
Qed.

Lemma sortDescending_records (l : list (T * Z)) :
  sortByScore (map (toScored cand) l) = map (toScored cand) (sortDescending l).
Proof.
  induction l as [|x l IH]; [reflexivity|].
  cbn [map sortByScore sortDescending].
  now rewrite IH, insertDescending_records.
Qed.

Lemma concludeOn_records (st : list string * list (T * Z)) (results : list T) :
  concludeScoring (toLoopState cand st) (map cand results)
  = toRecord cand (concludeOn cand st results).
Proof.
  unfold concludeScoring, concludeOn.
  cbn [toLoopState validResults validationErrors].
  rewrite sortDescending_records.
  destruct (sortDescending (snd st)) as [|best rest]; [|reflexivity].
  cbn [map]. destruct (fst st); [|reflexivity].
  rewrite (filter_map_comm cand). unfold onRecord.
  now destruct (filter _ results).
Qed.

(** The record of the reference that the selection over references
    returns is the candidate that [findBestResult] returns on the records,
    and the two fail alike. *)
Lemma findBestResultOn_records (results : list T) (addr : string) :
  findBestResultWith known (map cand results) addr
  = toRecord cand (findBestResultOn cand known results addr).
Proof.
  unfold findBestResultWith, findBestResultOn, scoringFallbackWith, scoringLoop.
  cbv zeta.
  change {| validationErrors := []; validResults := [] |}
    with (toLoopState cand ([], [])).
  rewrite <- fold_scoreStepOn_records, concludeOn_records.
  destruct results as [|t results]; [reflexivity|].
  change (map cand (t :: results)) with (map cand (t :: results)).
  cbn [map].
  change (cand t :: map cand results) with (map cand (t :: results)).
  rewrite selectionBranchesOn_records.
  now destruct (selectionBranchesOn cand (t :: results) (parseAddress addr)).
Qed.

Lemma selectionBranchesOn_In (results : list T) (parts : AddressParts.t) (t : T) :
  selectionBranchesOn cand results parts = Some (Ret (Some t)) -> In t results.
Proof.
  unfold selectionBranchesOn.
  set (filtered := filter (onRecord cand hasRoadOrSquare) results).
  assert (Hfound : forall p t', find p filtered = Some t' -> t' = t ->
                                In t results).
  { intros p t' H <-. apply find_some in H as [H _].
    now apply filter_In in H as [H _]. }
  destruct (nonEmpty (AddressParts.postcode parts)).
  - destruct (nonEmpty (AddressParts.street parts)).
    + destruct (find (onRecord cand (postcodeAndRoadMatch parts)) filtered)
        as [t1|] eqn:E1.
      * intro H. apply (Hfound _ _ E1). congruence.
      * destruct (find (onRecord cand (postcodeMatch parts)) filtered)
          as [t2|] eqn:E2; [|discriminate].
        intro H. apply (Hfound _ _ E2). congruence.
    + destruct (find (onRecord cand (postcodeMatch parts)) filtered)
        as [t2|] eqn:E2; [|discriminate].
      intro H. apply (Hfound _ _ E2). congruence.
  - destruct (nonEmpty (AddressParts.street parts)).
    + cbv zeta. destruct (nonEmpty (AddressParts.city parts)).
      * match goal with
        | |- context [find ?p filtered] =>
            destruct (find p filtered) as [t1|] eqn:E1; [|discriminate]
        end.
        intro H. apply (Hfound _ _ E1). congruence.
      * match goal with
        | |- context [find ?p filtered] =>
            destruct (find p filtered) as [t1|] eqn:E1; [|discriminate]
        end.
        intro H. apply (Hfound _ _ E1). congruence.
    + destruct filtered as [|first rest] eqn:Ef; [discriminate|].
      intro H. assert (first = t) by congruence. subst first.
      assert (Hin : In t filtered) by (rewrite Ef; now left).
      now apply filter_In in Hin as [Hin _].
Qed.

Lemma scoreStepOn_In (parts : AddressParts.t)
    (st : list string * list (T * Z)) (t : T) (e : T * Z) :
  In e (snd (scoreStepOn cand known parts st t)) ->
  In e (snd st) \/ fst e = t.
Proof.
  unfold scoreStepOn. cbv zeta.
  destruct (confidence (cand t) <? 9)%Z; [now left|].
  destruct (isForeign (components (cand t))).
  - destruct (scoreForeign parts (components (cand t))); cbn [snd]; [now left|].
    intro H. apply in_app_or in H as [H|[<-|[]]]; auto.
  - destruct (italianTry known parts (components (cand t)) (fst st))
      as [errs [[ms|]|m]]; cbn [snd]; try (now left).
    intro H. apply in_app_or in H as [H|[<-|[]]]; auto.
Qed.

Lemma fold_scoreStepOn_In (parts : AddressParts.t) (results : list T)
    (e : T * Z) :
  forall st,
    In e (snd (fold_left (scoreStepOn cand known parts) results st)) ->
    In e (snd st) \/ In (fst e) results.
Proof.
  induction results as [|t results IH]; intros st H; cbn [fold_left] in H;
    [now left|].
  destruct (IH _ H) as [H'|H']; [|right; now right].
  destruct (scoreStepOn_In _ _ _ _ H') as [H''|H'']; [now left|].
  right. left. now symmetry.
Qed.

(** A returned reference is one of the references of the array. *)
Lemma findBestResultOn_In (results : list T) (addr : string) (t : T) :
  findBestResultOn cand known results addr = Ret (Some t) -> In t results.
Proof.
  unfold findBestResultOn. cbv zeta.
  assert (Hconc : forall st,
             (forall e, In e (snd st) -> In (fst e) results) ->
             concludeOn cand st results = Ret (Some t) -> In t results).
  { intros st Hst. unfold concludeOn.
    destruct (sortDescending (snd st)) as [|best rest] eqn:Es.
    - destruct (fst st); [|discriminate].
      destruct (filter _ results) as [|first rest] eqn:Ef; [discriminate|].
      intro H. injection H as <-.
      assert (Hin : In first (first :: rest)) by now left.
      rewrite <- Ef in Hin. now apply filter_In in Hin as [Hin _].
    - intro H. injection H as <-. apply Hst.
      apply sortDescending_In. rewrite Es. now left. }
  assert (Hloop : forall e,
             In e (snd (fold_left (scoreStepOn cand known (parseAddress addr))
                          results ([], []))) ->
             In (fst e) results).
  { intros e H. now destruct (fold_scoreStepOn_In _ _ _ _ H) as [[]|H']. }
  destruct results as [|t0 results]; [now apply Hconc|].
  destruct (selectionBranchesOn cand (t0 :: results) (parseAddress addr))
    as [o|] eqn:E; [|now apply Hconc].
  intro H. subst o. exact (selectionBranchesOn_In _ _ _ E).
Qed.

End ReferencesAndRecords.

(** ** Two calls in a row *)

(** The statements of the store do write where they are told to: a [push]
    on the array of candidates changes it. *)
Example push_on_results_is_a_write :
  fst (pushRef 2%nat 0%nat sampleHeap)
  = [CandidateCell Sample.viaRomaMilano; CandidateCell Sample.viaRomaFirenze;
     RefArray [0%nat; 1%nat; 0%nat]]
  /\ ~ holdsArray (fst (pushRef 2%nat 0%nat sampleHeap)) 2%nat sampleRefs.
Proof.
  split; [reflexivity|]. intros [H _]. discriminate H.
Qed.

(** A call that takes the postcode branch: it adds [filteredResults] to the
    store and returns the reference of the second candidate. *)
Example findBestResultM_postcode_branch :
  findBestResultM checkKnownMismatches 2%nat "Via Roma, Firenze, 50100" sampleHeap
  = (sampleHeap ++ [RefArray [0%nat; 1%nat]], Done (Some 1%nat)).
Proof. vm_compute. reflexivity. Qed.

(** A call that runs the scoring loop: it adds [filteredResults],
    [validationErrors], [validResults] and two entries to the store, sorts
    [validResults] in place, and returns the reference of the candidate of
    confidence 10. *)
Example findBestResultM_scoring_loop :
  findBestResultM checkKnownMismatches 2%nat ", Roma" romaHeap
  = (romaHeap
     ++ [RefArray []; StringArray []; RefArray [7%nat; 6%nat];
         ScoredCell 0%nat 10; ScoredCell 1%nat 11],
     Done (Some 1%nat)).
Proof. vm_compute. reflexivity. Qed.

(** How a call ends depends on the references of the array and on their
    records only: two stores that hold the same references with the same
    records, whatever else they hold and wherever the array is, give the
    same outcome. *)
Lemma findBestResultM_outcome_of_records
    (h1 h2 : Heap) (results1 results2 : Loc) (refs : list (Loc * Candidate))
    (addr : string) :
  holdsArray h1 results1 refs ->
  holdsArray h2 results2 refs ->
  snd (findBestResultM checkKnownMismatches results1 addr h1)
  = snd (findBestResultM checkKnownMismatches results2 addr h2).
Proof.
  intros H1 H2.
  destruct (run_findBestResultM checkKnownMismatches _ _ _ addr H1) as [f1 ->].
  destruct (run_findBestResultM checkKnownMismatches _ _ _ addr H2) as [f2 ->].
  reflexivity.
Qed.

(** C9: on a store in which [results] is an array of references to
    candidates, two calls of [findBestResult] in a row, with the same array
    and the same address, end alike: with the same reference, or with the
    same error message. Each call only adds objects to the store: every
    object that was there before the first call, so the array and every
    candidate, is the same after the second. The reference returned is one
    of the array, and its record is the candidate that [findBestResult]
    selects among the records. *)
Theorem findBestResult_twice_on_the_store
    (h : Heap) (results : Loc) (refs : list (Loc * Candidate)) (addr : string) :
  holdsArray h results refs ->
  exists (outcome : Res (option Loc)) (fresh1 fresh2 : list Cell),
    findBestResultM checkKnownMismatches results addr h = (h ++ fresh1, outcome)
    /\ findBestResultM checkKnownMismatches results addr (h ++ fresh1)
       = ((h ++ fresh1) ++ fresh2, outcome)
    /\ (forall l cell,
           nth_error h l = Some cell ->
           nth_error (h ++ fresh1) l = Some cell
           /\ nth_error ((h ++ fresh1) ++ fresh2) l = Some cell)
    /\ holdsArray ((h ++ fresh1) ++ fresh2) results refs
    /\ match outcome with
       | Done (Some l) =>
           exists c, In (l, c) refs
                     /\ findBestResult (map snd refs) addr = Ret (Some c)
       | Done None => findBestResult (map snd refs) addr = Ret None
       | Raised m => findBestResult (map snd refs) addr = Throw m
       | Stuck => False
       end.
Proof.
  intro Hrefs.
  destruct (run_findBestResultM checkKnownMismatches h results refs addr Hrefs)
    as (fresh1 & Hrun1).
  pose proof (holdsArray_app _ fresh1 _ _ Hrefs) as Hrefs1.
  destruct (run_findBestResultM checkKnownMismatches (h ++ fresh1) results refs
              addr Hrefs1) as (fresh2 & Hrun2).
  exists (outcomeOf (findBestResultOn snd checkKnownMismatches refs addr)),
    fresh1, fresh2.
  split; [exact Hrun1|]. split; [exact Hrun2|].
  split.
  { intros l cell Hl. split; [now apply nth_error_before|].
    now apply nth_error_before, nth_error_before. }
  split; [now apply holdsArray_app|].
  pose proof (findBestResultOn_records _ snd checkKnownMismatches refs addr)
    as Hrec.
  fold findBestResult in Hrec.
  destruct (findBestResultOn snd checkKnownMismatches refs addr)
    as [[t|]|m] eqn:E; cbn [outcomeOf option_map toRecord] in *.
  - exists (snd t). split; [|exact Hrec].
    rewrite <- surjective_pairing.
    exact (findBestResultOn_In _ _ _ _ _ _ E).
  - exact Hrec.
  - exact Hrec.
Qed.

Lemma findBestResult_twice_on_the_store_witness :
  holdsArray sampleHeap 2%nat sampleRefs
  /\ exists (outcome : Res (option Loc)) (fresh1 fresh2 : list Cell),
      findBestResultM checkKnownMismatches 2%nat "Via Roma, Firenze, 50100"
        sampleHeap = (sampleHeap ++ fresh1, outcome)
      /\ findBestResultM checkKnownMismatches 2%nat "Via Roma, Firenze, 50100"
           (sampleHeap ++ fresh1)
         = ((sampleHeap ++ fresh1) ++ fresh2, outcome)
      /\ holdsArray ((sampleHeap ++ fresh1) ++ fresh2) 2%nat sampleRefs.
Proof.
  assert (H : holdsArray sampleHeap 2%nat sampleRefs).
  { split; [reflexivity|]. repeat constructor. }
  split; [exact H|].
  destruct (findBestResult_twice_on_the_store sampleHeap 2%nat sampleRefs
              "Via Roma, Firenze, 50100" H)
    as (outcome & fresh1 & fresh2 & H1 & H2 & _ & H4 & _).
  exists outcome, fresh1, fresh2. exact (conj H1 (conj H2 H4)).
Defined.
